(** * ksg: a shallow embedding of the Frame layout engine and its leaf widgets

    Sources covered: [src/Frame.cpp], [inc/ksg/Frame.hpp], [src/Button.cpp],
    [ProgressBar.cpp].

    The development has five parts.
    - [FloatOps]: the arithmetic of C++ [float], as an interface with two
      instances: IEEE-754 binary32 (round to nearest even, through the
      Standard Library's [SpecFloat]) and exact rationals.
    - [ProgressBar], [Button]: the two leaf widgets whose setters validate
      their arguments.
    - [Adder]: [WidgetAdder] over a block/offset model of [std::vector]
      storage, where a pointer into the spacer storage names its block and
      its index.
    - [Commit]: the frames of a program as a heap of widget-pointer lists,
      with [Frame::contains], the four-argument [Frame::finalize_widgets]
      and the destructor of [WidgetAdder].
    - [Layout]: the geometry passes of one frame and of a tree of frames. *)

From Stdlib Require Import ZArith QArith Qminmax Bool Lia Lqa String.
From Stdlib Require Import SpecFloat Qround Ascii.
From stdpp Require Import base option list gmap.


(* ===================================================================== *)
(** * C++ [float] *)
(* ===================================================================== *)

(** The operations the sources apply to [float] values.  [a > b] is
    [fltb b a], [a != b] is [negb (feqb a b)]. *)
Class FloatOps (F : Type) : Type := {
  f_of_Z : Z -> F;          (* literals [0.f], [2.f] and the int -> float conversion *)
  fadd : F -> F -> F;
  fsub : F -> F -> F;
  fmul : F -> F -> F;
  fdiv : F -> F -> F;
  fopp : F -> F;
  fltb : F -> F -> bool;    (* [a < b] *)
  fleb : F -> F -> bool;    (* [a <= b] *)
  feqb : F -> F -> bool;    (* [a == b] *)
}.

Declare Scope fl_scope.
Delimit Scope fl_scope with fl.
Infix "+!" := fadd (at level 50, left associativity) : fl_scope.
Infix "-!" := fsub (at level 50, left associativity) : fl_scope.
Infix "*!" := fmul (at level 40, left associativity) : fl_scope.
Infix "/!" := fdiv (at level 40, left associativity) : fl_scope.
Infix "<!" := fltb (at level 70, no associativity) : fl_scope.
Infix "<=!" := fleb (at level 70, no associativity) : fl_scope.
Infix "==!" := feqb (at level 70, no associativity) : fl_scope.
Local Open Scope fl_scope.

Section FloatDerived.
Context {F : Type} `{FloatOps F}.

Definition f0 : F := f_of_Z 0%Z.
Definition f1 : F := f_of_Z 1%Z.
Definition f2 : F := f_of_Z 2%Z.
Definition f3 : F := f_of_Z 3%Z.

  (** [std::max(a, b)] is [(a < b) ? b : a]. *)
Definition fmax (a b : F) : F := if a <! b then b else a.

  (** [x] compares with [0.f] the way a number does: exactly one of
      [x <= 0] and [0 < x] holds.  A NaN fails both. *)
Definition ordered0 (x : F) : Prop := (x <=! f0) = negb (f0 <! x).
End FloatDerived.

(** IEEE-754 binary32: 24 bits of precision, infinities at exponent 128. *)
Definition b32 (m e : Z) : spec_float := binary_normalize 24%Z 128%Z m e false.

#[export] Instance binary32 : FloatOps spec_float := {|
  f_of_Z z := b32 z 0%Z;
  fadd := SFadd 24%Z 128%Z;
  fsub := SFsub 24%Z 128%Z;
  fmul := SFmul 24%Z 128%Z;
  fdiv := SFdiv 24%Z 128%Z;
  fopp := SFopp;
  fltb := SFltb;
  fleb := SFleb;
  feqb := SFeqb;
|}.

(** Exact rational arithmetic: the reading of [float] in which no operation
    rounds and there is neither NaN nor infinity.  Results are kept in
    lowest terms, so that equal numbers are equal terms. *)
Definition Qltb (a b : Q) : bool := match (a ?= b)%Q with Lt => true | _ => false end.

#[export] Instance exactQ : FloatOps Q := {|
  f_of_Z z := inject_Z z;
  fadd a b := Qred (a + b);
  fsub a b := Qred (a - b);
  fmul a b := Qred (a * b);
  fdiv a b := Qred (a / b);
  fopp a := Qred (- a);
  fltb := Qltb;
  fleb := Qle_bool;
  feqb := Qeq_bool;
|}.

(* ===================================================================== *)
(** * Exceptions and the state monad of a mutating member function *)
(* ===================================================================== *)

Inductive exception : Type :=
| invalid_argument (what : string)     (* [std::invalid_argument] *)
| out_of_range (what : string).        (* [std::out_of_range] *)

(** A member function run on an object (or a heap) of type [S]: it returns a
    value or throws, and in both cases leaves a state behind.  The state left
    by a throw is the state at the [throw] statement. *)
Definition M (S A : Type) : Type := S -> (exception + A) * S.

Definition ret {S A} (a : A) : M S A := fun s => (inr a, s).
Definition throw {S A} (e : exception) : M S A := fun s => (inl e, s).
Definition bind {S A B} (m : M S A) (k : A -> M S B) : M S B :=
  fun s => match m s with
           | (inl e, s') => (inl e, s')
           | (inr a, s') => k a s'
           end.
Definition get {S} : M S S := fun s => (inr s, s).
Definition modify {S} (f : S -> S) : M S unit := fun s => (inr tt, f s).

Declare Scope cpp_scope.
Delimit Scope cpp_scope with cpp.
Notation "x <- m ;; k" := (bind m (fun x => k))
  (at level 100, m at next level, k at level 200, right associativity) : cpp_scope.
Notation "m ;; k" := (bind m (fun _ => k))
  (at level 100, k at level 200, right associativity) : cpp_scope.
Local Open Scope cpp_scope.

(** Modelled from the spec: the drawable rectangle primitive [DrawRectangle]
    is not among the sources; section 1 of the specification lists it as an
    external collaborator known by its interface.  It is a position and a
    size with plain accessors and setters, named as [Button.cpp] and
    [ProgressBar.cpp] call them. *)
Module DrawRectangle.
Section DrawRectangle.
Context {F : Type}.

Record t : Type := mk { x : F; y : F; width : F; height : F }.

Definition set_position (px py : F) (r : t) : t :=
    {| x := px; y := py; width := width r; height := height r |}.
Definition set_size (w h : F) (r : t) : t :=
    {| x := x r; y := y r; width := w; height := h |}.
End DrawRectangle.
Arguments t : clear implicits.
End DrawRectangle.

(* ===================================================================== *)
(** * ProgressBar.cpp *)
(* ===================================================================== *)

Module ProgressBar.
Section ProgressBar.
Context {F : Type} `{FloatOps F}.

Record t : Type := mk {
    m_outer : DrawRectangle.t F;
    m_inner_front : DrawRectangle.t F;
    m_inner_back : DrawRectangle.t F;
    m_fill_amount : F;
    m_padding : F;
  }.

Definition FILL_OUT_OF_RANGE_MSG : string :=
    "ProgressBar::set_fill_amount: fill amount is not in range: [0 1].".

Definition width (pb : t) : F := DrawRectangle.width (m_outer pb).
Definition height (pb : t) : F := DrawRectangle.height (m_outer pb).

Definition active_padding (pb : t) : F :=
    if (width pb <! m_padding pb) || (height pb <! m_padding pb)
    then f0 else m_padding pb.

Definition update_sizes_using_outer (pb : t) : t :=
    let width := DrawRectangle.width (m_outer pb) in
    let height := DrawRectangle.height (m_outer pb) in
    let pad := active_padding pb in
    {| m_outer := m_outer pb;
       m_inner_back :=
         DrawRectangle.set_size (width -! pad *! f2) (height -! pad *! f2)
                                (m_inner_back pb);
       m_inner_front :=
         DrawRectangle.set_size ((width -! pad *! f2) *! m_fill_amount pb)
                                (height -! pad *! f2) (m_inner_front pb);
       m_fill_amount := m_fill_amount pb;
       m_padding := m_padding pb |}.

Definition set_size (w h : F) (pb : t) : t :=
    update_sizes_using_outer
      {| m_outer := DrawRectangle.set_size w h (m_outer pb);
         m_inner_front := m_inner_front pb;
         m_inner_back := m_inner_back pb;
         m_fill_amount := m_fill_amount pb;
         m_padding := m_padding pb |}.

Definition store_fill_amount (fill_amount : F) (pb : t) : t :=
    {| m_outer := m_outer pb;
       m_inner_front := m_inner_front pb;
       m_inner_back := m_inner_back pb;
       m_fill_amount := fill_amount;
       m_padding := m_padding pb |}.

Definition set_fill_amount (fill_amount : F) : M t unit :=
    if (fill_amount <! f0) || (f1 <! fill_amount)
    then throw (out_of_range FILL_OUT_OF_RANGE_MSG)
    else
      modify (store_fill_amount fill_amount) ;;
      pb <- get ;;
      modify (set_size (width pb) (height pb)).

Definition fill_amount (pb : t) : F := m_fill_amount pb.

  (** [ProgressBar(): m_fill_amount(0.f), m_padding(0.f) {}], [blank] being
      a default-constructed [DrawRectangle]. *)
Definition construct (blank : DrawRectangle.t F) : t :=
    {| m_outer := blank; m_inner_front := blank; m_inner_back := blank;
       m_fill_amount := f0; m_padding := f0 |}.

Definition update_positions_using_outer (pb : t) : t :=
    let x := DrawRectangle.x (m_outer pb) in
    let y := DrawRectangle.y (m_outer pb) in
    let padding := active_padding pb in
    {| m_outer := m_outer pb;
       m_inner_back :=
         DrawRectangle.set_position (x +! padding) (y +! padding) (m_inner_back pb);
       m_inner_front :=
         DrawRectangle.set_position (x +! padding) (y +! padding) (m_inner_front pb);
       m_fill_amount := m_fill_amount pb;
       m_padding := m_padding pb |}.

Definition set_location (x y : F) (pb : t) : t :=
    update_positions_using_outer
      {| m_outer := DrawRectangle.set_position x y (m_outer pb);
         m_inner_front := m_inner_front pb;
         m_inner_back := m_inner_back pb;
         m_fill_amount := m_fill_amount pb;
         m_padding := m_padding pb |}.

Definition set_padding (p : F) (pb : t) : t :=
    update_sizes_using_outer
      {| m_outer := m_outer pb;
         m_inner_front := m_inner_front pb;
         m_inner_back := m_inner_back pb;
         m_fill_amount := m_fill_amount pb;
         m_padding := p |}.

  (** The geometry calls of the public interface, and a sequence of them run
      on a bar; a call that throws leaves the bar as it is at the [throw]
      and the sequence goes on, as when the caller catches. *)
Inductive call : Type :=
  | call_set_location (x y : F)
  | call_set_size (w h : F)
  | call_set_padding (p : F)
  | call_set_fill_amount (fill_amount : F).

Definition run_call (pb : t) (c : call) : t :=
    match c with
    | call_set_location x y => set_location x y pb
    | call_set_size w h => set_size w h pb
    | call_set_padding p => set_padding p pb
    | call_set_fill_amount v => snd (set_fill_amount v pb)
    end.

Definition run (calls : list call) (pb : t) : t := fold_left run_call calls pb.
End ProgressBar.
Arguments t : clear implicits.
Arguments call : clear implicits.
End ProgressBar.

(* ===================================================================== *)
(** * Button.cpp *)
(* ===================================================================== *)

Module Button.
Section Button.
Context {F : Type} `{FloatOps F}.

  (** The geometry of a button and its highlight flag; the colours and the
      press functor play no part in [set_size]. *)
Record t : Type := mk {
    m_outer : DrawRectangle.t F;
    m_inner : DrawRectangle.t F;
    m_padding : F;
    m_is_highlighted : bool;
  }.

Definition k_set_size_msg : string :=
    "ksg::Button::set_size: width and height must be positive real numbers (which excludes zero).".

Definition width (b : t) : F := DrawRectangle.width (m_outer b).
Definition height (b : t) : F := DrawRectangle.height (m_outer b).

Definition set_button_frame_size (width_ height_ : F) (b : t) : t :=
    {| m_outer := DrawRectangle.set_size width_ height_ (m_outer b);
       m_inner :=
         DrawRectangle.set_size (fmax (width_ -! m_padding b *! f2) f0)
                                (fmax (height_ -! m_padding b *! f2) f0)
                                (m_inner b);
       m_padding := m_padding b;
       m_is_highlighted := m_is_highlighted b |}.

  (** The hooks of the base class: [Button::set_size_back] and
      [Button::on_size_changed] have empty bodies. *)
Definition set_size_back (width_ height_ : F) (b : t) : t := b.
Definition on_size_changed (old_width old_height : F) (b : t) : t := b.

Definition set_size (width_ height_ : F) : M t unit :=
    if (width_ <=! f0) || (height_ <=! f0)
    then throw (invalid_argument k_set_size_msg)
    else
      b <- get ;;
      let old_width := width b in
      let old_height := height b in
      modify (set_button_frame_size width_ height_) ;;
      modify (set_size_back width_ height_) ;;
      modify (on_size_changed old_width old_height).

  (** [Button::on_location_changed] has an empty body too. *)
Definition on_location_changed (old_x old_y : F) (b : t) : t := b.

Definition set_location (x y : F) (b : t) : t :=
    let old_x := DrawRectangle.x (m_outer b) in
    let old_y := DrawRectangle.y (m_outer b) in
    on_location_changed old_x old_y
      {| m_outer := DrawRectangle.set_position x y (m_outer b);
         m_inner := DrawRectangle.set_position (x +! m_padding b) (y +! m_padding b)
                                               (m_inner b);
         m_padding := m_padding b;
         m_is_highlighted := m_is_highlighted b |}.

  (** [is_in_drect] of the anonymous namespace: the [int] coordinates are
      converted to [float] for the comparisons. *)
Definition is_in_drect (x y : Z) (drect : DrawRectangle.t F) : bool :=
    (DrawRectangle.x drect <=! f_of_Z x) && (DrawRectangle.y drect <=! f_of_Z y)
    && (f_of_Z x <=! DrawRectangle.x drect +! DrawRectangle.width drect)
    && (f_of_Z y <=! DrawRectangle.y drect +! DrawRectangle.height drect).
End Button.
Arguments t : clear implicits.
End Button.

(** ** Events, colours and styles of a button (Button.cpp, lines 53-101
       and 140-150) *)

Module ButtonEvents.
Section ButtonEvents.
Context {F : Type} `{FloatOps F}.
  (** [sf::Color]. *)
Context {Color : Type}.

  (** The kinds of [sf::Event] that [Button::process_event] tells apart,
      with the cursor position those for the mouse carry. *)
Inductive event : Type :=
  | MouseButtonReleased (x y : Z)
  | MouseMoved (x y : Z)
  | MouseLeft
  | LostFocus
  | Resized
  | other_event.

Record ColorPair : Type := mkPair { back : Color; front : Color }.

  (** A button with its colours.  [outer_color] and [inner_color] are the
      colours of [m_outer] and [m_inner]; [m_press_functor] tells whether a
      functor is set.  [presses] is not in the source: it counts the calls
      [press] makes to the functor. *)
Record t : Type := mk {
    body : Button.t F;
    m_hover : ColorPair;
    m_reg : ColorPair;
    outer_color : Color;
    inner_color : Color;
    m_press_functor : bool;
    presses : nat;
  }.

Definition with_highlight (flag : bool) (b : Button.t F) : Button.t F :=
    {| Button.m_outer := Button.m_outer b; Button.m_inner := Button.m_inner b;
       Button.m_padding := Button.m_padding b; Button.m_is_highlighted := flag |}.

Definition deselect (b : t) : t :=
    {| body := with_highlight false (body b);
       m_hover := m_hover b; m_reg := m_reg b;
       outer_color := back (m_reg b); inner_color := front (m_reg b);
       m_press_functor := m_press_functor b; presses := presses b |}.

Definition highlight (b : t) : t :=
    {| body := with_highlight true (body b);
       m_hover := m_hover b; m_reg := m_reg b;
       outer_color := back (m_hover b); inner_color := front (m_hover b);
       m_press_functor := m_press_functor b; presses := presses b |}.

  (** The functor given to [set_press_event] is code of the client, free to
      call any member function of the button it was given to.
      [press_functor] is what one call of it leaves of the button. *)
Variable press_functor : t -> t.

Definition press (b : t) : t :=
    if m_press_functor b
    then let called := press_functor b in
         {| body := body called; m_hover := m_hover called;
            m_reg := m_reg called;
            outer_color := outer_color called; inner_color := inner_color called;
            m_press_functor := m_press_functor called;
            presses := S (presses b) |}
    else b.

Definition process_event (b : t) (evnt : event) : t :=
    match evnt with
    | MouseButtonReleased x y =>
        if Button.m_is_highlighted (body b)
           && Button.is_in_drect x y (Button.m_outer (body b))
        then press b else b
    | MouseMoved x y =>
        if Button.is_in_drect x y (Button.m_outer (body b))
        then highlight b else deselect b
    | MouseLeft | LostFocus | Resized => deselect b
    | other_event => b
    end.

Definition process_events (events : list event) (b : t) : t :=
    fold_left process_event events b.

  (** Modelled from the spec: the style map, "a key (string) -> typed value
      lookup" of which "missing keys" leave the field as it is.  These are
      the values [StyleFinder] finds under the five keys [Button::set_style]
      asks for. *)
Record styles : Type := mkStyles {
    hover_back_color : option Color;
    hover_front_color : option Color;
    reg_back_color : option Color;
    reg_front_color : option Color;
    global_padding : option F;
  }.

Definition set_if_found {A : Type} (found : option A) (field : A) : A :=
    match found with Some v => v | None => field end.

Definition set_style (smap : styles) (b : t) : t :=
    let hover := mkPair (set_if_found (hover_back_color smap) (back (m_hover b)))
                        (set_if_found (hover_front_color smap) (front (m_hover b))) in
    let reg := mkPair (set_if_found (reg_back_color smap) (back (m_reg b)))
                      (set_if_found (reg_front_color smap) (front (m_reg b))) in
    {| body :=
         {| Button.m_outer := Button.m_outer (body b);
            Button.m_inner := Button.m_inner (body b);
            Button.m_padding :=
              set_if_found (global_padding smap) (Button.m_padding (body b));
            Button.m_is_highlighted := Button.m_is_highlighted (body b) |};
       m_hover := hover; m_reg := reg;
       outer_color := back reg; inner_color := front reg;
       m_press_functor := m_press_functor b; presses := presses b |}.
End ButtonEvents.
Arguments t : clear implicits.
Arguments ColorPair : clear implicits.
Arguments styles : clear implicits.
End ButtonEvents.

(* ===================================================================== *)
(** * Pointers and [std::vector] storage *)
(* ===================================================================== *)

Definition addr : Type := nat.

(** The values a [Widget *] takes in [Frame.cpp].  A pointer into spacer
    storage names the storage block and the index of the element, so that
    reallocation (a new block) and pointer arithmetic ([++itr]) are both
    visible. *)
Inductive ptr : Type :=
| nullptr
| widget_at (a : addr)              (* a widget owned by the caller: a leaf or a frame *)
| spacer_at (b : nat) (i : nat)     (* [&storage[i]], [storage] being block [b] *)
| line_sep_of (f : addr).           (* [&m_the_line_seperator] of the frame at [f] *)

#[export] Instance ptr_eq_dec : EqDecision ptr.
Proof. solve_decision. Defined.

(** [++itr] on a pointer into spacer storage. *)
Definition ptr_incr (p : ptr) : ptr :=
  match p with
  | spacer_at b i => spacer_at b (S i)
  | _ => p
  end.

(** A [LineSeperator *] as a [Widget *]: null, or the line separator that
    is a member of the frame at [f]. *)
Definition sep_ptr (sep : option addr) : ptr :=
  match sep with
  | Some f => line_sep_of f
  | None => nullptr
  end.

Definition is_spacer_ptr (p : ptr) : bool :=
  match p with spacer_at _ _ => true | _ => false end.

(** Where the objects lie.  [Frame.cpp] compares pointers as addresses, and
    the address one past the last element of a storage block may be the
    address of another object. *)
Record layout : Type := mkLayout {
    widget_address : addr -> Z;     (* of a widget owned by the caller *)
    line_sep_address : addr -> Z;   (* of [m_the_line_seperator] of a frame *)
    block_address : nat -> Z;       (* of the first element of a storage block *)
    sizeof_spacer : Z;              (* [sizeof(HorizontalSpacer)] *)
  }.

Definition address (L : layout) (p : ptr) : Z :=
  match p with
  | nullptr => 0
  | widget_at a => widget_address L a
  | spacer_at b i => block_address L b + Z.of_nat i * sizeof_spacer L
  | line_sep_of f => line_sep_address L f
  end.

(** [p == q] on two pointers. *)
Definition ptr_eqb (L : layout) (p q : ptr) : bool :=
  (address L p =? address L q)%Z.

Module Vector.
Section Vector.
Context {A : Type}.

  (** A [std::vector<A>]: the block its elements live in, its capacity and
      its elements.  Blocks are handed out by a counter, the next unused
      block; block 0 is the storage of a vector that never allocated. *)
Record t : Type := mk { block : nat; capacity : nat; data : list A }.

Definition empty : t := {| block := 0; capacity := 0; data := [] |}.

Definition size (v : t) : nat := length (data v).
Definition is_empty (v : t) : bool := Nat.eqb (size v) 0.

  (** [v.reserve(n)] on a vector of smaller capacity: a new block of
      capacity [n] that receives the elements. *)
Definition reserve (n : nat) (v : t) (next : nat) : t * nat :=
    if Nat.leb n (capacity v) then (v, next)
    else ({| block := next; capacity := n; data := data v |}, S next).

  (** The growth policy of [push_back] is the implementation's; [grow c] is
      the capacity chosen when a vector of capacity [c] is full. *)
Variable grow : nat -> nat.

Definition push_back (x : A) (v : t) (next : nat) : t * nat :=
    if Nat.ltb (size v) (capacity v)
    then ({| block := block v; capacity := capacity v; data := data v ++ [x] |}, next)
    else ({| block := next; capacity := grow (capacity v); data := data v ++ [x] |},
          S next).

  (** [&v[i]], [&v.front()], [&v.back()]. *)
Definition address_of (v : t) (i : nat) : ptr := spacer_at (block v) i.
Definition back_address (v : t) : ptr := address_of v (size v - 1).
End Vector.
Arguments t : clear implicits.
End Vector.

(* ===================================================================== *)
(** * WidgetAdder (Frame.cpp, lines 42-132) *)
(* ===================================================================== *)

Module Adder.
Section Adder.
  (** [HorizontalSpacer] and [StyleMap] are declared outside the sources;
      the adder default-constructs the first and passes the second on. *)
Context {HorizontalSpacer StyleMap : Type}.
Variable L : layout.
Variable new_spacer : HorizontalSpacer.     (* [HorizontalSpacer()] *)
Variable grow : nat -> nat.

Record t : Type := mk {
    m_widgets : list ptr;
    m_horz_spacers : Vector.t HorizontalSpacer;
    m_the_line_sep : option addr;     (* [None] is the null pointer *)
    m_styles : option StyleMap;       (* [None] is the null pointer *)
    m_parent : option addr;           (* [None] is the null pointer *)
  }.

  (** [WidgetAdder() {}] *)
Definition default : t :=
    {| m_widgets := []; m_horz_spacers := Vector.empty;
       m_the_line_sep := None; m_styles := None; m_parent := None |}.

Definition k_null_parent : string :=
    "WidgetAdder::WidgetAdder: [library error] Parent must not be null, and line seperator must refer to something.".

  (** The three-argument constructor: target frame, style map, line
      separator. *)
Definition construct (frame_ : option addr) (styles_ : option StyleMap)
      (sep_ : option addr) : exception + t :=
    match frame_, sep_ with
    | Some _, Some _ =>
        inr {| m_widgets := []; m_horz_spacers := Vector.empty;
               m_the_line_sep := sep_; m_styles := styles_;
               m_parent := frame_ |}
    | _, _ => inl (invalid_argument k_null_parent)
    end.

Definition with_widgets (ws : list ptr) (sp : Vector.t HorizontalSpacer)
      (a : t) : t :=
    {| m_widgets := ws; m_horz_spacers := sp;
       m_the_line_sep := m_the_line_sep a; m_styles := m_styles a;
       m_parent := m_parent a |}.

Definition add (widget : addr) (a : t) : t :=
    with_widgets (m_widgets a ++ [widget_at widget]) (m_horz_spacers a) a.

  (** The loop of lines 105-110: every entry whose address is that of
      [old_itr] is replaced by [new_itr], and both advance; after the last
      element [old_itr] is one past the end of the old block.  The second
      component is the final [new_itr], the subject of the [assert] of
      line 112. *)
Fixpoint revalidate (ws : list ptr) (new_itr old_itr : ptr) : list ptr * ptr :=
    match ws with
    | [] => ([], new_itr)
    | widget_ptr :: rest =>
        if ptr_eqb L widget_ptr old_itr
        then let '(rest', fin) := revalidate rest (ptr_incr new_itr) (ptr_incr old_itr) in
             (new_itr :: rest', fin)
        else let '(rest', fin) := revalidate rest new_itr old_itr in
             (widget_ptr :: rest', fin)
    end.

  (** Lines 94-114: [std::copy] through a [back_inserter] into the reserved
      block copies the elements without a further reallocation. *)
Definition grow_and_revalidate (a : t) (next : nat) : t * nat :=
    let sp := m_horz_spacers a in
    if Nat.eqb (Vector.size sp) (Vector.capacity sp) && negb (Vector.is_empty sp)
    then
      let '(reserved, next') :=
        Vector.reserve (1 + Vector.capacity sp * 2)
                       (Vector.empty : Vector.t HorizontalSpacer) next in
      let new_spacer_cont :=
        {| Vector.block := Vector.block reserved;
           Vector.capacity := Vector.capacity reserved;
           Vector.data := Vector.data sp |} in
      let new_itr := Vector.address_of new_spacer_cont 0 in
      let old_itr := Vector.address_of sp 0 in
      let '(ws, _) := revalidate (m_widgets a) new_itr old_itr in
      (with_widgets ws new_spacer_cont a, next')
    else (a, next).

  (** The value of the expression of the [assert] of line 112 in a call
      that takes the branch, [true] in one that does not.  The definitions
      here go on as a build with [NDEBUG] does; without it a [false] aborts
      the program. *)
Definition assert_new_itr_at_end (a : t) (next : nat) : bool :=
    let sp := m_horz_spacers a in
    if Nat.eqb (Vector.size sp) (Vector.capacity sp) && negb (Vector.is_empty sp)
    then
      let '(reserved, _) :=
        Vector.reserve (1 + Vector.capacity sp * 2)
                       (Vector.empty : Vector.t HorizontalSpacer) next in
      let new_spacer_cont :=
        {| Vector.block := Vector.block reserved;
           Vector.capacity := Vector.capacity reserved;
           Vector.data := Vector.data sp |} in
      let new_itr := Vector.address_of new_spacer_cont 0 in
      let old_itr := Vector.address_of sp 0 in
      ptr_eqb L (snd (revalidate (m_widgets a) new_itr old_itr))
              (Vector.address_of new_spacer_cont (Vector.size new_spacer_cont))
    else true.

Definition add_horizontal_spacer (a : t) (next : nat) : t * nat :=
    let '(a1, next1) := grow_and_revalidate a next in
    let '(sp, next2) := Vector.push_back grow new_spacer (m_horz_spacers a1) next1 in
    (with_widgets (m_widgets a1 ++ [Vector.back_address sp]) sp a1, next2).

Definition add_line_seperator (a : t) : t :=
    with_widgets (m_widgets a ++ [sep_ptr (m_the_line_sep a)]) (m_horz_spacers a) a.

  (** [a.swap(rhs)]: the two adders exchange all five members; the element
      pointers travel with the vectors. *)
Definition swap (a rhs : t) : t * t := (rhs, a).

  (** [WidgetAdder(WidgetAdder && rhs) { swap(rhs); }]: the members of the
      new adder start from their default initialisers.  The result is the
      new adder and [rhs] as the call leaves it. *)
Definition move_construct (rhs : t) : t * t := swap default rhs.

  (** [a = std::move(rhs)], which is [a.swap(rhs)]. *)
Definition move_assign (a rhs : t) : t * t := swap a rhs.

  (** The three builder calls, and a chain of them run on an adder. *)
Inductive call : Type :=
  | call_add (widget : addr)
  | call_add_horizontal_spacer
  | call_add_line_seperator.

Definition run_call (c : call) (st : t * nat) : t * nat :=
    match c with
    | call_add w => (add w (fst st), snd st)
    | call_add_horizontal_spacer => add_horizontal_spacer (fst st) (snd st)
    | call_add_line_seperator => (add_line_seperator (fst st), snd st)
    end.

Definition run (calls : list call) (st : t * nat) : t * nat :=
    fold_left (fun st c => run_call c st) calls st.

  (** The entries of the widget list that point into spacer storage, and the
      others, each in list order. *)
Definition spacer_entries (a : t) : list ptr := filter (fun p => is_spacer_ptr p = true) (m_widgets a).
Definition other_entries (a : t) : list ptr := filter (fun p => is_spacer_ptr p = false) (m_widgets a).

  (** What the widget list must say about spacer storage: its spacer entries
      are, in order, the addresses of the elements. *)
Definition spacers_in_order (a : t) : Prop :=
    spacer_entries a =
      map (Vector.address_of (m_horz_spacers a))
          (seq 0 (Vector.size (m_horz_spacers a))).
End Adder.
Arguments t : clear implicits.
End Adder.

(* ===================================================================== *)
(** * Committing a widget list (Frame.cpp, lines 213-252 and 435-443) *)
(* ===================================================================== *)

Module Commit.
Section Commit.
Context {HorizontalSpacer StyleMap : Type}.
  (** [Geometry] stands for the members of a frame that the commit does not
      read: padding, border and focus handler.  [Leaf] is the state of a
      widget that is not a frame. *)
Context {Geometry Leaf : Type}.

Record Frame : Type := mkFrame {
    m_widgets : list ptr;
    m_horz_spacers : Vector.t HorizontalSpacer;
    m_geometry : Geometry;
  }.

  (** The objects of the program by address. *)
Inductive object : Type :=
  | OFrame (fr : Frame)
  | OLeaf (l : Leaf).

Abbreviation heap := (gmap addr object).

  (** [dynamic_cast<Frame *>(widget)]: the frame [widget] points at, if it
      points at one. *)
Definition as_frame (h : heap) (widget : ptr) : option Frame :=
    match widget with
    | widget_at a =>
        match h !! a with
        | Some (OFrame fr) => Some fr
        | _ => None
        end
    | _ => None
    end.

  (** The loop of [Frame::contains] over the widget list [ws], the recursive
      call on a nested frame being [rec]. *)
Fixpoint contains_scan (rec : Frame -> option bool) (h : heap) (wptr : ptr)
      (ws : list ptr) : option bool :=
    match ws with
    | [] => Some false
    | widget :: rest =>
        if decide (widget = wptr) then Some true
        else match as_frame h widget with
             | Some frame =>
                 match rec frame with
                 | Some true => Some true
                 | Some false => contains_scan rec h wptr rest
                 | None => None
                 end
             | None => contains_scan rec h wptr rest
             end
    end.

  (** [this->contains(wptr)].  The recursion follows pointers, so it is
      bounded by [fuel], the depth of the call stack; [None] is a search that
      needs a deeper stack. *)
Fixpoint contains (fuel : nat) (h : heap) (this : Frame) (wptr : ptr)
      : option bool :=
    match fuel with
    | O => None
    | S fuel' =>
        contains_scan (fun frame => contains fuel' h frame wptr) h wptr
                      (m_widgets this)
    end.

Definition k_must_know_line_sep : string :=
    "Frame::finalize_widgets: caller must know the line seperator to call this function. This is meant to be called by a Widget Adder only.".
Definition k_cannot_contain_this : string :=
    "Frame::finalize_widgets: This frame may not contain itself.".

  (** The loop of lines 235-241: [Some true] when an entry is a frame that
      contains [this], [None] when a search did not finish. *)
Fixpoint scan_for_this (fuel : nat) (h : heap) (this : addr)
      (widgets : list ptr) : option bool :=
    match widgets with
    | [] => Some false
    | widget :: rest =>
        match as_frame h widget with
        | Some frame_widget =>
            match contains fuel h frame_widget (widget_at this) with
            | Some true => Some true
            | Some false => scan_for_this fuel h this rest
            | None => None
            end
        | None => scan_for_this fuel h this rest
        end
    end.

  (** [Frame::set_style] and the private [Frame::finalize_widgets()] reach
      every widget below the frame through virtual calls; here they are
      functions on the heap. *)
Variable set_style : StyleMap -> addr -> heap -> heap.
Variable finalize_geometry : addr -> heap -> heap.

  (** Lines 243-244: the two [swap]s. *)
Definition commit (widgets : list ptr) (spacers : Vector.t HorizontalSpacer)
      (fr : Frame) : Frame :=
    {| m_widgets := widgets; m_horz_spacers := spacers;
       m_geometry := m_geometry fr |}.

  (** The four-argument [Frame::finalize_widgets] called on the frame at
      [this].  It returns the lists the two [swap]s leave in the arguments.
      [None]: a containment search did not finish, or no frame lives at
      [this].  The closing [check_invarients()] only asserts. *)
Definition finalize_widgets (fuel : nat) (this : addr)
      (widgets : list ptr) (spacers : Vector.t HorizontalSpacer)
      (the_line_sep : option addr) (styles : option StyleMap) (h : heap)
      : option ((exception + (list ptr * Vector.t HorizontalSpacer)) * heap) :=
    match h !! this with
    | Some (OFrame fr) =>
        if decide (the_line_sep = Some this) then
          match scan_for_this fuel h this widgets with
          | None => None
          | Some true => Some (inl (invalid_argument k_cannot_contain_this), h)
          | Some false =>
              let h1 := <[this := OFrame (commit widgets spacers fr)]> h in
              let h2 := match styles with
                        | Some s => finalize_geometry this (set_style s this h1)
                        | None => h1
                        end in
              Some (inr (m_widgets fr, m_horz_spacers fr), h2)
          end
        else Some (inl (invalid_argument k_must_know_line_sep), h)
    | _ => None
    end.

  (** [Frame::begin_adding_widgets], both overloads. *)
Definition begin_adding_widgets (this : addr) (styles : option StyleMap)
      : exception + Adder.t HorizontalSpacer StyleMap :=
    Adder.construct (Some this) styles (Some this).

  (** [WidgetAdder::~WidgetAdder()], [uncaught] being the value of
      [std::uncaught_exceptions()]. *)
Definition destroy (fuel : nat) (uncaught : Z)
      (a : Adder.t HorizontalSpacer StyleMap) (h : heap)
      : option ((exception + unit) * heap) :=
    if (0 <? uncaught)%Z then Some (inr tt, h)
    else match Adder.m_parent a with
         | None => Some (inr tt, h)
         | Some parent =>
             match finalize_widgets fuel parent (Adder.m_widgets a)
                     (Adder.m_horz_spacers a) (Adder.m_the_line_sep a)
                     (Adder.m_styles a) h with
             | Some (inr _, h') => Some (inr tt, h')
             | Some (inl e, h') => Some (inl e, h')
             | None => None
             end
         end.

  (** The containment relation of the data model: [wptr] is an entry of the
      frame's list or of the list of a frame nested in it. *)
Inductive reaches (h : heap) : Frame -> ptr -> Prop :=
  | reaches_entry fr wptr :
      wptr ∈ m_widgets fr -> reaches h fr wptr
  | reaches_nested fr widget nested wptr :
      widget ∈ m_widgets fr -> as_frame h widget = Some nested ->
      reaches h nested wptr -> reaches h fr wptr.

  (** Frames nest without a cycle: along every entry that is a frame the
      rank goes down. *)
Definition ranked (h : heap) (rank : addr -> nat) : Prop :=
    forall a fa b fb,
      h !! a = Some (OFrame fa) -> widget_at b ∈ m_widgets fa ->
      h !! b = Some (OFrame fb) -> rank b < rank a.
End Commit.
Arguments Frame : clear implicits.
Arguments object : clear implicits.
Abbreviation heap HorizontalSpacer Geometry Leaf :=
  (gmap addr (object HorizontalSpacer Geometry Leaf)).
End Commit.

(* ===================================================================== *)
(** * Frame geometry (Frame.cpp, lines 270-337 and 344-535) *)
(* ===================================================================== *)

(** [sf::Vector2f]. *)
Record VectorF (F : Type) : Type := mkVectorF { vx : F; vy : F }.
Arguments mkVectorF {F} _ _.
Arguments vx {F} _.
Arguments vy {F} _.

(** [FrameBorder] is declared and defined outside the sources.  These are
    the member functions [Frame.cpp] calls on [m_border], over an abstract
    border state [B]. *)
Class FrameBorderOps (F B : Type) : Type := {
  border_location : B -> VectorF F;
  border_width : B -> F;
  border_height : B -> F;
  border_set_location : F -> F -> B -> B;
  border_set_size : F -> F -> B -> B;
  update_geometry : B -> B;
  widget_start : B -> VectorF F;
  width_available_for_widgets : B -> F;
  title_width_accommodation : B -> F;
}.

Module Layout.
Section Layout.
Context {F : Type} `{FloatOps F}.
Context {B : Type} `{FrameBorderOps F B}.

  (** Modelled from the spec: a widget that is not a frame, known to the
      frame through the capability interface of section 6 ([width],
      [height], [set_location], [issue_auto_resize]).  It stores the
      location it is given, keeps its size, and its [issue_auto_resize] is
      the empty default. *)
Record LeafWidget : Type := mkLeaf {
    leaf_location : VectorF F;
    leaf_width : F;
    leaf_height : F;
  }.

  (** Modelled from the spec: [detail::HorizontalSpacer], "zero intrinsic
      size; later assigned a computed width".  Its height is [0.f]. *)
Record HorizontalSpacer : Type := mkSpacer {
    hs_location : VectorF F;
    hs_width : F;
  }.

  (** The widgets a frame lists, each entry being the widget it points at:
      the model of a widget tree in which no widget is listed twice.
      [LineSep] is the frame's own [m_the_line_seperator], of size zero. *)
Inductive Widget : Type :=
  | Leaf (l : LeafWidget)
  | Spacer (s : HorizontalSpacer)
  | LineSep
  | SubFrame (fr : Frame)
  with Frame : Type :=
  | mkFrame (m_border : B) (m_padding : F) (m_widgets : list Widget).

Definition m_border (fr : Frame) : B := let '(mkFrame b _ _) := fr in b.
Definition m_padding (fr : Frame) : F := let '(mkFrame _ p _) := fr in p.
Definition m_widgets (fr : Frame) : list Widget := let '(mkFrame _ _ ws) := fr in ws.

Definition with_border (b : B) (fr : Frame) : Frame :=
    mkFrame b (m_padding fr) (m_widgets fr).
Definition with_widgets (ws : list Widget) (fr : Frame) : Frame :=
    mkFrame (m_border fr) (m_padding fr) ws.

  (** ** The virtual member functions of [Widget] *)

Definition location (fr : Frame) : VectorF F := border_location (m_border fr).
Definition width (fr : Frame) : F := border_width (m_border fr).
Definition height (fr : Frame) : F := border_height (m_border fr).
Definition set_size (w h : F) (fr : Frame) : Frame :=
    with_border (border_set_size w h (m_border fr)) fr.
Definition set_location (x y : F) (fr : Frame) : Frame :=
    with_border (border_set_location x y (m_border fr)) fr.

Definition widget_width (w : Widget) : F :=
    match w with
    | Leaf l => leaf_width l
    | Spacer s => hs_width s
    | LineSep => f0
    | SubFrame fr => width fr
    end.

Definition widget_height (w : Widget) : F :=
    match w with
    | Leaf l => leaf_height l
    | Spacer _ => f0
    | LineSep => f0
    | SubFrame fr => height fr
    end.

Definition widget_set_location (x y : F) (w : Widget) : Widget :=
    match w with
    | Leaf l => Leaf (mkLeaf (mkVectorF x y) (leaf_width l) (leaf_height l))
    | Spacer s => Spacer (mkSpacer (mkVectorF x y) (hs_width s))
    | LineSep => LineSep
    | SubFrame fr => SubFrame (set_location x y fr)
    end.

  (** The location last given to a widget. *)
Definition widget_location (w : Widget) : option (VectorF F) :=
    match w with
    | Leaf l => Some (leaf_location l)
    | Spacer s => Some (hs_location s)
    | LineSep => None
    | SubFrame fr => Some (location fr)
    end.

Definition set_width (w : F) (s : HorizontalSpacer) : HorizontalSpacer :=
    mkSpacer (hs_location s) w.

  (** ** Lines 406-420 *)

  (** In a tree of widgets the address tests of [is_horizontal_spacer] and
      [is_line_seperator] are tests on the kind of the entry. *)
Definition is_horizontal_spacer (w : Widget) : bool :=
    match w with Spacer _ => true | _ => false end.
Definition is_line_seperator (w : Widget) : bool :=
    match w with LineSep => true | _ => false end.

Definition get_widget_advance (padding : F) (widget : Widget) : F :=
    let is_special_widget := is_line_seperator widget || is_horizontal_spacer widget in
    widget_width widget +! (if is_special_widget then f0 else padding).

  (** ** [Frame::compute_size_to_fit] (lines 344-404) *)

Record fit_state : Type := mkFit {
    total_width : F;
    line_width : F;
    total_height : F;
    line_height : F;
    pad_fix : F;
  }.

  (** One turn of the loop of lines 351-384; [nested_fit] is the value of
      [widget_as_frame->compute_size_to_fit()], used for a frame of width and
      height zero. *)
Definition fit_step (padding : F) (st : fit_state) (widget : Widget)
      (nested_fit : VectorF F) : fit_state :=
    if is_horizontal_spacer widget then
      mkFit (total_width st) (line_width st) (total_height st) (line_height st)
            (fopp padding)
    else if is_line_seperator widget then
      mkFit (fmax (line_width st) (total_width st)) f0
            (total_height st +! (line_height st +! padding)) f0 f0
    else
      let width := widget_width widget in
      let height := widget_height widget in
      let height :=
        if (width ==! f0) && (height ==! f0)
           && (match widget with SubFrame _ => true | _ => false end)
        then vy nested_fit else height in
      mkFit (total_width st)
            (line_width st +! (get_widget_advance padding widget +! pad_fix st))
            (total_height st)
            (fmax (line_height st) height)
            f0.

  (** Lines 386-403. *)
Definition fit_finish (border : B) (padding : F) (widgets : list Widget)
      (st : fit_state) : VectorF F :=
    let '(total_width, total_height) :=
      if negb (line_width st ==! f0)
      then (fmax (total_width st) (line_width st),
            total_height st +! (line_height st +! padding))
      else (total_width st, total_height st) in
    let total_height :=
      total_height +! (vy (widget_start border) -! vy (border_location border)) in
    let total_width :=
      fmax total_width (title_width_accommodation border +! padding *! f2) in
    match widgets with
    | [] => mkVectorF total_width total_height
    | _ :: _ => mkVectorF (total_width +! padding *! f3)
                          (total_height +! padding *! f3)
    end.

Fixpoint compute_size_to_fit (fr : Frame) : VectorF F :=
    let '(mkFrame border padding widgets) := fr in
    fit_finish border padding widgets
      (fold_left
         (fun st widget =>
            fit_step padding st widget
              (match widget with
               | SubFrame widget_as_frame => compute_size_to_fit widget_as_frame
               | _ => mkVectorF f0 f0
               end))
         widgets (mkFit f0 f0 f0 f0 f0)).

  (** ** [Frame::issue_auto_resize] (lines 422-433) *)

  (** The hook [issue_auto_resize_for_frame] is the empty one of [Frame]. *)
Fixpoint issue_auto_resize (fr : Frame) : Frame :=
    let '(mkFrame border padding widgets) := fr in
    let fr1 :=
      mkFrame border padding
        (map (fun widget =>
                match widget with
                | SubFrame child => SubFrame (issue_auto_resize child)
                | _ => widget
                end) widgets) in
    if (width fr1 ==! f0) || (height fr1 ==! f0)
    then let size_ := compute_size_to_fit fr1 in set_size (vx size_) (vy size_) fr1
    else fr1.

  (** ** [Frame::set_horz_spacer_widths] and
         [Frame::update_horizontal_spacers] (lines 464-535) *)

  (** The entries at the positions [beg], ..., [end_ - 1]. *)
Definition range (beg end_ : nat) (ws : list Widget) : list Widget :=
    take (end_ - beg) (drop beg ws).

Definition horz_spacer_count (beg end_ : nat) (ws : list Widget) : nat :=
    length (filter (fun w => is_horizontal_spacer w = true) (range beg end_ ws)).

Definition spacer_set_width (width : F) (w : Widget) : Widget :=
    match w with
    | Spacer s => Spacer (set_width width s)
    | _ => w
    end.

Definition width_per_spacer (left_over_space : F) (horz_spacer_count : nat)
      (padding : F) : F :=
    fmax f0 (left_over_space /! f_of_Z (Z.of_nat horz_spacer_count) -! padding).

Definition set_horz_spacer_widths (beg end_ : nat) (left_over_space padding : F)
      (ws : list Widget) : list Widget :=
    let horz_spacer_count := horz_spacer_count beg end_ ws in
    if Nat.eqb horz_spacer_count 0 then ws
    else
      let width_per_spacer := width_per_spacer left_over_space horz_spacer_count padding in
      imap (fun i w => if Nat.leb beg i && Nat.ltb i end_
                       then spacer_set_width width_per_spacer w else w) ws.

  (** The state of the loop of lines 475-502.  [uhs_lines] is not in the
      source: it records each call of [set_horz_spacer_widths], as the first
      position of the line, the position after its last, and the value of [x]
      at the call. *)
Record uhs_state : Type := mkUhs {
    uhs_x : F;
    uhs_pad_fix : F;
    uhs_line_begin : nat;
    uhs_widgets : list Widget;
    uhs_lines : list (nat * nat * F);
  }.

Definition uhs_step (k_horz_space padding : F) (st : uhs_state) (itr : nat)
      : uhs_state :=
    match uhs_widgets st !! itr with
    | None => st
    | Some widget_ptr =>
        if is_horizontal_spacer widget_ptr then
          mkUhs (uhs_x st +! uhs_pad_fix st) f0 (uhs_line_begin st)
                (uhs_widgets st) (uhs_lines st)
        else
          let horz_step := get_widget_advance padding widget_ptr in
          if (k_horz_space <! uhs_x st +! horz_step) || is_line_seperator widget_ptr
          then
            mkUhs (f0 +! horz_step) f0 itr
                  (set_horz_spacer_widths (uhs_line_begin st) itr
                     (fmax (k_horz_space -! uhs_x st) f0) padding (uhs_widgets st))
                  (uhs_lines st ++ [(uhs_line_begin st, itr, uhs_x st)])
          else
            mkUhs (uhs_x st +! horz_step) (fopp padding) (uhs_line_begin st)
                  (uhs_widgets st) (uhs_lines st)
    end.

Definition uhs_loop (k_horz_space padding : F) (ws : list Widget) : uhs_state :=
    fold_left (uhs_step k_horz_space padding) (seq 0 (length ws))
              (mkUhs f0 f0 0 ws []).

  (** Lines 504-507: the last line. *)
Definition uhs_finish (k_horz_space padding : F) (st : uhs_state) : uhs_state :=
    let end_ := length (uhs_widgets st) in
    if Nat.eqb (uhs_line_begin st) end_ then st
    else mkUhs (uhs_x st) (uhs_pad_fix st) end_
               (set_horz_spacer_widths (uhs_line_begin st) end_
                  (fmax (k_horz_space -! uhs_x st) f0) padding (uhs_widgets st))
               (uhs_lines st ++ [(uhs_line_begin st, end_, uhs_x st)]).

Definition uhs_run (fr : Frame) : uhs_state :=
    let k_horz_space := width_available_for_widgets (m_border fr) in
    uhs_finish k_horz_space (m_padding fr)
               (uhs_loop k_horz_space (m_padding fr) (m_widgets fr)).

Definition update_horizontal_spacers (fr : Frame) : Frame :=
    with_widgets (uhs_widgets (uhs_run fr)) fr.

  (** ** The positioning loop of [Frame::finalize_widgets()] (lines 280-314) *)

  (** The locals of the loop.  [pl_line] is not in the source: it counts the
      calls of [advance_locals_to_next_line]. *)
Record place_state : Type := mkPlace {
    pl_x : F;
    pl_y : F;
    pl_line_height : F;
    pl_pad_fix : F;
    pl_line : nat;
  }.

Definition advance_locals_to_next_line (start_x padding : F) (st : place_state)
      : place_state :=
    mkPlace start_x (pl_y st +! (pl_line_height st +! padding)) f0 f0
            (S (pl_line st)).

  (** One turn of the loop: the widget as the turn leaves it, and the
      locals. *)
Definition place_step (start_x k_right_limit padding : F) (st : place_state)
      (widget_ptr : Widget) : Widget * place_state :=
    if is_line_seperator widget_ptr then
      (widget_ptr, advance_locals_to_next_line start_x padding st)
    else
      let st1 :=
        if k_right_limit <! pl_x st +! get_widget_advance padding widget_ptr
        then advance_locals_to_next_line start_x padding st else st in
      let x := if is_horizontal_spacer widget_ptr
               then pl_x st1 +! pl_pad_fix st1 else pl_x st1 in
      let placed := widget_set_location x (pl_y st1) widget_ptr in
      (placed,
       mkPlace (x +! get_widget_advance padding placed) (pl_y st1)
               (fmax (widget_height placed) (pl_line_height st1))
               (fopp padding) (pl_line st1)).

Fixpoint place_loop (start_x k_right_limit padding : F) (st : place_state)
      (ws : list Widget) : list Widget * place_state :=
    match ws with
    | [] => ([], st)
    | widget_ptr :: rest =>
        let '(placed, st1) := place_step start_x k_right_limit padding st widget_ptr in
        let '(rest', st2) := place_loop start_x k_right_limit padding st1 rest in
        (placed :: rest', st2)
    end.

Definition place_start (fr : Frame) : place_state :=
    mkPlace (vx (widget_start (m_border fr)) +! m_padding fr)
            (vy (widget_start (m_border fr)) +! m_padding fr) f0 f0 0.

Definition place_run (fr : Frame) : list Widget * place_state :=
    let start_x := vx (widget_start (m_border fr)) +! m_padding fr in
    let k_right_limit := vx (location fr) +! width fr in
    place_loop start_x k_right_limit (m_padding fr) (place_start fr) (m_widgets fr).

Definition place_widgets (fr : Frame) : Frame :=
    with_widgets (fst (place_run fr)) fr.

  (** ** The private [Frame::finalize_widgets()] (lines 270-337) *)

  (** The recursion into nested frames follows the widgets as the passes
      have left them, so it is bounded by [fuel]; [None] is a tree deeper
      than [fuel].  The focus handler holds no geometry and is not part of
      the model; [check_invarients] only asserts. *)
Fixpoint finalize_widgets (fuel : nat) (fr : Frame) : option Frame :=
    match fuel with
    | O => None
    | S fuel' =>
        let fr1 := issue_auto_resize fr in
        let fr2 := with_border (update_geometry (m_border fr1)) fr1 in
        let fr3 := update_horizontal_spacers fr2 in
        let fr4 := place_widgets fr3 in
        match
          mapM (fun widget_ptr =>
                  match widget_ptr with
                  | SubFrame frame_ptr =>
                      match finalize_widgets fuel' frame_ptr with
                      | Some done => Some (SubFrame done)
                      | None => None
                      end
                  | _ => Some widget_ptr
                  end) (m_widgets fr4)
        with
        | Some ws => Some (with_widgets ws fr4)
        | None => None
        end
    end.

  (** The nesting depth of a frame. *)
Fixpoint depth (fr : Frame) : nat :=
  let '(mkFrame _ _ widgets) := fr in
  S (list_max
       (map (fun widget =>
               match widget with
               | SubFrame child => depth child
               | _ => 0
               end) widgets)).
End Layout.
Arguments Widget : clear implicits.
Arguments Frame : clear implicits.
Arguments LeafWidget : clear implicits.
Arguments HorizontalSpacer : clear implicits.
Arguments fit_state : clear implicits.
Arguments place_state : clear implicits.
Arguments uhs_state : clear implicits.
End Layout.

(* ===================================================================== *)
(** * Sample objects for the examples *)
(* ===================================================================== *)

(** A border for the examples: one implementation of [FrameBorderOps], with
    a margin on every side and a title bar above the widgets.  It is not the
    [FrameBorder] of the library, which is not among the sources. *)
Module SampleBorder.
Section SampleBorder.
Context {F : Type} `{FloatOps F}.

Record t : Type := mk {
    sb_location : VectorF F;
    sb_width : F;
    sb_height : F;
    sb_margin : F;
    sb_title_height : F;
    sb_title_width : F;
  }.

#[global] Instance ops : FrameBorderOps F t := {|
    border_location := sb_location;
    border_width := sb_width;
    border_height := sb_height;
    border_set_location x y b :=
      mk (mkVectorF x y) (sb_width b) (sb_height b) (sb_margin b)
         (sb_title_height b) (sb_title_width b);
    border_set_size w h b :=
      mk (sb_location b) w h (sb_margin b) (sb_title_height b) (sb_title_width b);
    update_geometry b := b;
    widget_start b :=
      mkVectorF (vx (sb_location b) +! sb_margin b)
                (vy (sb_location b) +! (sb_margin b +! sb_title_height b));
    width_available_for_widgets b := sb_width b -! sb_margin b *! f2;
    title_width_accommodation := sb_title_width;
  |}.
End SampleBorder.
Arguments t : clear implicits.
End SampleBorder.

(* ===================================================================== *)
(** * TextArea.cpp *)
(* ===================================================================== *)

(** [ksg::Text] is declared and defined outside the sources.  These are the
    member functions [TextArea.cpp] calls on [m_draw_text], over an abstract
    text state [T]; [U] is [Text::UString]. *)
Class TextOps (F U T : Type) : Type := {
  text_width : T -> F;
  text_height : T -> F;
  text_location : T -> VectorF F;
  text_set_location : VectorF F -> T -> T;
  text_set_string : U -> T -> T;
  text_set_character_size : Z -> T -> T;
  set_limiting_width : F -> T -> T;
  relieve_width_limit : T -> T;
  set_limiting_height : F -> T -> T;
  relieve_height_limit : T -> T;
}.

(** [sf::FloatRect]. *)
Module FloatRect.
Record t (F : Type) : Type := mk { left : F; top : F; width : F; height : F }.
Arguments mk {F} _ _ _ _.
Arguments left {F} _.
Arguments top {F} _.
Arguments width {F} _.
Arguments height {F} _.
End FloatRect.

Module TextArea.
Section TextArea.
Context {F : Type} `{FloatOps F}.
Context {U T : Type} `{TextOps F U T}.
  (** [TextArea::k_unassigned_size], a constant of [TextArea.hpp]. *)
Variable k_unassigned_size : F.

Record t : Type := mk {
    m_bounds : FloatRect.t F;
    m_draw_text : T;
  }.

Definition with_text (text : T) (ta : t) : t :=
    {| m_bounds := m_bounds ta; m_draw_text := text |}.
Definition with_bounds (bounds : FloatRect.t F) (ta : t) : t :=
    {| m_bounds := bounds; m_draw_text := m_draw_text ta |}.

  (** [std::equal_to<float>()(x, k_unassigned_size)]. *)
Definition is_unassigned (x : F) : bool := x ==! k_unassigned_size.

Definition invalid_size_msg (caller name : string) : string :=
    (caller ++ ": " ++ name
     ++ " must be a non-negative real number or the k_unassigned_size sentinel.")%string.

Definition verify_valid_size (x : F) (caller name : string) : M t F :=
    if is_unassigned x then ret x
    else if x <! f0 then throw (invalid_argument (invalid_size_msg caller name))
    else ret x.

  (** The location [recompute_geometry] computes for the text. *)
Definition text_loc (ta : t) : VectorF F :=
    let bounds := m_bounds ta in
    mkVectorF
      (if is_unassigned (FloatRect.width bounds) then FloatRect.left bounds
       else FloatRect.left bounds
            +! (FloatRect.width bounds -! text_width (m_draw_text ta)) /! f2)
      (if is_unassigned (FloatRect.height bounds) then FloatRect.top bounds
       else FloatRect.top bounds
            +! (FloatRect.height bounds -! text_height (m_draw_text ta)) /! f2).

Definition recompute_geometry (ta : t) : t :=
    with_text (text_set_location (text_loc ta) (m_draw_text ta)) ta.

Definition set_location (x y : F) (ta : t) : t :=
    recompute_geometry
      (with_bounds (FloatRect.mk x y (FloatRect.width (m_bounds ta))
                                 (FloatRect.height (m_bounds ta))) ta).

Definition location (ta : t) : VectorF F := text_location (m_draw_text ta).

Definition width (ta : t) : F :=
    if is_unassigned (FloatRect.width (m_bounds ta))
    then text_width (m_draw_text ta)
    else FloatRect.width (m_bounds ta).

Definition height (ta : t) : F :=
    if is_unassigned (FloatRect.height (m_bounds ta))
    then text_height (m_draw_text ta)
    else FloatRect.height (m_bounds ta).

Definition issue_auto_resize (ta : t) : t := recompute_geometry ta.

Definition set_text (str : U) (ta : t) : t :=
    recompute_geometry (with_text (text_set_string str (m_draw_text ta)) ta).
Definition set_string (str : U) (ta : t) : t :=
    recompute_geometry (with_text (text_set_string str (m_draw_text ta)) ta).
Definition set_character_size (size_ : Z) (ta : t) : t :=
    recompute_geometry
      (with_text (text_set_character_size size_ (m_draw_text ta)) ta).

Definition set_max_width_no_update (w : F) : M t unit :=
    _ <- verify_valid_size w "TextArea::set_max_width_no_update" "width" ;;
    if is_unassigned w
    then modify (fun ta => with_text (relieve_width_limit (m_draw_text ta)) ta)
    else modify (fun ta => with_text (set_limiting_width w (m_draw_text ta)) ta).

Definition set_max_height_no_update (h : F) : M t unit :=
    _ <- verify_valid_size h "TextArea::set_max_height_no_update" "height" ;;
    if is_unassigned h
    then modify (fun ta => with_text (relieve_height_limit (m_draw_text ta)) ta)
    else modify (fun ta => with_text (set_limiting_height h (m_draw_text ta)) ta).

Definition set_max_width (w : F) : M t unit :=
    set_max_width_no_update w ;; modify recompute_geometry.
Definition set_max_height (h : F) : M t unit :=
    set_max_height_no_update h ;; modify recompute_geometry.

Definition set_size (w h : F) : M t unit :=
    w' <- verify_valid_size w "TextArea::set_size" "width" ;;
    modify (fun ta =>
              with_bounds (FloatRect.mk (FloatRect.left (m_bounds ta)) (FloatRect.top (m_bounds ta)) w'
                                  (FloatRect.height (m_bounds ta))) ta) ;;
    set_max_width_no_update w ;;
    h' <- verify_valid_size h "TextArea::set_size" "height" ;;
    modify (fun ta =>
              with_bounds (FloatRect.mk (FloatRect.left (m_bounds ta)) (FloatRect.top (m_bounds ta))
                                  (FloatRect.width (m_bounds ta)) h') ta) ;;
    set_max_height_no_update h ;;
    modify recompute_geometry.

Definition set_width (w : F) : M t unit :=
    ta <- get ;; set_size w (FloatRect.height (m_bounds ta)).
Definition set_height (h : F) : M t unit :=
    ta <- get ;; set_size (FloatRect.width (m_bounds ta)) h.

  (** The calls of the public interface that touch the geometry, and a
      sequence of them run on a text area; a call that throws leaves the
      object as it is at the [throw]. *)
Inductive call : Type :=
  | call_set_location (x y : F)
  | call_set_size (w h : F)
  | call_set_width (w : F)
  | call_set_height (h : F)
  | call_set_max_width (w : F)
  | call_set_max_height (h : F)
  | call_set_text (str : U)
  | call_set_character_size (size_ : Z)
  | call_issue_auto_resize.

Definition run_call (ta : t) (c : call) : t :=
    match c with
    | call_set_location x y => set_location x y ta
    | call_set_size w h => snd (set_size w h ta)
    | call_set_width w => snd (set_width w ta)
    | call_set_height h => snd (set_height h ta)
    | call_set_max_width w => snd (set_max_width w ta)
    | call_set_max_height h => snd (set_max_height h ta)
    | call_set_text str => set_text str ta
    | call_set_character_size size_ => set_character_size size_ ta
    | call_issue_auto_resize => issue_auto_resize ta
    end.

Definition run (calls : list call) (ta : t) : t := fold_left run_call calls ta.
End TextArea.
Arguments t : clear implicits.
Arguments call : clear implicits.
End TextArea.

(* ===================================================================== *)
(** * Draggable.cpp *)
(* ===================================================================== *)

(** C++ [int]: 32 bits, two's complement.  The results of [+] and [-] are
    reduced to the range; the sources never rely on it, and overflow is
    undefined in C++, so the theorems take their operands where no
    reduction happens. *)
Definition int_wrap (z : Z) : Z := ((z + 2 ^ 31) mod 2 ^ 32 - 2 ^ 31)%Z.
Definition int_add (a b : Z) : Z := int_wrap (a + b).
Definition int_sub (a b : Z) : Z := int_wrap (a - b).
Definition in_int (z : Z) : Prop := (- 2 ^ 31 <= z < 2 ^ 31)%Z.

(** [std::round(v)]: the nearest integer, halves away from zero; [None]
    for a value that is not a number. *)
Class RoundOps (F : Type) : Type := { round : F -> option Z }.

#[export] Instance exactQ_round : RoundOps Q := {|
  round q :=
    Some (if Qle_bool 0 q then Qfloor (q + (1 # 2)) else Qceiling (q - (1 # 2)))
|}.

(** On binary32 a finite number is [m * 2 ^ e]. *)
#[export] Instance binary32_round : RoundOps spec_float := {|
  round v :=
    match v with
    | S754_zero _ => Some 0%Z
    | S754_finite s m e =>
        let magnitude :=
          if (0 <=? e)%Z then (Z.pos m * 2 ^ e)%Z
          else ((2 * Z.pos m + 2 ^ (- e)) / (2 * 2 ^ (- e)))%Z in
        Some (if s then (- magnitude)%Z else magnitude)
    | _ => None
    end
|}.

(** [int(r)] for the result [r] of [std::round].  The conversion of a value
    outside the range of [int] is undefined in C++; the conversion
    instruction of x86 gives [INT_MIN] for it, and so does this. *)
Definition int_of_rounded (r : option Z) : Z :=
  match r with
  | Some z => if ((- 2 ^ 31 <=? z) && (z <? 2 ^ 31))%Z then z else (- 2 ^ 31)%Z
  | None => (- 2 ^ 31)%Z
  end.

(** [sf::IntRect] and its default constructor. *)
Module IntRect.
Record t : Type := mk { left : Z; top : Z; width : Z; height : Z }.
Definition default : t := mk 0 0 0 0.
End IntRect.

Module Draggable.
Section Draggable.
Context {F : Type} `{FloatOps F} `{RoundOps F}.

  (** The members [Draggable.cpp] uses.  [update_drag_position] is a pure
      virtual function; [reported] lists the positions it was called with,
      the latest first. *)
Record t : Type := mk {
    m_watch_drag_events : bool;
    m_dragged : bool;
    m_drag_offset : Z * Z;
    m_position_contraints : IntRect.t;
    reported : list (Z * Z);
  }.

Definition update_drag_position (x y : Z) (d : t) : t :=
    {| m_watch_drag_events := m_watch_drag_events d;
       m_dragged := m_dragged d;
       m_drag_offset := m_drag_offset d;
       m_position_contraints := m_position_contraints d;
       reported := (x, y) :: reported d |}.

Definition has_position_contraints (d : t) : bool :=
    negb (IntRect.width (m_position_contraints d) =? 0)%Z
    && negb (IntRect.height (m_position_contraints d) =? 0)%Z.

Definition is_in_rect (x y : Z) (drect : DrawRectangle.t F) : bool :=
    (DrawRectangle.x drect <=! f_of_Z x)
    && (f_of_Z x <=! DrawRectangle.x drect +! DrawRectangle.width drect)
    && (DrawRectangle.y drect <=! f_of_Z y)
    && (f_of_Z y <=! DrawRectangle.y drect +! DrawRectangle.height drect).

Definition mouse_move (x y : Z) (d : t) : t :=
    if negb (m_dragged d) then d
    else
      let x := int_sub x (fst (m_drag_offset d)) in
      let y := int_sub y (snd (m_drag_offset d)) in
      if has_position_contraints d then
        let contr := m_position_contraints d in
        let x := Z.min x (int_add (IntRect.left contr) (IntRect.width contr)) in
        let x := Z.max x (IntRect.left contr) in
        let y := Z.min y (int_add (IntRect.top contr) (IntRect.height contr)) in
        let y := Z.max y (IntRect.top contr) in
        update_drag_position x y d
      else update_drag_position x y d.

Definition mouse_click (x y : Z) (drect : DrawRectangle.t F) (d : t) : bool * t :=
    if negb (m_watch_drag_events d) then (false, d)
    else if is_in_rect x y drect then
      (true,
       {| m_watch_drag_events := m_watch_drag_events d;
          m_dragged := true;
          m_drag_offset :=
            (int_of_rounded (round (f_of_Z x -! DrawRectangle.x drect)),
             int_of_rounded (round (f_of_Z y -! DrawRectangle.y drect)));
          m_position_contraints := m_position_contraints d;
          reported := reported d |})
    else (false, d).

Definition k_zero_area_msg : string :=
    ("Draggable::set_position_contraints: Position constraint area may not have a zero sized area."
     ++ String (ascii_of_nat 10)
          "Consider disabling this drag feature instead (if possible).")%string.

Definition with_contraints (area : IntRect.t) (d : t) : t :=
    {| m_watch_drag_events := m_watch_drag_events d;
       m_dragged := m_dragged d;
       m_drag_offset := m_drag_offset d;
       m_position_contraints := area;
       reported := reported d |}.

Definition set_drag_contraints (area : IntRect.t) : M t unit :=
    if (IntRect.width area =? 0)%Z || (IntRect.height area =? 0)%Z
    then throw (invalid_argument k_zero_area_msg)
    else modify (with_contraints area).

Definition remove_drag_contraints (d : t) : t :=
    with_contraints IntRect.default d.

  (** The calls above, and a sequence of them run on a draggable; a call
      that throws leaves the object as it is at the [throw]. *)
Inductive call : Type :=
  | call_mouse_move (x y : Z)
  | call_mouse_click (x y : Z) (drect : DrawRectangle.t F)
  | call_set_drag_contraints (area : IntRect.t)
  | call_remove_drag_contraints.

Definition run_call (d : t) (c : call) : t :=
    match c with
    | call_mouse_move x y => mouse_move x y d
    | call_mouse_click x y drect => snd (mouse_click x y drect d)
    | call_set_drag_contraints area => snd (set_drag_contraints area d)
    | call_remove_drag_contraints => remove_drag_contraints d
    end.

Definition run (calls : list call) (d : t) : t := fold_left run_call calls d.
End Draggable.
Arguments call : clear implicits.
End Draggable.

(* ===================================================================== *)
(** * Facts about the two arithmetics *)
(* ===================================================================== *)

Lemma b32_f0 : (f0 : spec_float) = S754_zero false.
Proof. reflexivity. Qed.

(** In binary32 every value but NaN compares with zero as a number. *)
Lemma b32_ordered0 (x : spec_float) : x <> S754_nan -> ordered0 x.
Proof.
  unfold ordered0. rewrite b32_f0. intros Hnan.
  destruct x as [s | s | | s m e]; try destruct s; try reflexivity.
  now elim Hnan.
Qed.

(** NaN fails both comparisons. *)
Lemma b32_nan_unordered : ~ ordered0 S754_nan.
Proof. unfold ordered0. cbn. discriminate. Qed.

Lemma Qltb_lt (a b : Q) : Qltb a b = true <-> (a < b)%Q.
Proof.
  unfold Qltb. rewrite Qlt_alt. destruct (a ?= b)%Q; split; intros E; congruence.
Qed.

Lemma Qltb_ge (a b : Q) : Qltb a b = false <-> (b <= a)%Q.
Proof.
  unfold Qltb. rewrite Qle_alt, <- Qcompare_antisym.
  destruct (b ?= a)%Q; cbn; split; intros E;
    first [reflexivity | discriminate | now elim E].
Qed.

Lemma exactQ_ordered0 (x : Q) : ordered0 x.
Proof.
  unfold ordered0. cbn.
  destruct (Qltb (inject_Z 0) x) eqn:E; cbn.
  - apply Qltb_lt in E. apply not_true_is_false. rewrite Qle_bool_iff. lra.
  - apply Qltb_ge in E. now apply Qle_bool_iff.
Qed.

(* ===================================================================== *)
(** * ProgressBar::set_fill_amount *)
(* ===================================================================== *)

Module ProgressBarFacts.
Import ProgressBar.
Section ProgressBarFacts.
Context {F : Type} `{FloatOps F}.

Lemma set_size_same_outer (pb : ProgressBar.t F) :
    m_outer (set_size (width pb) (height pb) pb) = m_outer pb.
Proof. destruct pb as [[ox oy ow oh] fr bk fl pd]. reflexivity. Qed.

  (** A fill amount below [0.f] or above [1.f] makes
      [ProgressBar::set_fill_amount] throw [std::out_of_range] and leaves the
      progress bar, its stored fill amount included, as it was.  Any other
      argument is stored, and the inner front rectangle is resized to the
      padded interior, its width scaled by the new fill amount, while the
      outer rectangle keeps its size. *)
Lemma set_fill_amount_checks_range (v : F) (pb : ProgressBar.t F) :
    ((v <! f0) || (f1 <! v) = true ->
       set_fill_amount v pb = (inl (out_of_range FILL_OUT_OF_RANGE_MSG), pb))
    /\
    ((v <! f0) || (f1 <! v) = false ->
       exists pb',
         set_fill_amount v pb = (inr tt, pb')
         /\ fill_amount pb' = v
         /\ m_outer pb' = m_outer pb
         /\ m_padding pb' = m_padding pb
         /\ DrawRectangle.width (m_inner_front pb')
            = (width pb -! active_padding pb *! f2) *! v
         /\ DrawRectangle.height (m_inner_front pb')
            = height pb -! active_padding pb *! f2).
Proof.
    unfold set_fill_amount. split; intros Hrange; rewrite Hrange.
    - reflexivity.
    - eexists. split; [reflexivity |].
      destruct pb as [[ox oy ow oh] fr bk fl pd]. cbn. repeat split.
Qed.
End ProgressBarFacts.

Definition sample_bar : ProgressBar.t spec_float :=
    {| m_outer := DrawRectangle.mk (b32 0 0) (b32 0 0) (b32 100 0) (b32 32 0);
       m_inner_front := DrawRectangle.mk (b32 2 0) (b32 2 0) (b32 24 0) (b32 28 0);
       m_inner_back := DrawRectangle.mk (b32 2 0) (b32 2 0) (b32 96 0) (b32 28 0);
       m_fill_amount := b32 1 (-2);
       m_padding := b32 2 0 |}.

  (** The scenario of the specification: 1.5 (3 * 2^-1) is rejected, the
      fill amount stays 0.25; and 0.5 is stored. *)
Lemma set_fill_amount_checks_range_example :
    set_fill_amount (b32 3 (-1)) sample_bar
      = (inl (out_of_range FILL_OUT_OF_RANGE_MSG), sample_bar)
    /\ exists pb', set_fill_amount (b32 1 (-1)) sample_bar = (inr tt, pb')
                   /\ fill_amount pb' = b32 1 (-1).
Proof.
    split.
    - apply (proj1 (set_fill_amount_checks_range (b32 3 (-1)) sample_bar)).
      vm_compute. reflexivity.
    - destruct (proj2 (set_fill_amount_checks_range (b32 1 (-1)) sample_bar))
        as (pb' & Hrun & Hfill & _).
      + vm_compute. reflexivity.
      + exists pb'. split; assumption.
Qed.

  (** C8.  A NaN is not in the range [[0 1]] the message of
      [set_fill_amount] names, but it is neither below [0.f] nor above
      [1.f]: on a bar that holds the fill amount 0.25 the call returns
      without throwing, the NaN is stored in place of 0.25, and the bar
      proper is resized to a width that is a NaN. *)
Lemma set_fill_amount_nan :
    fill_amount sample_bar = b32 1 (-2)
    /\ (S754_nan <! f0) || (f1 <! S754_nan) = false
    /\ exists pb',
         set_fill_amount S754_nan sample_bar = (inr tt, pb')
         /\ fill_amount pb' = S754_nan
         /\ DrawRectangle.width (m_inner_front pb') = S754_nan
         /\ DrawRectangle.width (m_inner_front sample_bar) = b32 24 0.
Proof.
    split; [reflexivity |]. split; [reflexivity |].
    eexists. split; [reflexivity |]. repeat split.
Qed.
End ProgressBarFacts.

(* ===================================================================== *)
(** * Button::set_size *)
(* ===================================================================== *)

Module ButtonFacts.
Import Button.
Section ButtonFacts.
Context {F : Type} `{FloatOps F}.

  (** For a width and a height that are numbers, [Button::set_size]
      throws [std::invalid_argument] unless both are above zero, zero
      included among the rejected values, and a rejected call leaves the
      button as it was; a pair of positive dimensions is accepted and becomes
      the size of the outer rectangle. *)
Lemma set_size_rejects_non_positive (w h : F) (b : Button.t F) :
    ordered0 w -> ordered0 h ->
    ((f0 <! w) && (f0 <! h) = false ->
       set_size w h b = (inl (invalid_argument k_set_size_msg), b))
    /\
    ((f0 <! w) && (f0 <! h) = true ->
       exists b', set_size w h b = (inr tt, b')
                  /\ width b' = w /\ height b' = h).
Proof.
    unfold ordered0, set_size. intros Hw Hh. rewrite Hw, Hh.
    split; intros Hpos.
    - rewrite <- negb_andb, Hpos. reflexivity.
    - rewrite <- negb_andb, Hpos. cbn. eexists. split; [reflexivity |].
      split; reflexivity.
Qed.
End ButtonFacts.

Definition sample_button : Button.t spec_float :=
    {| m_outer := DrawRectangle.mk (b32 0 0) (b32 0 0) (b32 32 0) (b32 32 0);
       m_inner := DrawRectangle.mk (b32 2 0) (b32 2 0) (b32 28 0) (b32 28 0);
       m_padding := b32 2 0;
       m_is_highlighted := false |}.

  (** A zero width is rejected and the button keeps its 32 by 32 size. *)
Lemma set_size_rejects_non_positive_example :
    set_size (b32 0 0) (b32 5 0) sample_button
      = (inl (invalid_argument k_set_size_msg), sample_button).
Proof.
    apply (proj1 (set_size_rejects_non_positive (b32 0 0) (b32 5 0) sample_button
                    (b32_ordered0 (b32 0 0) ltac:(vm_compute; discriminate))
                    (b32_ordered0 (b32 5 0) ltac:(vm_compute; discriminate)))).
    vm_compute. reflexivity.
Qed.

  (** C10.  A NaN is not a positive real number, which the message of
      [Button::set_size] asks for, but the test [width_ <= 0.f] is false for
      it: on a button 32 by 32 the call with the width NaN and the height 5
      returns without throwing, the outer rectangle gets the width NaN and
      the height 5, and the inner one a width that is a NaN. *)
Lemma set_size_nan_accepted :
    ((S754_nan : spec_float) <=! f0) = false
    /\ Button.width sample_button = b32 32 0
    /\ exists b',
         set_size S754_nan (b32 5 0) sample_button = (inr tt, b')
         /\ Button.width b' = S754_nan
         /\ Button.height b' = b32 5 0
         /\ DrawRectangle.width (m_inner b') = S754_nan.
Proof.
    split; [reflexivity |]. split; [reflexivity |].
    eexists. split; [vm_compute; reflexivity |]. repeat split.
Qed.
End ButtonFacts.

(* ===================================================================== *)
(** * WidgetAdder::add_horizontal_spacer *)
(* ===================================================================== *)

Module AdderFacts.
Import Adder.
Section AdderFacts.
Context {HorizontalSpacer StyleMap : Type}.
Variable L : layout.
Variable new_spacer : HorizontalSpacer.
Variable grow : nat -> nat.
Hypothesis grow_grows : forall c, c < grow c.

Abbreviation adder := (Adder.t HorizontalSpacer StyleMap).
Abbreviation add_horizontal_spacer := (Adder.add_horizontal_spacer L new_spacer grow).
Abbreviation run := (Adder.run L new_spacer grow).

  (** The object [p] points at lies at no slot of a storage block, the slot
      one past the end of the block included.  The slots that hold a spacer
      are other objects, so only the one past the end of a full block can
      fail this for a widget. *)
Definition apart (p : ptr) : Prop :=
    forall b i, address L p <> address L (spacer_at b i).

  (** No entry of the list other than a spacer entry lies at a slot. *)
Definition others_apart (ws : list ptr) : Prop :=
    Forall (fun p => is_spacer_ptr p = false -> apart p) ws.

  (** The widgets a chain of calls adds lie at no slot. *)
Definition calls_apart (calls : list call) : Prop :=
    Forall (fun c => match c with
                     | call_add widget => apart (widget_at widget)
                     | _ => True
                     end) calls.

  (** A spacer entry moved to block [b], any other entry as it is. *)
Definition repoint (b : nat) (p : ptr) : ptr :=
    match p with
    | spacer_at _ i => spacer_at b i
    | q => q
    end.

Lemma repoint_other b p : is_spacer_ptr p = false -> repoint b p = p.
Proof. now destruct p. Qed.

Lemma is_spacer_repoint b p : is_spacer_ptr (repoint b p) = is_spacer_ptr p.
Proof. now destruct p. Qed.

Definition spacers_of (ws : list ptr) : list ptr :=
    filter (fun p => is_spacer_ptr p = true) ws.

Lemma spacers_of_cons p ws :
    spacers_of (p :: ws)
    = if is_spacer_ptr p then p :: spacers_of ws else spacers_of ws.
Proof.
    unfold spacers_of. rewrite filter_cons.
    destruct (is_spacer_ptr p); case_decide; congruence.
Qed.

Lemma spacers_of_app ws1 ws2 :
    spacers_of (ws1 ++ ws2) = spacers_of ws1 ++ spacers_of ws2.
Proof. apply filter_app. Qed.

Lemma spacers_of_repoint b ws :
    spacers_of (map (repoint b) ws) = map (repoint b) (spacers_of ws).
Proof.
    induction ws as [| p ws IH]; [reflexivity |].
    cbn [map]. rewrite !spacers_of_cons, is_spacer_repoint, IH.
    now destruct (is_spacer_ptr p).
Qed.

  (** The revalidation loop, run on a list whose spacer entries are the
      elements [k], [k+1], ... of the old block in order, repoints exactly
      these entries and stops with [new_itr] past the last of them. *)
Lemma revalidate_in_order (ob nb : nat) (ws : list ptr) :
    others_apart ws ->
    forall k n,
      spacers_of ws = map (spacer_at ob) (seq k n) ->
      revalidate L ws (spacer_at nb k) (spacer_at ob k)
      = (map (repoint nb) ws, spacer_at nb (k + n)).
Proof.
    induction 1 as [| p ws Hp_apart _ IH]; intros k n Hsp.
    - destruct n; [| discriminate]. cbn. now rewrite Nat.add_0_r.
    - rewrite spacers_of_cons in Hsp. cbn [revalidate map].
      destruct (is_spacer_ptr p) eqn:Hp.
      + destruct n as [| n]; [discriminate |]. cbn [seq map] in Hsp.
        injection Hsp as -> Hsp.
        unfold ptr_eqb. rewrite Z.eqb_refl. cbn [ptr_incr].
        rewrite (IH (S k) n Hsp). cbn [repoint].
        now rewrite Nat.add_succ_r.
      + unfold ptr_eqb.
        destruct (Z.eqb_spec (address L p) (address L (spacer_at ob k)))
          as [Hsame | _]; [now apply Hp_apart in Hsame |].
        rewrite (IH k n Hsp). now rewrite repoint_other.
Qed.

Lemma others_apart_repoint (b : nat) (ws : list ptr) :
    others_apart ws -> others_apart (map (repoint b) ws).
Proof.
    unfold others_apart. rewrite Forall_map. intros Hws.
    eapply Forall_impl; [exact Hws |].
    intros p Hp Hkind. cbn in Hkind |- *. rewrite is_spacer_repoint in Hkind.
    rewrite repoint_other by exact Hkind. now apply Hp.
Qed.

Lemma others_apart_snoc (ws : list ptr) (p : ptr) :
    others_apart ws -> (is_spacer_ptr p = false -> apart p) ->
    others_apart (ws ++ [p]).
Proof.
    intros Hws Hp. apply Forall_app. split; [exact Hws |].
    constructor; [exact Hp | constructor].
Qed.

  (** Entries that already point into block [b] are not changed by
      repointing to [b]. *)
Lemma repoint_own_block (b : nat) (ws : list ptr) :
    forall k n,
      spacers_of ws = map (spacer_at b) (seq k n) -> map (repoint b) ws = ws.
Proof.
    induction ws as [| p ws IH]; intros k n Hord; [reflexivity |].
    rewrite spacers_of_cons in Hord. cbn [map].
    destruct (is_spacer_ptr p) eqn:Hp.
    - destruct n; [discriminate |]. cbn [seq map] in Hord.
      injection Hord as -> Hord.
      cbn [repoint]. now rewrite (IH _ _ Hord).
    - now rewrite repoint_other, (IH _ _ Hord).
Qed.

  (** The invariant of an adder: spacer entries in order, a storage that
      holds its elements, and no other entry at a slot of a storage block. *)
Definition well_formed (a : adder) : Prop :=
    spacers_in_order a
    /\ Vector.size (m_horz_spacers a) <= Vector.capacity (m_horz_spacers a)
    /\ others_apart (m_widgets a).

Lemma spacers_in_order_alt (a : adder) :
    spacers_in_order a <->
    spacers_of (m_widgets a)
    = map (spacer_at (Vector.block (m_horz_spacers a)))
          (seq 0 (Vector.size (m_horz_spacers a))).
Proof. reflexivity. Qed.

Lemma map_repoint_in_block b l :
    map (repoint b) (map (spacer_at b) l) = map (spacer_at b) l.
Proof. rewrite map_map. reflexivity. Qed.

  (** What one call of [add_horizontal_spacer] does to a well-formed adder. *)
Lemma add_horizontal_spacer_step (a : adder) (next : nat) :
    well_formed a ->
    let sp := m_horz_spacers a in
    let a' := fst (add_horizontal_spacer a next) in
    let sp' := m_horz_spacers a' in
    well_formed a'
    /\ Vector.data sp' = Vector.data sp ++ [new_spacer]
    /\ m_widgets a'
       = map (repoint (Vector.block sp')) (m_widgets a)
         ++ [spacer_at (Vector.block sp') (Vector.size sp)]
    /\ (Vector.size sp = Vector.capacity sp -> Vector.size sp <> 0 ->
        Vector.capacity sp' = 2 * Vector.capacity sp + 1
        /\ Vector.block sp' = next)
    /\ m_the_line_sep a' = m_the_line_sep a
    /\ m_styles a' = m_styles a
    /\ m_parent a' = m_parent a.
Proof.
    intros (Hord & Hcap & Hapart). apply spacers_in_order_alt in Hord.
    destruct a as [ws [blk cap dat] sep sty par].
    unfold Vector.size in *. cbn [m_widgets m_horz_spacers Vector.data
      Vector.capacity Vector.block] in *.
    assert (Hsnoc : forall b k, others_apart (map (repoint b) ws ++ [spacer_at b k])).
    { intros b k. apply others_apart_snoc; [now apply others_apart_repoint |].
      discriminate. }
    unfold Adder.add_horizontal_spacer, grow_and_revalidate, Vector.is_empty,
      Vector.size.
    cbn [m_widgets m_horz_spacers Vector.data Vector.capacity Vector.block].
    destruct (Nat.eqb_spec (length dat) cap) as [Hfull | Hroom];
      [destruct (Nat.eqb_spec (length dat) 0) as [Hnil | Hsome] |]; cbn [andb negb].
    - (* the first spacer: [push_back] allocates *)
      assert (cap = 0) by lia. subst cap.
      destruct dat; [| discriminate]. cbn [length seq map] in Hord.
      unfold Vector.push_back, Vector.size, Vector.back_address, Vector.size,
        Vector.address_of, with_widgets, well_formed, spacers_in_order,
        spacer_entries, Vector.size.
      cbn [m_widgets m_horz_spacers Vector.data Vector.capacity Vector.block
           m_the_line_sep m_styles m_parent fst length Nat.ltb Nat.leb app
           Nat.sub].
      pose proof (Hsnoc next 0) as Hsnoc0.
      rewrite (repoint_own_block next ws 0 0 Hord) in Hsnoc0 |- *.
      repeat split; try (intros; lia); try exact Hsnoc0.
      + change (filter _ ?l) with (spacers_of l).
        rewrite spacers_of_app, Hord. reflexivity.
      + pose proof (grow_grows 0). lia.
    - (* full and not empty: grow by hand, then [push_back] in place *)
      unfold Vector.reserve, Vector.empty. cbn [Vector.capacity Vector.block
        Vector.data Nat.leb Nat.add].
      unfold Vector.address_of. cbn [Vector.block].
      rewrite (revalidate_in_order blk next ws Hapart 0 (length dat) Hord).
      unfold with_widgets, Vector.push_back, Vector.size.
      cbn [m_widgets m_horz_spacers Vector.data Vector.capacity Vector.block
           m_the_line_sep m_styles m_parent fst].
      destruct (Nat.ltb_spec (length dat) (S (cap * 2))) as [_ | Hno]; [| lia].
      unfold Vector.back_address, Vector.address_of, Vector.size,
        well_formed, spacers_in_order, spacer_entries, Vector.size.
      cbn [m_widgets m_horz_spacers Vector.data Vector.capacity Vector.block
           m_the_line_sep m_styles m_parent fst].
      rewrite length_app. cbn [length].
      replace (length dat + 1 - 1) with (length dat) by lia.
      repeat split; try lia; try apply Hsnoc.
      change (filter _ ?l) with (spacers_of l).
      rewrite spacers_of_app, spacers_of_repoint, Hord.
      rewrite map_map. cbn [repoint].
      replace (length dat + 1) with (S (length dat)) by lia.
      rewrite seq_S, map_app. reflexivity.
    - (* room left: [push_back] in place, nothing moves *)
      unfold with_widgets, Vector.push_back, Vector.size.
      cbn [m_widgets m_horz_spacers Vector.data Vector.capacity Vector.block
           m_the_line_sep m_styles m_parent fst].
      destruct (Nat.ltb_spec (length dat) cap) as [_ | Hno]; [| lia].
      unfold Vector.back_address, Vector.address_of, Vector.size,
        well_formed, spacers_in_order, spacer_entries, Vector.size.
      cbn [m_widgets m_horz_spacers Vector.data Vector.capacity Vector.block
           m_the_line_sep m_styles m_parent fst].
      rewrite length_app. cbn [length].
      replace (length dat + 1 - 1) with (length dat) by lia.
      pose proof (Hsnoc blk (length dat)) as Hsnoc0.
      rewrite (repoint_own_block blk ws 0 (length dat) Hord) in Hsnoc0 |- *.
      repeat split; try lia; try exact Hsnoc0.
      change (filter _ ?l) with (spacers_of l).
      rewrite spacers_of_app, Hord.
      replace (length dat + 1) with (S (length dat)) by lia.
      rewrite seq_S, map_app. reflexivity.
Qed.

Lemma fresh_well_formed (a : adder) :
    m_widgets a = [] -> m_horz_spacers a = Vector.empty -> well_formed a.
Proof.
    intros Hw Hs. unfold well_formed, spacers_in_order, spacer_entries.
    rewrite Hw, Hs. cbn. split; [reflexivity | split; [lia | constructor]].
Qed.

Lemma add_well_formed (w : addr) (a : adder) :
    apart (widget_at w) -> well_formed a -> well_formed (add w a).
Proof.
    intros Hw (Hord & Hcap & Hapart). split; [| split; [exact Hcap |]].
    - apply spacers_in_order_alt in Hord. apply spacers_in_order_alt.
      cbn [add with_widgets m_widgets m_horz_spacers].
      rewrite spacers_of_app, Hord. cbn. apply app_nil_r.
    - cbn [add with_widgets m_widgets]. now apply others_apart_snoc.
Qed.

Lemma add_line_seperator_well_formed (a : adder) :
    apart (sep_ptr (m_the_line_sep a)) ->
    well_formed a -> well_formed (add_line_seperator a).
Proof.
    intros Hsep (Hord & Hcap & Hapart). split; [| split; [exact Hcap |]].
    - apply spacers_in_order_alt in Hord. apply spacers_in_order_alt.
      cbn [add_line_seperator with_widgets m_widgets m_horz_spacers].
      rewrite spacers_of_app, Hord.
      destruct (m_the_line_sep a); cbn; apply app_nil_r.
    - cbn [add_line_seperator with_widgets m_widgets].
      now apply others_apart_snoc.
Qed.

Lemma run_well_formed (calls : list call) :
    calls_apart calls ->
    forall (a : adder) (next : nat),
      apart (sep_ptr (m_the_line_sep a)) ->
      well_formed a -> well_formed (fst (run calls (a, next))).
Proof.
    induction 1 as [| c calls Hc _ IH]; intros a next Hsep Hwf; [exact Hwf |].
    cbn [Adder.run fold_left].
    destruct c as [w | |]; cbn [run_call fst snd].
    - apply IH; [exact Hsep | now apply add_well_formed].
    - destruct (add_horizontal_spacer a next) as [a1 next1] eqn:E.
      pose proof (add_horizontal_spacer_step a next Hwf) as Hstep.
      cbn zeta in Hstep. rewrite E in Hstep. cbn [fst] in Hstep.
      destruct Hstep as (Hwf1 & _ & _ & _ & Hsep1 & _).
      apply IH; [now rewrite Hsep1 | exact Hwf1].
    - apply IH; [exact Hsep | now apply add_line_seperator_well_formed].
Qed.

  (** Where no widget added and not the line separator lies at a slot of a
      storage block: after any chain of builder calls on a fresh adder, a
      call of [add_horizontal_spacer] (1) gives the storage capacity
      [2 * old + 1] in a new block when it finds it full and not empty,
      (2) leaves the Nth spacer entry of the widget list pointing at the Nth
      element of the storage, (3) keeps the stored spacers and adds a
      default-constructed one, (4) leaves every entry that is not a spacer
      where and what it was and every spacer entry a spacer entry, and
      (5) appends one entry, the address of the new spacer. *)
Lemma add_horizontal_spacer_revalidates
      (calls : list call) (a0 : adder) (next0 : nat) :
    calls_apart calls -> apart (sep_ptr (m_the_line_sep a0)) ->
    m_widgets a0 = [] -> m_horz_spacers a0 = Vector.empty ->
    let st := run calls (a0, next0) in
    let a := fst st in
    let a' := fst (add_horizontal_spacer a (snd st)) in
    let sp := m_horz_spacers a in
    let sp' := m_horz_spacers a' in
    (Vector.size sp = Vector.capacity sp -> Vector.size sp <> 0 ->
       Vector.capacity sp' = 2 * Vector.capacity sp + 1
       /\ Vector.block sp' = snd st)
    /\ (forall n,
          spacer_entries a' !! n
          = if Nat.ltb n (Vector.size sp') then Some (Vector.address_of sp' n)
            else None)
    /\ Vector.data sp' = Vector.data sp ++ [new_spacer]
    /\ (forall i p, m_widgets a !! i = Some p -> is_spacer_ptr p = false ->
                    m_widgets a' !! i = Some p)
    /\ (forall i p, m_widgets a !! i = Some p -> is_spacer_ptr p = true ->
                    exists q, m_widgets a' !! i = Some q
                              /\ is_spacer_ptr q = true)
    /\ length (m_widgets a') = S (length (m_widgets a))
    /\ m_widgets a' !! length (m_widgets a)
       = Some (Vector.address_of sp' (Vector.size sp))
    /\ Vector.data sp' !! Vector.size sp = Some new_spacer.
Proof.
    intros Hcalls Hsep Hw Hs st a a' sp sp'.
    assert (Hwf : well_formed a).
    { subst a st. apply run_well_formed; try assumption.
      now apply fresh_well_formed. }
    pose proof (add_horizontal_spacer_step a (snd st) Hwf) as Hstep.
    cbn zeta in Hstep. fold a' in Hstep. fold sp sp' in Hstep.
    destruct Hstep as ((Hord' & _) & Hdata & Hws & Hgrow & _).
    split; [exact Hgrow |].
    split.
    { intros n. fold sp' in Hord'. unfold spacers_in_order in Hord'.
      fold sp' in Hord'. rewrite Hord'.
      rewrite list_lookup_fmap.
      destruct (Nat.ltb_spec n (Vector.size sp')) as [Hlt | Hge].
      - rewrite lookup_seq_lt by exact Hlt. reflexivity.
      - rewrite lookup_seq_ge by exact Hge. reflexivity. }
    split; [exact Hdata |].
    split.
    { intros i p Hi Hp. rewrite Hws.
      rewrite lookup_app_l by (rewrite length_map; eapply lookup_lt_Some, Hi).
      rewrite list_lookup_fmap, Hi. cbn. now rewrite repoint_other. }
    split.
    { intros i p Hi Hp. rewrite Hws.
      rewrite lookup_app_l by (rewrite length_map; eapply lookup_lt_Some, Hi).
      rewrite list_lookup_fmap, Hi. cbn. eexists. split; [reflexivity |].
      now rewrite is_spacer_repoint. }
    split.
    { rewrite Hws, length_app, length_map. cbn. lia. }
    split.
    { rewrite Hws. rewrite lookup_app_r by (rewrite length_map; lia).
      rewrite length_map, Nat.sub_diag. reflexivity. }
    rewrite Hdata. unfold Vector.size.
    rewrite lookup_app_r by lia. now rewrite Nat.sub_diag.
Qed.
End AdderFacts.

  (** The growth policy of libstdc++: double, and at least one. *)
Definition grow_double (c : nat) : nat := Nat.max 1 (2 * c).

Definition sample_calls : list call :=
    [call_add 10; call_add_horizontal_spacer; call_add_line_seperator;
     call_add 11].

Definition sample_adder : Adder.t unit unit :=
    {| m_widgets := []; m_horz_spacers := Vector.empty;
       m_the_line_sep := Some 7; m_styles := None; m_parent := Some 7 |}.

  (** A layout for the examples: a spacer takes 24 bytes, storage block [b]
      starts at [1024 * (b + 1)], the widget named [a] lies at [a] and the
      line separator of the frame named [f] eight bytes into it. *)
Definition sample_layout : layout :=
    {| widget_address := Z.of_nat;
       line_sep_address f := (Z.of_nat f + 8)%Z;
       block_address b := (1024 * (Z.of_nat b + 1))%Z;
       sizeof_spacer := 24 |}.

Lemma small_address_apart (p : ptr) :
    (0 <= address sample_layout p < 1024)%Z -> apart sample_layout p.
Proof. intros Hp b i. cbn [address sample_layout block_address sizeof_spacer]. lia. Qed.

  (** The second call of [add_horizontal_spacer] finds the storage, block 1,
      full with its one element and moves it to block 2. *)
Lemma add_horizontal_spacer_revalidates_example :
    let st := Adder.run sample_layout tt grow_double sample_calls (sample_adder, 1) in
    let a' := fst (Adder.add_horizontal_spacer sample_layout tt grow_double
                     (fst st) (snd st)) in
    m_widgets (fst st)
    = [widget_at 10; spacer_at 1 0; line_sep_of 7; widget_at 11]
    /\ m_widgets a'
       = [widget_at 10; spacer_at 2 0; line_sep_of 7; widget_at 11; spacer_at 2 1]
    /\ Vector.capacity (m_horz_spacers a') = 3
    /\ Vector.data (m_horz_spacers a') = [tt; tt]
    /\ assert_new_itr_at_end sample_layout (fst st) (snd st) = true.
Proof. cbn zeta. repeat split; vm_compute; reflexivity. Qed.

  (** C1.  The widget at address 2072 lies one past the end of block 1 while
      that block holds one spacer and is full.  The chain
      [add_horizontal_spacer(); add(w); add_horizontal_spacer()] then ends
      with the entry of [w] repointed into the new block: the loop of lines
      105-110 finds [old_itr], one past the end after the spacer entry,
      equal to [&w].  [new_itr] ends two slots into the new block, the
      expression of the [assert] of line 112 is false, and where the
      program goes on the list holds the address of the new spacer twice
      and [&w] no more. *)
Lemma widget_one_past_the_end_is_repointed :
    let w := 2072 in
    let st := Adder.run sample_layout tt grow_double
                [call_add_horizontal_spacer; call_add w] (sample_adder, 1) in
    let a := fst st in
    let a' := fst (Adder.add_horizontal_spacer sample_layout tt grow_double
                     a (snd st)) in
    m_widgets a = [spacer_at 1 0; widget_at w]
    /\ m_horz_spacers a
       = {| Vector.block := 1; Vector.capacity := 1; Vector.data := [tt] |}
    /\ address sample_layout (widget_at w)
       = (address sample_layout (Vector.address_of (m_horz_spacers a) 0)
          + Z.of_nat (Vector.capacity (m_horz_spacers a))
            * sizeof_spacer sample_layout)%Z
    /\ revalidate sample_layout (m_widgets a) (spacer_at 2 0) (spacer_at 1 0)
       = ([spacer_at 2 0; spacer_at 2 1], spacer_at 2 2)
    /\ assert_new_itr_at_end sample_layout a (snd st) = false
    /\ m_widgets a' = [spacer_at 2 0; spacer_at 2 1; spacer_at 2 1]
    /\ Vector.data (m_horz_spacers a') = [tt; tt].
Proof. cbn zeta. repeat split; vm_compute; reflexivity. Qed.
End AdderFacts.

(* ===================================================================== *)
(** * Frame::contains and the four-argument Frame::finalize_widgets *)
(* ===================================================================== *)

Module CommitFacts.
Import Commit.
Section CommitFacts.
Context {HorizontalSpacer StyleMap Geometry Leaf : Type}.
Abbreviation Frame := (Commit.Frame HorizontalSpacer Geometry).
Abbreviation heap := (Commit.heap HorizontalSpacer Geometry Leaf).
Variable set_style : StyleMap -> addr -> heap -> heap.
Variable finalize_geometry : addr -> heap -> heap.

Abbreviation finalize_widgets := (Commit.finalize_widgets set_style finalize_geometry).
Abbreviation destroy := (Commit.destroy set_style finalize_geometry).

Lemma as_frame_Some (h : heap) (widget : ptr) (fr : Frame) :
    as_frame h widget = Some fr ->
    exists a, widget = widget_at a /\ h !! a = Some (OFrame fr).
Proof.
    destruct widget as [| a | |]; cbn; try discriminate.
    destruct (h !! a) as [[fr' | l] |] eqn:E; try discriminate.
    intros [= ->]. now exists a.
Qed.

  (** One level of the containment relation. *)
Lemma reaches_unfold (h : heap) (fr : Frame) (wptr : ptr) :
    reaches h fr wptr <->
    wptr ∈ m_widgets fr
    \/ exists widget nested,
         widget ∈ m_widgets fr /\ as_frame h widget = Some nested
         /\ reaches h nested wptr.
Proof.
    split.
    - intros Hr. destruct Hr as [fr wptr Hin | fr widget nested wptr Hin Hfr Hr].
      + now left.
      + right. now exists widget, nested.
    - intros [Hin | (widget & nested & Hin & Hfr & Hr)].
      + now apply reaches_entry.
      + now apply reaches_nested with widget nested.
Qed.

  (** The scanning loop decides one level of the relation, provided the
      recursive call decides it for every nested frame met. *)
Lemma contains_scan_decides (rec : Frame -> option bool) (h : heap)
      (wptr : ptr) (ws : list ptr) :
    (forall widget nested,
        widget ∈ ws -> as_frame h widget = Some nested ->
        exists b, rec nested = Some b /\ (b = true <-> reaches h nested wptr)) ->
    exists b,
      contains_scan rec h wptr ws = Some b
      /\ (b = true <->
          wptr ∈ ws
          \/ exists widget nested,
               widget ∈ ws /\ as_frame h widget = Some nested
               /\ reaches h nested wptr).
Proof.
    induction ws as [| widget rest IH]; intros Hrec.
    - exists false. split; [reflexivity |]. split; [discriminate |].
      intros [Hin | (w & n & Hin & _)]; now apply not_elem_of_nil in Hin.
    - cbn [contains_scan]. destruct (decide (widget = wptr)) as [-> | Hne].
      { exists true. split; [reflexivity |]. split; [| reflexivity].
        intros _. left. apply elem_of_cons. now left. }
      destruct IH as (b & Hscan & Hb).
      { intros w n Hin. apply Hrec. apply elem_of_cons. now right. }
      assert (Hrest : (wptr ∈ widget :: rest
                       \/ exists w n, w ∈ widget :: rest /\ as_frame h w = Some n
                                      /\ reaches h n wptr)
                      <-> (b = true
                           \/ exists n, as_frame h widget = Some n
                                        /\ reaches h n wptr)).
      { rewrite Hb. split.
        - intros [Hin | (w & n & Hin & Hfr & Hr)].
          + apply elem_of_cons in Hin as [-> | Hin]; [congruence | now left; left].
          + apply elem_of_cons in Hin as [-> | Hin].
            * right. now exists n.
            * left. right. now exists w, n.
        - intros [[Hin | (w & n & Hin & Hfr & Hr)] | (n & Hfr & Hr)].
          + left. apply elem_of_cons. now right.
          + right. exists w, n. split; [apply elem_of_cons; now right | easy].
          + right. exists widget, n. split; [apply elem_of_cons; now left | easy]. }
      destruct (as_frame h widget) as [nested |] eqn:Hfr.
      + destruct (Hrec widget nested) as (bn & Hbn & Hn);
          [apply elem_of_cons; now left | exact Hfr |].
        rewrite Hbn. destruct bn.
        * exists true. split; [reflexivity |]. rewrite Hrest.
          split; [| reflexivity]. intros _. right. exists nested.
          split; [reflexivity | now apply Hn].
        * exists b. split; [exact Hscan |]. rewrite Hrest.
          split; [now left |].
          intros [Hbt | (n & [= <-] & Hr)]; [exact Hbt |].
          apply Hn in Hr. discriminate.
      + exists b. split; [exact Hscan |]. rewrite Hrest.
        split; [now left |]. intros [Hbt | (n & Hn & _)]; [exact Hbt | discriminate].
Qed.

  (** On frames that nest without a cycle [Frame::contains] returns, given a
      stack deeper than the rank of the frame, and what it returns is the
      containment relation. *)
Lemma contains_decides (h : heap) (rank : addr -> nat) (wptr : ptr) :
    ranked h rank ->
    forall fuel a fa,
      h !! a = Some (OFrame fa) -> rank a < fuel ->
      exists b, contains fuel h fa wptr = Some b
                /\ (b = true <-> reaches h fa wptr).
Proof.
    intros Hranked. induction fuel as [| fuel IH]; intros a fa Ha Hfuel; [lia |].
    cbn [contains].
    destruct (contains_scan_decides (fun frame => contains fuel h frame wptr)
                h wptr (m_widgets fa)) as (b & Hscan & Hb).
    - intros widget nested Hin Hfr.
      apply as_frame_Some in Hfr as (c & -> & Hc).
      apply (IH c nested Hc).
      specialize (Hranked a fa c nested Ha Hin Hc). lia.
    - exists b. split; [exact Hscan |]. now rewrite reaches_unfold.
Qed.

Lemma scan_for_this_decides (h : heap) (rank : addr -> nat) (fuel : nat)
      (this : addr) (widgets : list ptr) :
    ranked h rank -> (forall a, rank a < fuel) ->
    exists b,
      scan_for_this fuel h this widgets = Some b
      /\ (b = true <->
          exists widget nested,
            widget ∈ widgets /\ as_frame h widget = Some nested
            /\ reaches h nested (widget_at this)).
Proof.
    intros Hranked Hfuel. induction widgets as [| widget rest IH].
    - exists false. split; [reflexivity |]. split; [discriminate |].
      intros (w & n & Hin & _). now apply not_elem_of_nil in Hin.
    - cbn [scan_for_this]. destruct IH as (b & Hscan & Hb).
      destruct (as_frame h widget) as [nested |] eqn:Hfr.
      + destruct (as_frame_Some _ _ _ Hfr) as (c & -> & Hc).
        destruct (contains_decides h rank (widget_at this) Hranked fuel c nested
                    Hc (Hfuel c)) as (bn & Hbn & Hn).
        rewrite Hbn. destruct bn.
        * exists true. split; [reflexivity |]. split; [| reflexivity].
          intros _. exists (widget_at c), nested.
          split; [apply elem_of_cons; now left |]. split; [exact Hfr | now apply Hn].
        * exists b. split; [exact Hscan |]. rewrite Hb. split.
          -- intros (w & n & Hin & Hw & Hr). exists w, n.
             split; [apply elem_of_cons; now right | easy].
          -- intros (w & n & Hin & Hw & Hr).
             apply elem_of_cons in Hin as [-> | Hin]; [| now exists w, n].
             rewrite Hfr in Hw. injection Hw as <-. apply Hn in Hr. discriminate.
      + exists b. split; [exact Hscan |]. rewrite Hb. split.
        * intros (w & n & Hin & Hw & Hr). exists w, n.
          split; [apply elem_of_cons; now right | easy].
        * intros (w & n & Hin & Hw & Hr).
          apply elem_of_cons in Hin as [-> | Hin]; [congruence | now exists w, n].
Qed.

  (** On frames that nest without a cycle, and with a stack deep enough
      for the containment searches: when the incoming widget list has an
      entry that is a frame containing the target frame, directly or through
      nested frames, [Frame::finalize_widgets] throws
      [std::invalid_argument] (with the message "This frame may not contain
      itself" when the line separator is the frame's own) and the heap,
      hence the committed widget list and the spacer storage of the target,
      is what it was before the call. *)
Lemma finalize_widgets_rejects_containing_frame
      (rank : addr -> nat) (fuel : nat) (h : heap) (this : addr) (fr : Frame)
      (widgets : list ptr) (spacers : Vector.t HorizontalSpacer)
      (the_line_sep : option addr) (styles : option StyleMap)
      (widget : ptr) (nested : Frame) :
    ranked h rank -> (forall a, rank a < fuel) ->
    h !! this = Some (OFrame fr) ->
    widget ∈ widgets -> as_frame h widget = Some nested ->
    reaches h nested (widget_at this) ->
    exists what,
      finalize_widgets fuel this widgets spacers the_line_sep styles h
      = Some (inl (invalid_argument what), h)
      /\ (the_line_sep = Some this -> what = k_cannot_contain_this)
      /\ as_frame h (widget_at this) = Some fr.
Proof.
    intros Hranked Hfuel Hthis Hin Hfr Hreach.
    unfold Commit.finalize_widgets. rewrite Hthis.
    assert (Hsame : as_frame h (widget_at this) = Some fr) by (cbn; now rewrite Hthis).
    destruct (decide (the_line_sep = Some this)) as [Hsep | Hsep].
    - destruct (scan_for_this_decides h rank fuel this widgets Hranked Hfuel)
        as (b & Hscan & Hb).
      rewrite Hscan.
      assert (b = true) as -> by (apply Hb; now exists widget, nested).
      exists k_cannot_contain_this. repeat split; assumption.
    - exists k_must_know_line_sep. repeat split; [congruence | assumption].
Qed.

  (** C9.  Called with a line separator pointer that is not the address of
      the frame's own line separator, [Frame::finalize_widgets] throws
      [std::invalid_argument] and the heap is what it was, whatever the
      widget list and without any containment search.  So an adder whose
      destructor commits to the frame holds that address, the one
      [begin_adding_widgets] of this frame puts in the adder it returns. *)
Theorem finalize_widgets_needs_own_line_sep
      (fuel : nat) (h : heap) (this : addr) (fr : Frame) :
    h !! this = Some (OFrame fr) ->
    (forall widgets spacers the_line_sep styles,
        the_line_sep <> Some this ->
        finalize_widgets fuel this widgets spacers the_line_sep styles h
        = Some (inl (invalid_argument k_must_know_line_sep), h))
    /\ (forall uncaught (a : Adder.t HorizontalSpacer StyleMap) h',
          (uncaught <= 0)%Z -> Adder.m_parent a = Some this ->
          destroy fuel uncaught a h = Some (inr tt, h') ->
          Adder.m_the_line_sep a = Some this)
    /\ (forall styles : option StyleMap,
          exists a0 : Adder.t HorizontalSpacer StyleMap,
                     begin_adding_widgets this styles = inr a0
                     /\ Adder.m_parent a0 = Some this
                     /\ Adder.m_the_line_sep a0 = Some this
                     /\ Adder.m_styles a0 = styles
                     /\ Adder.m_widgets a0 = []).
Proof.
    intros Hthis. split; [| split].
    - intros widgets spacers the_line_sep styles Hsep.
      unfold Commit.finalize_widgets. rewrite Hthis.
      now rewrite decide_False by exact Hsep.
    - intros uncaught a h' Hun Hparent Hrun.
      unfold Commit.destroy in Hrun.
      destruct (Z.ltb_spec 0 uncaught) as [Hno | _]; [lia |].
      rewrite Hparent in Hrun. unfold Commit.finalize_widgets in Hrun.
      rewrite Hthis in Hrun.
      destruct (decide (Adder.m_the_line_sep a = Some this)) as [Hsep | Hsep];
        [exact Hsep | discriminate].
    - intros styles. eexists. split; [reflexivity |]. repeat split.
Qed.

  (** C6.  The destructor of an adder does nothing while an exception is in
      flight: it returns and the heap is what it was.  Otherwise, for an
      adder bound to a frame, it is the call of the frame's
      [finalize_widgets] on the adder's widget list, spacer storage, line
      separator and style map; and when that call passes its two checks the
      frame holds the adder's widget list and spacer storage, after which
      the style map is applied and the geometry finalized if, and only if, a
      style map was supplied. *)
Theorem destructor_commits_unless_unwinding
      (fuel : nat) (uncaught : Z) (a : Adder.t HorizontalSpacer StyleMap)
      (h : heap) :
    ((0 < uncaught)%Z -> destroy fuel uncaught a h = Some (inr tt, h))
    /\ (forall parent,
          (uncaught <= 0)%Z -> Adder.m_parent a = Some parent ->
          destroy fuel uncaught a h
          = match finalize_widgets fuel parent (Adder.m_widgets a)
                    (Adder.m_horz_spacers a) (Adder.m_the_line_sep a)
                    (Adder.m_styles a) h with
            | Some (inr _, h') => Some (inr tt, h')
            | Some (inl e, h') => Some (inl e, h')
            | None => None
            end)
    /\ (forall parent fr,
          (uncaught <= 0)%Z -> Adder.m_parent a = Some parent ->
          Adder.m_the_line_sep a = Some parent ->
          h !! parent = Some (OFrame fr) ->
          scan_for_this fuel h parent (Adder.m_widgets a) = Some false ->
          let committed :=
            <[parent := OFrame (commit (Adder.m_widgets a)
                                       (Adder.m_horz_spacers a) fr)]> h in
          destroy fuel uncaught a h
          = Some (inr tt,
                  match Adder.m_styles a with
                  | Some s => finalize_geometry parent (set_style s parent committed)
                  | None => committed
                  end)
          /\ exists fr', committed !! parent = Some (OFrame fr')
                         /\ m_widgets fr' = Adder.m_widgets a
                         /\ m_horz_spacers fr' = Adder.m_horz_spacers a).
Proof.
    split; [| split].
    - intros Hun. unfold Commit.destroy.
      now destruct (Z.ltb_spec 0 uncaught) as [_ | Hno]; [| lia].
    - intros parent Hun Hparent. unfold Commit.destroy.
      destruct (Z.ltb_spec 0 uncaught) as [Hno | _]; [lia |].
      now rewrite Hparent.
    - intros parent fr Hun Hparent Hsep Hfr Hscan committed.
      split.
      + unfold Commit.destroy.
        destruct (Z.ltb_spec 0 uncaught) as [Hno | _]; [lia |].
        rewrite Hparent. unfold Commit.finalize_widgets.
        rewrite Hfr, decide_True by exact Hsep. rewrite Hscan.
        reflexivity.
      + exists (commit (Adder.m_widgets a) (Adder.m_horz_spacers a) fr).
        split; [| split; reflexivity].
        subst committed. apply lookup_insert_eq.
Qed.
End CommitFacts.

  (** Frame 1 holds frame 2 and the leaf 5; frame 2 is empty. *)
Definition sample_frame (ws : list ptr) : Commit.Frame unit unit :=
    {| m_widgets := ws; m_horz_spacers := Vector.empty; m_geometry := tt |}.
Definition sample_heap : gmap addr (Commit.object unit unit unit) :=
    <[1 := OFrame (sample_frame [widget_at 2; widget_at 5])]>
      (<[2 := OFrame (sample_frame [])]> (<[5 := OLeaf tt]> ∅)).
Definition sample_rank (a : addr) : nat := if decide (a = 1) then 1 else 0.
Definition no_style (s : unit) (a : addr)
      (h : Commit.heap unit unit unit) : Commit.heap unit unit unit := h.
Definition no_geometry (a : addr)
      (h : Commit.heap unit unit unit) : Commit.heap unit unit unit := h.

Lemma sample_heap_ranked : ranked sample_heap sample_rank.
Proof.
    intros a fa b fb Ha Hin Hb. unfold sample_heap in Ha.
    destruct (decide (a = 1)) as [-> | Hne1].
    - rewrite lookup_insert_eq in Ha. injection Ha as <-. cbn in Hin.
      apply elem_of_cons in Hin as [[= ->] | Hin]; [vm_compute; lia |].
      apply elem_of_cons in Hin as [[= ->] | Hin]; [vm_compute; lia |].
      now apply not_elem_of_nil in Hin.
    - rewrite lookup_insert_ne in Ha by congruence.
      destruct (decide (a = 2)) as [-> | Hne2].
      + rewrite lookup_insert_eq in Ha. injection Ha as <-.
        now apply not_elem_of_nil in Hin.
      + rewrite lookup_insert_ne in Ha by congruence.
        destruct (decide (a = 5)) as [-> | Hne5].
        * rewrite lookup_insert_eq in Ha. discriminate.
        * rewrite lookup_insert_ne in Ha by congruence.
          rewrite lookup_empty in Ha. discriminate.
Qed.

  (** Frame 2 is handed a list that holds frame 1, which contains frame 2:
      the call throws and the heap is unchanged. *)
Lemma finalize_widgets_rejects_containing_frame_example :
    exists what,
      Commit.finalize_widgets no_style no_geometry 2 2
        [widget_at 7; widget_at 1] Vector.empty (Some 2) (Some tt) sample_heap
      = Some (inl (invalid_argument what), sample_heap)
      /\ what = k_cannot_contain_this.
Proof.
    destruct (finalize_widgets_rejects_containing_frame no_style no_geometry
                sample_rank 2 sample_heap 2 (sample_frame [])
                [widget_at 7; widget_at 1] Vector.empty (Some 2) (Some tt)
                (widget_at 1) (sample_frame [widget_at 2; widget_at 5]))
      as (what & Hrun & Hwhat & _).
    - exact sample_heap_ranked.
    - intros a. unfold sample_rank. destruct (decide (a = 1)); lia.
    - reflexivity.
    - apply elem_of_cons. right. apply elem_of_cons. now left.
    - reflexivity.
    - apply reaches_entry. apply elem_of_cons. now left.
    - exists what. split; [exact Hrun | now apply Hwhat].
Qed.

  (** A call on frame 2 that presents the line separator of frame 1. *)
Lemma finalize_widgets_needs_own_line_sep_witness :
    Commit.finalize_widgets no_style no_geometry 0 2
      [widget_at 5] Vector.empty (Some 1) None sample_heap
    = Some (inl (invalid_argument k_must_know_line_sep), sample_heap).
Proof.
    apply (proj1 (finalize_widgets_needs_own_line_sep no_style no_geometry
                    0 sample_heap 2 (sample_frame []) eq_refl)).
    discriminate.
Defined.

Definition sample_adder : Adder.t unit unit :=
    {| Adder.m_widgets := [widget_at 5; spacer_at 1 0];
       Adder.m_horz_spacers := {| Vector.block := 1; Vector.capacity := 1;
                                  Vector.data := [tt] |};
       Adder.m_the_line_sep := Some 2; Adder.m_styles := None;
       Adder.m_parent := Some 2 |}.

  (** The adder of frame 2 goes out of scope: during unwinding nothing
      happens, otherwise frame 2 receives its list. *)
Lemma destructor_commits_unless_unwinding_witness :
    Commit.destroy no_style no_geometry 1 1 sample_adder sample_heap
      = Some (inr tt, sample_heap)
    /\ Commit.destroy no_style no_geometry 1 0 sample_adder sample_heap
       = Some (inr tt,
               <[2 := OFrame (commit [widget_at 5; spacer_at 1 0]
                                     (Adder.m_horz_spacers sample_adder)
                                     (sample_frame []))]> sample_heap).
Proof.
    split.
    - apply (proj1 (destructor_commits_unless_unwinding no_style no_geometry
                      1 1 sample_adder sample_heap)).
      lia.
    - apply (proj2 (proj2 (destructor_commits_unless_unwinding no_style
                             no_geometry 1 0 sample_adder sample_heap))
               2 (sample_frame [])); [lia | reflexivity ..].
Defined.

  (** A frame that lists itself directly is not caught: the search is made
      in the list the frame holds before the commit, and frame 2 is empty. *)
Lemma direct_self_containment_is_committed (fuel : nat) :
    Commit.finalize_widgets no_style no_geometry (S fuel) 2
      [widget_at 2] Vector.empty (Some 2) None sample_heap
    = Some (inr ([], Vector.empty),
            <[2 := OFrame (sample_frame [widget_at 2])]> sample_heap).
Proof. reflexivity. Qed.

  (** Once frame 2 lists itself, a search in it for any other widget needs
      a deeper stack than any given one. *)
Lemma self_containing_frame_search_never_returns (fuel : nat) :
    contains fuel (<[2 := OFrame (sample_frame [widget_at 2])]> sample_heap)
             (sample_frame [widget_at 2]) (widget_at 9) = None.
Proof.
    induction fuel as [| fuel IH]; [reflexivity |].
    cbn [contains contains_scan sample_frame m_widgets].
    rewrite decide_False by discriminate.
    change (as_frame _ (widget_at 2)) with (Some (sample_frame [widget_at 2])).
    cbn [sample_frame] in IH |- *. now rewrite IH.
Qed.

  (** Two frames, 1 and 2, both empty. *)
Definition empty_frames : gmap addr (Commit.object unit unit unit) :=
    <[1 := OFrame (sample_frame [])]> (<[2 := OFrame (sample_frame [])]> ∅).

  (** C2.  The adder of the empty frame 1 is given frame 1 itself and frame 2,
      [begin_adding_widgets().add(f1).add(f2)], and its destructor commits
      the list: the scan finds no frame that contains frame 1, the lists
      searched being the ones held before the commit.  Then the adder of
      frame 2 is given frame 1.  Frame 1 is a frame in the list that
      contains frame 2, the condition of the claim; the call of
      [finalize_widgets] on frame 2 throws nothing: the search
      [contains(this)] in frame 1 enters frame 1 again at its first entry
      and returns on no stack however deep. *)
Lemma containing_frame_is_searched_without_end :
    let listed := sample_frame [widget_at 1; widget_at 2] in
    let cyclic := <[1 := OFrame listed]> empty_frames in
    (forall fuel,
        Commit.finalize_widgets no_style no_geometry (S fuel) 1
          [widget_at 1; widget_at 2] Vector.empty (Some 1) None empty_frames
        = Some (inr ([], Vector.empty), cyclic))
    /\ widget_at 1 ∈ [widget_at 1]
    /\ as_frame cyclic (widget_at 1) = Some listed
    /\ reaches cyclic listed (widget_at 2)
    /\ (forall fuel,
          Commit.finalize_widgets no_style no_geometry fuel 2
            [widget_at 1] Vector.empty (Some 2) None cyclic
          = None).
Proof.
    cbn zeta. split; [intros fuel; reflexivity |].
    split; [apply elem_of_cons; now left |].
    split; [reflexivity |].
    split.
    { apply reaches_entry. cbn. apply elem_of_cons. right.
      apply elem_of_cons. now left. }
    assert (Hloop : forall fuel,
               contains fuel
                 (<[1 := OFrame (sample_frame [widget_at 1; widget_at 2])]>
                    empty_frames)
                 (sample_frame [widget_at 1; widget_at 2]) (widget_at 2) = None).
    { induction fuel as [| fuel IH]; [reflexivity |].
      cbn [contains contains_scan sample_frame m_widgets].
      rewrite decide_False by discriminate.
      change (as_frame _ (widget_at 1))
        with (Some (sample_frame [widget_at 1; widget_at 2])).
      cbn [sample_frame] in IH |- *. now rewrite IH. }
    intros fuel. unfold Commit.finalize_widgets.
    match goal with
    | |- match ?target with _ => _ end = _ =>
        change target with (Some (OFrame (sample_frame [])
                                    : Commit.object unit unit unit))
    end.
    cbv iota.
    destruct (decide (Some 2 = Some 2)) as [_ | Hne]; [| now elim Hne].
    cbn [scan_for_this].
    change (as_frame _ (widget_at 1))
      with (Some (sample_frame [widget_at 1; widget_at 2])).
    cbv beta iota. now rewrite Hloop.
Qed.
End CommitFacts.

(* ===================================================================== *)
(** * Frame::compute_size_to_fit on an empty frame *)
(* ===================================================================== *)

(** In binary32 adding a value to [0.f] gives the value, negative zero
    excepted. *)
Lemma b32_add_zero_l (d : spec_float) :
  d <> S754_zero true -> (f0 +! d) = d.
Proof.
  rewrite b32_f0. intros Hd.
  destruct d as [s | s | | s m e]; try reflexivity.
  destruct s; [now elim Hd | reflexivity].
Qed.

Module FitFacts.
Import Layout.
Section FitFacts.
Context {F : Type} `{FloatOps F}.
Context {B : Type} `{FrameBorderOps F B}.

  (** The totals of [compute_size_to_fit] before the correction of lines
      397-402: [fit_finish] decides on the correction by its list argument
      alone. *)
Definition uncorrected_fit (border : B) (padding : F) (widgets : list (Widget F B))
      : VectorF F :=
    fit_finish border padding []
      (fold_left
         (fun st w =>
            fit_step padding st w
              (match w with
               | SubFrame child => compute_size_to_fit child
               | _ => mkVectorF f0 f0
               end))
         widgets (mkFit f0 f0 f0 f0 f0)).

Lemma compute_size_to_fit_cons (border : B) (padding : F)
      (widget : Widget F B) (rest : list (Widget F B)) :
    compute_size_to_fit (mkFrame border padding (widget :: rest))
    = mkVectorF
        (vx (uncorrected_fit border padding (widget :: rest)) +! padding *! f3)
        (vy (uncorrected_fit border padding (widget :: rest)) +! padding *! f3).
Proof.
    unfold uncorrected_fit. cbn [compute_size_to_fit]. unfold fit_finish.
    destruct (negb _); reflexivity.
Qed.

Lemma compute_size_to_fit_nil (border : B) (padding : F) :
    (f0 ==! f0) = true ->
    compute_size_to_fit (mkFrame border padding [])
    = mkVectorF
        (fmax f0 (title_width_accommodation border +! padding *! f2))
        (f0 +! (vy (widget_start border) -! vy (border_location border))).
Proof.
    intros Hz. cbn [compute_size_to_fit fold_left]. unfold fit_finish.
    cbn [line_width total_width total_height]. now rewrite Hz.
Qed.
End FitFacts.

Section FitBinary32.
Context {B : Type} `{FrameBorderOps spec_float B}.

  (** C7.  In binary32, for a frame without widgets whose title
      accommodation plus two paddings is above zero, the fit size is: in
      width the title accommodation plus two paddings, in height the
      title-bar allowance, that is the [y] of [widget_start()] less the [y]
      of [location()] (negative zero, which an addition to [0.f] turns into
      zero, set aside).  No [3 * padding] enters it; on a frame with widgets
      [3 * padding] is added to each of the two totals. *)
Theorem compute_size_to_fit_empty (border : B) (padding : spec_float) :
    let allowance := vy (widget_start border) -! vy (border_location border) in
    let title := title_width_accommodation border +! padding *! f2 in
    (f0 <! title) = true ->
    allowance <> S754_zero true ->
    compute_size_to_fit (mkFrame border padding []) = mkVectorF title allowance
    /\ forall widget rest,
         compute_size_to_fit (mkFrame border padding (widget :: rest))
         = mkVectorF
             (vx (uncorrected_fit border padding (widget :: rest)) +! padding *! f3)
             (vy (uncorrected_fit border padding (widget :: rest)) +! padding *! f3).
Proof.
    intros allowance title Htitle Hallow. split.
    - rewrite compute_size_to_fit_nil by reflexivity.
      fold allowance title. unfold fmax. rewrite Htitle.
      now rewrite (b32_add_zero_l allowance Hallow).
    - intros widget rest. apply compute_size_to_fit_cons.
Qed.
End FitBinary32.

  (** A frame at (10, 20) with a margin of 4, a title bar 16 high and a
      title accommodation of 60, with padding 5: the fit size is 70 by 20. *)
Definition titled_border : SampleBorder.t spec_float :=
    SampleBorder.mk (mkVectorF (b32 10 0) (b32 20 0)) (b32 0 0) (b32 0 0)
                    (b32 4 0) (b32 16 0) (b32 60 0).

Lemma compute_size_to_fit_empty_witness :
    compute_size_to_fit (mkFrame titled_border (b32 5 0) [])
    = mkVectorF (b32 70 0) (b32 20 0).
Proof.
    refine (proj1 (compute_size_to_fit_empty titled_border (b32 5 0) _ _)).
    - vm_compute. reflexivity.
    - vm_compute. discriminate.
Defined.
End FitFacts.

(* ===================================================================== *)
(** * Frame::update_horizontal_spacers *)
(* ===================================================================== *)

Module SpacerFacts.
Import Layout.
Section SpacerFacts.
Context {F : Type} `{FloatOps F}.
Context {B : Type} `{FrameBorderOps F B}.
Abbreviation Widget := (Layout.Widget F B).

(** The lines recorded by the loop follow one another from position [a] to
    position [c]. *)
Fixpoint chain (a c : nat) (lines : list (nat * nat * F)) : Prop :=
  match lines with
  | [] => a = c
  | (b, e, _) :: rest => a = b /\ b <= e /\ chain e c rest
  end.

Lemma chain_snoc (a c e : nat) (x : F) (lines : list (nat * nat * F)) :
  chain a c lines -> c <= e -> chain a e (lines ++ [(c, e, x)]).
Proof.
  revert a. induction lines as [| [[b e'] x'] rest IH]; intros a Hch Hle.
  - cbn in *. subst. auto.
  - cbn in *. destruct Hch as (-> & Hbe & Hch). auto.
Qed.

Lemma chain_bounds (a c : nat) (lines : list (nat * nat * F)) :
  chain a c lines ->
  a <= c /\ forall b e x, (b, e, x) ∈ lines -> a <= b /\ b <= e /\ e <= c.
Proof.
  revert a. induction lines as [| [[b' e'] x'] rest IH]; intros a Hch.
  - cbn in Hch. subst. split; [lia |]. intros b e x Hin.
    now apply not_elem_of_nil in Hin.
  - cbn in Hch. destruct Hch as (-> & Hbe & Hch).
    destruct (IH _ Hch) as (Hle & Hall). split; [lia |].
    intros b e x Hin. apply elem_of_cons in Hin as [[= -> -> ->] | Hin].
    + lia.
    + specialize (Hall b e x Hin). lia.
Qed.

Lemma chain_covers (a c : nat) (lines : list (nat * nat * F)) :
  chain a c lines ->
  forall i, a <= i < c -> exists b e x, (b, e, x) ∈ lines /\ b <= i < e.
Proof.
  revert a. induction lines as [| [[b' e'] x'] rest IH]; intros a Hch i Hi.
  - cbn in Hch. lia.
  - cbn in Hch. destruct Hch as (-> & Hbe & Hch).
    destruct (Nat.lt_ge_cases i e') as [Hlt | Hge].
    + exists b', e', x'. split; [apply elem_of_cons; now left | lia].
    + destruct (IH _ Hch i) as (b & e & x & Hin & Hb); [lia |].
      exists b, e, x. split; [apply elem_of_cons; now right | exact Hb].
Qed.

Lemma range_lookup (beg end_ i : nat) (ws : list Widget) (w : Widget) :
  ws !! i = Some w -> beg <= i < end_ -> w ∈ range beg end_ ws.
Proof.
  intros Hi Hr. unfold range. apply list_elem_of_lookup. exists (i - beg).
  rewrite lookup_take_lt by lia. rewrite lookup_drop.
  now replace (beg + (i - beg)) with i by lia.
Qed.

Lemma range_ext (beg end_ : nat) (ws ws' : list Widget) :
  length ws = length ws' ->
  (forall i, beg <= i -> ws !! i = ws' !! i) ->
  range beg end_ ws = range beg end_ ws'.
Proof.
  intros Hlen Heq. unfold range. f_equal.
  apply list_eq. intros i. rewrite !lookup_drop. apply Heq. lia.
Qed.

(** A spacer in the range makes the count positive. *)
Lemma horz_spacer_count_pos (beg end_ i : nat) (ws : list Widget) (w : Widget) :
  ws !! i = Some w -> beg <= i < end_ -> is_horizontal_spacer w = true ->
  1 <= horz_spacer_count beg end_ ws.
Proof.
  intros Hi Hr Hsp. unfold horz_spacer_count.
  assert (Hin : w ∈ filter (fun w => is_horizontal_spacer w = true)
                           (range beg end_ ws)).
  { apply list_elem_of_filter. split; [exact Hsp | now apply range_lookup with i]. }
  destruct (filter _ _); [now apply not_elem_of_nil in Hin | cbn; lia].
Qed.

Lemma spacer_set_width_other (width : F) (w : Widget) :
  is_horizontal_spacer w = false -> spacer_set_width width w = w.
Proof. now destruct w. Qed.

Lemma set_horz_spacer_widths_length beg end_ left_over padding (ws : list Widget) :
  length (set_horz_spacer_widths beg end_ left_over padding ws) = length ws.
Proof.
  unfold set_horz_spacer_widths. destruct (Nat.eqb _ 0); [reflexivity |].
  apply length_imap.
Qed.

(** What [set_horz_spacer_widths] leaves at each position. *)
Lemma set_horz_spacer_widths_lookup beg end_ left_over padding
    (ws : list Widget) (i : nat) :
  set_horz_spacer_widths beg end_ left_over padding ws !! i
  = if Nat.leb beg i && Nat.ltb i end_
    then spacer_set_width
           (width_per_spacer left_over (horz_spacer_count beg end_ ws) padding)
           <$> ws !! i
    else ws !! i.
Proof.
  unfold set_horz_spacer_widths.
  destruct (Nat.eqb_spec (horz_spacer_count beg end_ ws) 0) as [Hzero | Hpos].
  - destruct (Nat.leb_spec beg i) as [Hb | Hb]; [| reflexivity].
    destruct (Nat.ltb_spec i end_) as [He | He]; [| reflexivity].
    cbn [andb]. destruct (ws !! i) as [w |] eqn:Hi; [| reflexivity].
    cbn. destruct (is_horizontal_spacer w) eqn:Hsp.
    + pose proof (horz_spacer_count_pos beg end_ i ws w Hi (conj Hb He) Hsp). lia.
    + now rewrite spacer_set_width_other.
  - rewrite list_lookup_imap.
    destruct (Nat.leb beg i && Nat.ltb i end_); destruct (ws !! i); reflexivity.
Qed.

(** The invariant of the loop of [update_horizontal_spacers] before the
    turn at position [k], [ws0] being the list at the start. *)
Record uhs_inv (k_horz_space padding : F) (ws0 : list Widget) (k : nat)
    (st : uhs_state F B) : Prop := {
  inv_length : length (uhs_widgets st) = length ws0;
  inv_begin : uhs_line_begin st <= k;
  inv_rest : forall i, uhs_line_begin st <= i -> uhs_widgets st !! i = ws0 !! i;
  inv_chain : chain 0 (uhs_line_begin st) (uhs_lines st);
  inv_done : forall b e x i,
      (b, e, x) ∈ uhs_lines st -> b <= i < e ->
      uhs_widgets st !! i
      = spacer_set_width
          (width_per_spacer (fmax (k_horz_space -! x) f0)
                            (horz_spacer_count b e ws0) padding)
          <$> ws0 !! i;
}.

Lemma uhs_inv_start k_horz_space padding (ws0 : list Widget) :
  uhs_inv k_horz_space padding ws0 0 (mkUhs f0 f0 0 ws0 []).
Proof.
  split; cbn; try easy; try lia.
  all: try (intros b e x i Hin; now apply not_elem_of_nil in Hin).
Qed.

(** Closing the line that starts at [uhs_line_begin] and ends before
    position [e]. *)
Lemma uhs_inv_close k_horz_space padding (ws0 : list Widget) (k e : nat)
    (st : uhs_state F B) (x' pad' : F) :
  uhs_inv k_horz_space padding ws0 k st ->
  uhs_line_begin st <= e -> e <= S k ->
  uhs_inv k_horz_space padding ws0 (S k)
    (mkUhs x' pad' e
       (set_horz_spacer_widths (uhs_line_begin st) e
          (fmax (k_horz_space -! uhs_x st) f0) padding (uhs_widgets st))
       (uhs_lines st ++ [(uhs_line_begin st, e, uhs_x st)])).
Proof.
  intros [Hlen Hbeg Hrest Hchain Hdone] Hle Hek.
  assert (Hrange : range (uhs_line_begin st) e (uhs_widgets st)
                   = range (uhs_line_begin st) e ws0).
  { apply range_ext; [exact Hlen |]. intros i Hi. now apply Hrest. }
  split; cbn [uhs_widgets uhs_line_begin uhs_lines uhs_x].
  - now rewrite set_horz_spacer_widths_length.
  - exact Hek.
  - intros i Hi. rewrite set_horz_spacer_widths_lookup.
    destruct (Nat.ltb_spec i e) as [Hlt | _]; [lia |].
    rewrite andb_false_r. apply Hrest. lia.
  - now apply chain_snoc.
  - intros b e' x i Hin Hi. rewrite set_horz_spacer_widths_lookup.
    apply elem_of_app in Hin as [Hin | Hin].
    + destruct (proj2 (chain_bounds _ _ _ Hchain) b e' x Hin) as (_ & _ & Hup).
      destruct (Nat.leb_spec (uhs_line_begin st) i) as [Hno | _]; [lia |].
      cbn [andb]. now apply Hdone.
    + apply list_elem_of_singleton in Hin. injection Hin as -> -> ->.
      destruct (Nat.leb_spec (uhs_line_begin st) i) as [_ | Hno]; [| lia].
      destruct (Nat.ltb_spec i e) as [_ | Hno]; [| lia].
      cbn [andb]. unfold horz_spacer_count. rewrite Hrange.
      rewrite Hrest by lia. reflexivity.
Qed.

Lemma uhs_inv_step k_horz_space padding (ws0 : list Widget) (k : nat)
    (st : uhs_state F B) :
  uhs_inv k_horz_space padding ws0 k st ->
  uhs_inv k_horz_space padding ws0 (S k) (uhs_step k_horz_space padding st k).
Proof.
  intros Hinv. unfold uhs_step.
  destruct (uhs_widgets st !! k) as [widget_ptr |] eqn:Hk.
  2: { destruct Hinv; split; auto. }
  destruct (is_horizontal_spacer widget_ptr).
  { destruct Hinv; split; cbn; auto. }
  destruct ((k_horz_space <! uhs_x st +! get_widget_advance padding widget_ptr)
            || is_line_seperator widget_ptr).
  - apply uhs_inv_close; [exact Hinv | apply Hinv | lia].
  - destruct Hinv; split; cbn; auto.
Qed.

Lemma uhs_inv_loop k_horz_space padding (ws0 : list Widget) (n k : nat)
    (st : uhs_state F B) :
  uhs_inv k_horz_space padding ws0 k st ->
  uhs_inv k_horz_space padding ws0 (k + n)
    (fold_left (uhs_step k_horz_space padding) (seq k n) st).
Proof.
  revert k st. induction n as [| n IH]; intros k st Hinv.
  - now rewrite Nat.add_0_r.
  - cbn [seq fold_left]. rewrite <- Nat.add_succ_comm.
    apply IH, uhs_inv_step, Hinv.
Qed.

Lemma uhs_step_line_begin k_horz_space padding (st : uhs_state F B) (k : nat) :
  k < length (uhs_widgets st) -> uhs_line_begin st < length (uhs_widgets st) ->
  uhs_line_begin (uhs_step k_horz_space padding st k)
  < length (uhs_widgets (uhs_step k_horz_space padding st k)).
Proof.
  intros Hk Hlb. unfold uhs_step.
  destruct (uhs_widgets st !! k) as [widget_ptr |]; [| exact Hlb].
  destruct (is_horizontal_spacer widget_ptr); [exact Hlb |].
  destruct (_ || _); [| exact Hlb].
  cbn. now rewrite set_horz_spacer_widths_length.
Qed.

(** After the last line the recorded lines run from the first position to
    the end of the list. *)
Lemma uhs_run_inv (fr : Frame F B) :
  let k_horz_space := width_available_for_widgets (m_border fr) in
  let st := uhs_run fr in
  uhs_inv k_horz_space (m_padding fr) (m_widgets fr)
          (S (length (m_widgets fr))) st
  /\ chain 0 (length (m_widgets fr)) (uhs_lines st).
Proof.
  intros k_horz_space st. subst st. unfold uhs_run, uhs_loop.
  fold k_horz_space.
  pose proof (uhs_inv_loop k_horz_space (m_padding fr) (m_widgets fr)
                (length (m_widgets fr)) 0 _
                (uhs_inv_start k_horz_space (m_padding fr) (m_widgets fr)))
    as Hinv.
  cbn [Nat.add] in Hinv.
  set (st := fold_left _ _ _) in *.
  unfold uhs_finish.
  destruct (Nat.eqb_spec (uhs_line_begin st) (length (uhs_widgets st)))
    as [Hend | Hmore].
  - split.
    + destruct Hinv; split; auto.
    + rewrite <- (inv_length _ _ _ _ _ Hinv), <- Hend. apply Hinv.
  - pose proof (inv_length _ _ _ _ _ Hinv) as Hlen.
    pose proof (inv_begin _ _ _ _ _ Hinv) as Hbeg.
    split.
    + apply uhs_inv_close; [exact Hinv | lia | lia].
    + cbn [uhs_lines]. rewrite <- Hlen. apply chain_snoc; [apply Hinv | lia].
Qed.

(** ** The used width of a line *)

(** The used width of a line is summed from [0.f] in list order.  A widget
    that is not a spacer adds its advance.  A spacer adds no width of its
    own and takes back the padding of the widget directly before it on the
    line; a line separator, which opens the line it is listed in, has no
    padding in its advance, and neither has a spacer. *)
Definition used_step (padding : F) (st : F * F) (w : Widget) : F * F :=
  if is_horizontal_spacer w then (fst st +! snd st, f0)
  else (fst st +! get_widget_advance padding w,
        if is_line_seperator w then f0 else fopp padding).

Definition used_state (padding : F) (line : list Widget) : F * F :=
  fold_left (used_step padding) line (f0, f0).

Definition used_width (padding : F) (line : list Widget) : F :=
  fst (used_state padding line).

(** The line that starts at position [b] starts with a widget the pass has
    moved there by overflow: a widget, not a spacer and not a line
    separator, that does not open the list or, opening it, is too wide for
    the interior. *)
Definition starts_by_overflow (k_horz_space padding : F) (ws : list Widget)
    (b : nat) : bool :=
  match ws !! b with
  | Some w =>
      negb (is_horizontal_spacer w) && negb (is_line_seperator w)
      && ((0 <? b) || (k_horz_space <! f0 +! get_widget_advance padding w))
  | None => false
  end.

Lemma range_snoc (b k : nat) (ws : list Widget) (w : Widget) :
  b <= k -> ws !! k = Some w -> range b (S k) ws = range b k ws ++ [w].
Proof.
  intros Hb Hk. unfold range.
  replace (S k - b) with (S (k - b)) by lia.
  apply take_S_r. rewrite lookup_drop.
  now replace (b + (k - b)) with k by lia.
Qed.

Lemma used_state_snoc (padding : F) (line : list Widget) (w : Widget) :
  used_state padding (line ++ [w]) = used_step padding (used_state padding line) w.
Proof. unfold used_state. now rewrite fold_left_app. Qed.







(** The sum of the advances of the entries of a line that are not spacers,
    and the width the specification promises a spacer that is alone on its
    line: the interior width less that sum, floored at zero. *)
Definition non_spacer_advances (padding : F) (line : list Widget) : F :=
  fold_left fadd
    (map (get_widget_advance padding)
         (filter (fun w => is_horizontal_spacer w = false) line)) f0.

Definition promised_lone_spacer_width (interior_width padding : F)
    (line : list Widget) : F :=
  fmax (interior_width -! non_spacer_advances padding line) f0.
End SpacerFacts.

(** A frame 100 wide without margin, padding 5. *)
Definition wide_border : SampleBorder.t spec_float :=
  SampleBorder.mk (mkVectorF (b32 0 0) (b32 0 0)) (b32 100 0) (b32 50 0)
                  (b32 0 0) (b32 0 0) (b32 0 0).

Definition a_spacer : Layout.Widget spec_float (SampleBorder.t spec_float) :=
  Spacer (mkSpacer (mkVectorF (b32 0 0) (b32 0 0)) (b32 0 0)).

Definition a_leaf (w h : Z) : Layout.Widget spec_float (SampleBorder.t spec_float) :=
  Leaf (mkLeaf (mkVectorF (b32 0 0) (b32 0 0)) (b32 w 0) (b32 h 0)).


(** A spacer before a widget of width 30: the line uses 35, the leftover is
    65 and the spacer gets 60, where the promise is 100 - 35 = 65. *)
Lemma leading_spacer_gets_less_than_promised :
  let fr := mkFrame wide_border (b32 5 0) [a_spacer; a_leaf 30 10] in
  (exists s l, m_widgets (update_horizontal_spacers fr) = [Spacer s; Leaf l]
                /\ hs_width s = b32 60 0)
  /\ promised_lone_spacer_width (width_available_for_widgets wide_border)
                                (b32 5 0) [a_spacer; a_leaf 30 10] = b32 65 0.
Proof.
  cbn zeta. split; [do 2 eexists; split; vm_compute; reflexivity |].
  vm_compute. reflexivity.
Qed.


(** After an overflow the pass sets its [pad_fix] back to zero, where the
    positioning loop leaves it at minus the padding (line 313).  Two widgets
    of width 60 and a spacer: the second widget is moved to the second line,
    whose used width is 60, the spacer taking back the padding of the
    widget; the pass has summed 65 and the spacer gets 30, not the 35 the
    used width gives; the positioning loop does take the padding back and
    puts the spacer at 65, the start of the line, 5, and 60. *)
Lemma spacer_after_a_moved_widget_keeps_the_padding :
  let fr := mkFrame wide_border (b32 5 0) [a_leaf 60 10; a_leaf 60 10; a_spacer] in
  uhs_lines (uhs_run fr) = [(0, 1, b32 65 0); (1, 3, b32 65 0)]
  /\ starts_by_overflow (b32 100 0) (b32 5 0) (m_widgets fr) 1 = true
  /\ used_width (b32 5 0) (range 1 3 (m_widgets fr)) = b32 60 0
  /\ map widget_width (m_widgets (update_horizontal_spacers fr))
     = [b32 60 0; b32 60 0; b32 30 0]
  /\ width_per_spacer (fmax (b32 100 0 -! b32 60 0) f0) 1 (b32 5 0) = b32 35 0
  /\ map widget_location (m_widgets (place_widgets (update_horizontal_spacers fr)))
     = [Some (mkVectorF (b32 5 0) (b32 5 0));
        Some (mkVectorF (b32 5 0) (b32 20 0));
        Some (mkVectorF (b32 65 0) (b32 20 0))].
Proof. cbn zeta. repeat split; vm_compute; reflexivity. Qed.
End SpacerFacts.

(* ===================================================================== *)
(** * The positioning loop of Frame::finalize_widgets() *)
(* ===================================================================== *)

(** [a <= b], read on the comparison the loop makes: [b < a] is false. *)
Definition fle {F : Type} `{FloatOps F} (a b : F) : Prop := (b <! a) = false.

(** The laws of order and addition of exact arithmetic that the positioning
    argument uses.  Rounding keeps them on finite values; NaN breaks the
    first. *)
Class ExactOrder (F : Type) `{FloatOps F} : Prop := {
  fle_refl : forall a, fle a a;
  fle_trans : forall a b c, fle a b -> fle b c -> fle a c;
  fadd_le_mono_r : forall a b c, fle a b -> fle (a +! c) (b +! c);
  fadd_nonneg : forall a c, fle f0 c -> fle a (a +! c);
  fadd_nonpos : forall a c, fle c f0 -> fle (a +! c) a;
  fopp_nonneg : forall p, fle f0 p -> fle (fopp p) f0;
}.

Lemma fle_Q (a b : Q) : fle a b <-> (a <= b)%Q.
Proof. unfold fle. cbn. apply Qltb_ge. Qed.

Lemma fle_Q_zero_l (a : Q) : fle f0 a <-> (0 <= a)%Q.
Proof. apply fle_Q. Qed.

Lemma fle_Q_zero_r (a : Q) : fle a f0 <-> (a <= 0)%Q.
Proof. apply fle_Q. Qed.

#[export] Instance exactQ_order : ExactOrder Q.
Proof.
  split.
  - intros a. apply fle_Q. lra.
  - intros a b c Hab Hbc. apply fle_Q in Hab, Hbc. apply fle_Q. lra.
  - intros a b c Hab. apply fle_Q in Hab. apply fle_Q. cbn.
    rewrite !Qred_correct. lra.
  - intros a c Hc. apply fle_Q_zero_l in Hc. apply fle_Q. cbn.
    rewrite !Qred_correct. lra.
  - intros a c Hc. apply fle_Q_zero_r in Hc. apply fle_Q. cbn.
    rewrite !Qred_correct. lra.
  - intros p Hp. apply fle_Q_zero_l in Hp. apply fle_Q_zero_r. cbn.
    rewrite !Qred_correct. lra.
Qed.

Module PlaceFacts.
Import Layout.
Section PlaceFacts.
Context {F : Type} `{FloatOps F} `{!ExactOrder F}.
Context {B : Type} `{FrameBorderOps F B}.
Abbreviation Widget := (Layout.Widget F B).

(** A border keeps its width when it is moved. *)
Hypothesis moving_keeps_width :
  forall x y (b : B), border_width (border_set_location x y b) = border_width b.

(** The right end of a line that starts at [from] and holds [ws]: the
    advances added from left to right. *)
Definition line_extent (padding from : F) (ws : list Widget) : F :=
  fold_left fadd (map (get_widget_advance padding) ws) from.

Definition placeable (w : Widget) : Prop :=
  is_line_seperator w = false /\ fle f0 (widget_width w).

Lemma widget_set_location_width x y (w : Widget) :
  widget_width (widget_set_location x y w) = widget_width w.
Proof.
  destruct w as [l | s | | [b p ws]]; cbn; try reflexivity.
  apply moving_keeps_width.
Qed.

Lemma widget_set_location_advance padding x y (w : Widget) :
  get_widget_advance padding (widget_set_location x y w)
  = get_widget_advance padding w.
Proof.
  unfold get_widget_advance. rewrite widget_set_location_width.
  now destruct w as [l | s | | [b p ws]].
Qed.

Lemma advance_nonneg padding (w : Widget) :
  fle f0 padding -> fle f0 (widget_width w) ->
  fle f0 (get_widget_advance padding w).
Proof.
  intros Hp Hw. unfold get_widget_advance.
  eapply fle_trans; [exact Hw |]. apply fadd_nonneg.
  destruct (_ || _); [apply fle_refl | exact Hp].
Qed.

Lemma line_extent_ge padding (ws : list Widget) :
  fle f0 padding -> Forall placeable ws ->
  forall from, fle from (line_extent padding from ws).
Proof.
  intros Hp. induction 1 as [| w ws [_ Hw] _ IH]; intros from.
  - apply fle_refl.
  - unfold line_extent. cbn [map fold_left].
    eapply fle_trans; [| apply IH].
    apply fadd_nonneg, advance_nonneg; assumption.
Qed.

(** While the line fits, a turn of the loop takes no new line, keeps [y]
    and places the widget at that [y]. *)
Lemma place_loop_fits start_x k_right_limit padding (ws : list Widget) :
  fle f0 padding -> Forall placeable ws ->
  forall (st : place_state F) (from : F),
    fle (pl_x st) from -> fle (pl_pad_fix st) f0 ->
    fle (line_extent padding from ws) k_right_limit ->
    let '(ws', st') := place_loop start_x k_right_limit padding st ws in
    pl_line st' = pl_line st /\ pl_y st' = pl_y st
    /\ Forall2 (fun w w' => exists x, w' = widget_set_location x (pl_y st) w) ws ws'.
Proof.
  intros Hp. induction 1 as [| w ws [Hsep Hw] Hws IH]; intros st from Hx Hfix Hfit.
  - cbn. repeat split. constructor.
  - cbn [place_loop]. unfold place_step. rewrite Hsep.
    unfold line_extent in Hfit. cbn [map fold_left] in Hfit.
    assert (Hcheck : fle (pl_x st +! get_widget_advance padding w) k_right_limit).
    { eapply fle_trans; [apply fadd_le_mono_r, Hx |].
      eapply fle_trans; [| exact Hfit].
      now apply line_extent_ge. }
    unfold fle in Hcheck. rewrite Hcheck.
    set (x := if is_horizontal_spacer w then pl_x st +! pl_pad_fix st else pl_x st).
    assert (Hx' : fle x (pl_x st)).
    { subst x. destruct (is_horizontal_spacer w);
        [now apply fadd_nonpos | apply fle_refl]. }
    rewrite widget_set_location_advance.
    specialize (IH (mkPlace (x +! get_widget_advance padding w) (pl_y st)
                      (fmax (widget_height (widget_set_location x (pl_y st) w))
                            (pl_line_height st))
                      (fopp padding) (pl_line st))
                   (from +! get_widget_advance padding w)).
    destruct (place_loop _ _ _ _ ws) as [ws' st'].
    destruct IH as (Hline & Hy & Hall).
    + cbn. apply fadd_le_mono_r. eapply fle_trans; eassumption.
    + cbn. now apply fopp_nonneg.
    + exact Hfit.
    + cbn in Hline, Hy, Hall. repeat split; try assumption.
      constructor; [now exists x | exact Hall].
Qed.

(** C4, amended.  In exact arithmetic, for a padding that is not negative
    and a widget list without line separators, of widths that are not
    negative, whose advances added from the start of the line do not pass the
    right limit: the positioning loop never starts a new line, and it places
    every widget at the [y] of [widget_start()] plus the padding. *)
Theorem place_widgets_single_line (fr : Frame F B) :
  let padding := m_padding fr in
  let start_x := vx (widget_start (m_border fr)) +! padding in
  let k_right_limit := vx (location fr) +! width fr in
  let y := vy (widget_start (m_border fr)) +! padding in
  fle f0 padding ->
  Forall placeable (m_widgets fr) ->
  fle (line_extent padding start_x (m_widgets fr)) k_right_limit ->
  pl_line (snd (place_run fr)) = 0
  /\ Forall2 (fun w w' => exists x, w' = widget_set_location x y w)
             (m_widgets fr) (m_widgets (place_widgets fr)).
Proof.
  intros padding start_x k_right_limit y Hp Hws Hfit.
  pose proof (place_loop_fits start_x k_right_limit padding (m_widgets fr)
                Hp Hws (place_start fr) start_x) as Hloop.
  unfold place_widgets, place_run. fold padding start_x k_right_limit.
  destruct (place_loop start_x k_right_limit padding (place_start fr)
                       (m_widgets fr)) as [ws' st'].
  destruct Hloop as (Hline & _ & Hall).
  - apply fle_refl.
  - apply fle_refl.
  - exact Hfit.
  - split; [exact Hline |]. destruct fr as [b p ws]. exact Hall.
Qed.
End PlaceFacts.

(** A frame at (10, 20), 200 by 100, with a margin of 4 and a title bar 16
    high: its widgets start at (14, 40). *)
Definition roomy_border : SampleBorder.t spec_float :=
  SampleBorder.mk (mkVectorF (b32 10 0) (b32 20 0)) (b32 200 0) (b32 100 0)
                  (b32 4 0) (b32 16 0) (b32 60 0).

Definition b32_leaf (w h : Z) : Layout.Widget spec_float (SampleBorder.t spec_float) :=
  Leaf (mkLeaf (mkVectorF (b32 0 0) (b32 0 0)) (b32 w 0) (b32 h 0)).

(** A frame at the origin, 16777222 wide, with a margin of 3 and no title
    bar: with the padding 0 its line runs from 3 to 16777222. *)
Definition vast_border : SampleBorder.t spec_float :=
  SampleBorder.mk (mkVectorF (b32 0 0) (b32 0 0)) (b32 16777222 0) (b32 100 0)
                  (b32 3 0) (b32 0 0) (b32 0 0).

(** Four ways the claim fails.
    (1) Two widgets of advance 35 in a frame whose line runs from 19 to 210
    stay on one line, and the loop puts them at [y = 45]: the top of the
    interior, 40, plus the padding 5.
    (2) Widgets of width 150, 100 and -120 in the same frame: the advances
    add up to 145, within the 191 from 19 to 210, but after the first two
    the line has passed the limit, and the second widget starts a second
    line.
    (3) In binary32, widgets of width 16777216 and 3 with the padding 0 on a
    line from 3 to 16777222: the advances add up to the budget, in exact
    numbers and in binary32, but the loop finds [3 + 16777216] to be 16777220
    and [16777220 + 3] to be 16777224, past the limit, and the second
    widget starts a second line.
    (4) In binary32, a widget of width 300 and one whose width is a NaN: no
    width compares below zero and the advances add up to a NaN, which does
    not compare above the limit, but the first widget alone passes it and
    starts a second line. *)
Lemma one_line_is_not_what_the_claim_says :
  (let fr := mkFrame roomy_border (b32 5 0) [b32_leaf 30 10; b32_leaf 30 10] in
   fle (line_extent (b32 5 0) (b32 19 0) (m_widgets fr)) (b32 210 0)
   /\ pl_line (snd (place_run fr)) = 0
   /\ map widget_location (m_widgets (place_widgets fr))
      = [Some (mkVectorF (b32 19 0) (b32 45 0));
         Some (mkVectorF (b32 54 0) (b32 45 0))]
   /\ vy (widget_start roomy_border) = b32 40 0
   /\ b32 45 0 <> b32 40 0)
  /\ (let fr := mkFrame roomy_border (b32 5 0)
                  [b32_leaf 150 10; b32_leaf 100 10; b32_leaf (-120) 10] in
      line_extent (b32 5 0) (b32 19 0) (m_widgets fr) = b32 164 0
      /\ fle (b32 164 0) (b32 210 0)
      /\ pl_line (snd (place_run fr)) = 1
      /\ map widget_location (m_widgets (place_widgets fr))
         = [Some (mkVectorF (b32 19 0) (b32 45 0));
            Some (mkVectorF (b32 19 0) (b32 60 0));
            Some (mkVectorF (b32 124 0) (b32 60 0))])
  /\ (let fr := mkFrame vast_border (b32 0 0)
                  [b32_leaf 16777216 10; b32_leaf 3 10] in
      vx (widget_start vast_border) +! m_padding fr = b32 3 0
      /\ vx (location fr) +! width fr = b32 16777222 0
      /\ (3 + (16777216 + 3) <= 16777222)%Z
      /\ fle (fold_left fadd (map (get_widget_advance (b32 0 0)) (m_widgets fr)) f0)
             (b32 16777222 0 -! b32 3 0)
      /\ pl_line (snd (place_run fr)) = 1
      /\ map widget_location (m_widgets (place_widgets fr))
         = [Some (mkVectorF (b32 3 0) (b32 3 0));
            Some (mkVectorF (b32 3 0) (b32 13 0))])
  /\ (let fr := mkFrame roomy_border (b32 5 0)
                  [b32_leaf 300 10;
                   Leaf (mkLeaf (mkVectorF (b32 0 0) (b32 0 0)) S754_nan (b32 10 0))] in
      Forall (fun w => is_line_seperator w = false /\ fle f0 (widget_width w))
             (m_widgets fr)
      /\ line_extent (b32 5 0) (b32 19 0) (m_widgets fr) = S754_nan
      /\ fle (S754_nan : spec_float) (b32 210 0)
      /\ pl_line (snd (place_run fr)) = 1).
Proof.
  cbn zeta. repeat split; try (vm_compute; reflexivity); try lia.
  - vm_compute. discriminate.
  - repeat constructor.
Qed.

Definition exact_border : SampleBorder.t Q :=
  SampleBorder.mk (mkVectorF 10%Q 20%Q) 200%Q 100%Q 4%Q 16%Q 60%Q.

Definition exact_widgets : list (Layout.Widget Q (SampleBorder.t Q)) :=
  [Leaf (mkLeaf (mkVectorF 0%Q 0%Q) 30%Q 10%Q);
   Spacer (mkSpacer (mkVectorF 0%Q 0%Q) 7%Q);
   Leaf (mkLeaf (mkVectorF 0%Q 0%Q) 30%Q 10%Q)].

(** In exact arithmetic: a widget, a spacer of width 7 and a widget, with
    padding 5, reach 96 from the start 19, within the right limit 210. *)
Lemma place_widgets_single_line_witness :
  let fr := mkFrame exact_border 5%Q exact_widgets in
  fle (line_extent 5%Q (14 + 5)%Q exact_widgets) (10 + 200)%Q
  /\ pl_line (snd (place_run fr)) = 0
  /\ Forall2 (fun w w' => exists x, w' = widget_set_location x (40 + 5)%Q w)
             exact_widgets (m_widgets (place_widgets fr)).
Proof.
  cbn zeta. split; [vm_compute; reflexivity |].
  refine (place_widgets_single_line (F := Q) (B := SampleBorder.t Q) _
            (mkFrame exact_border 5%Q exact_widgets) _ _ _).
  - reflexivity.
  - vm_compute. reflexivity.
  - repeat constructor.
  - vm_compute. reflexivity.
Defined.
End PlaceFacts.

(* ===================================================================== *)
(** * Running Frame::finalize_widgets() twice *)
(* ===================================================================== *)

(** What the argument asks of a border: the size and the location are what
    was set, setting what is already there changes nothing, updating the
    geometry keeps size and location and is done after one update; and the
    two title measures that enter the fit size, the title-bar allowance and
    the title accommodation, depend neither on the size nor on the location
    nor on the update. *)
Class FrameBorderLaws (F B : Type) `{FloatOps F} `{FrameBorderOps F B} : Prop := {
  width_set_size : forall w h (b : B), border_width (border_set_size w h b) = w;
  height_set_size : forall w h (b : B), border_height (border_set_size w h b) = h;
  location_set_size : forall w h (b : B),
      border_location (border_set_size w h b) = border_location b;
  set_size_same : forall b : B,
      border_set_size (border_width b) (border_height b) b = b;
  width_set_location : forall x y (b : B),
      border_width (border_set_location x y b) = border_width b;
  height_set_location : forall x y (b : B),
      border_height (border_set_location x y b) = border_height b;
  location_set_location : forall x y (b : B),
      border_location (border_set_location x y b) = mkVectorF x y;
  set_location_same : forall b : B,
      border_set_location (vx (border_location b)) (vy (border_location b)) b = b;
  width_update : forall b : B, border_width (update_geometry b) = border_width b;
  height_update : forall b : B, border_height (update_geometry b) = border_height b;
  location_update : forall b : B,
      border_location (update_geometry b) = border_location b;
  update_update : forall b : B,
      update_geometry (update_geometry b) = update_geometry b;
  allowance_set_size : forall w h (b : B),
      vy (widget_start (border_set_size w h b))
        -! vy (border_location (border_set_size w h b))
      = vy (widget_start b) -! vy (border_location b);
  allowance_set_location : forall x y (b : B),
      vy (widget_start (border_set_location x y b))
        -! vy (border_location (border_set_location x y b))
      = vy (widget_start b) -! vy (border_location b);
  allowance_update : forall b : B,
      vy (widget_start (update_geometry b))
        -! vy (border_location (update_geometry b))
      = vy (widget_start b) -! vy (border_location b);
  title_set_size : forall w h (b : B),
      title_width_accommodation (border_set_size w h b)
      = title_width_accommodation b;
  title_set_location : forall x y (b : B),
      title_width_accommodation (border_set_location x y b)
      = title_width_accommodation b;
  title_update : forall b : B,
      title_width_accommodation (update_geometry b) = title_width_accommodation b;
}.

Module FinalizeFacts.
Import Layout.
Section FinalizeFacts.
Context {F : Type} `{FloatOps F}.
Context {B : Type} `{FrameBorderOps F B} `{!FrameBorderLaws F B}.
Abbreviation Widget := (Layout.Widget F B).
Abbreviation Frame := (Layout.Frame F B).

(** Induction on a frame, with the property at hand for every frame the
    widget list holds. *)
Definition on_child (P : Frame -> Prop) (w : Widget) : Prop :=
  match w with
  | SubFrame child => P child
  | _ => True
  end.

Lemma Frame_nested_ind (P : Frame -> Prop) :
  (forall b p ws, Forall (on_child P) ws -> P (mkFrame b p ws)) ->
  forall fr, P fr.
Proof.
  intros Hstep.
  fix IH 1. intros [b p ws]. apply Hstep.
  induction ws as [| w ws IHws]; constructor; [| exact IHws].
  destruct w as [l | s | | child]; cbn; try exact I. apply IH.
Qed.

(** ** What the fit size reads of a widget tree *)

(** The part of a tree that [compute_size_to_fit] and the line breaks read:
    the kinds, the sizes of leaves and frames, the paddings and the two
    title measures.  Locations and spacer widths are not in it. *)
Inductive Sig : Type :=
| SLeaf (w h : F)
| SSpacer
| SLineSep
| SFrame (w h p allowance title : F) (children : list Sig).

Definition allowance (b : B) : F :=
  vy (widget_start b) -! vy (border_location b).

Fixpoint sig (fr : Frame) : Sig :=
  let '(mkFrame b p ws) := fr in
  SFrame (border_width b) (border_height b) p (allowance b)
         (title_width_accommodation b)
         (map (fun w =>
                 match w with
                 | Leaf l => SLeaf (leaf_width l) (leaf_height l)
                 | Spacer _ => SSpacer
                 | LineSep => SLineSep
                 | SubFrame child => sig child
                 end) ws).

Definition sigw (w : Widget) : Sig :=
  match w with
  | Leaf l => SLeaf (leaf_width l) (leaf_height l)
  | Spacer _ => SSpacer
  | LineSep => SLineSep
  | SubFrame child => sig child
  end.

Lemma sig_frame (b : B) (p : F) (ws : list Widget) :
  sig (mkFrame b p ws)
  = SFrame (border_width b) (border_height b) p (allowance b)
           (title_width_accommodation b) (map sigw ws).
Proof. reflexivity. Qed.

Lemma sigw_kind (w w' : Widget) :
  sigw w = sigw w' ->
  is_horizontal_spacer w = is_horizontal_spacer w'
  /\ is_line_seperator w = is_line_seperator w'
  /\ (is_horizontal_spacer w = false -> widget_width w = widget_width w')
  /\ widget_height w = widget_height w'
  /\ (match w with SubFrame _ => true | _ => false end
      = match w' with SubFrame _ => true | _ => false end).
Proof.
  destruct w as [l | s | | [b p ws]], w' as [l' | s' | | [b' p' ws']];
    cbn; intros Heq; try discriminate; repeat split;
    try (intros; discriminate); try (injection Heq; intros; now subst).
Qed.

Lemma sigw_advance (padding : F) (w w' : Widget) :
  sigw w = sigw w' -> is_horizontal_spacer w = false ->
  get_widget_advance padding w = get_widget_advance padding w'.
Proof.
  intros Heq Hsp. destruct (sigw_kind w w' Heq) as (Hs & Hl & Hw & _).
  unfold get_widget_advance. now rewrite <- Hs, <- Hl, (Hw Hsp).
Qed.

(** ** The fit size reads the signature only *)

Definition nested_fit (w : Widget) : VectorF F :=
  match w with
  | SubFrame child => compute_size_to_fit child
  | _ => mkVectorF f0 f0
  end.

Lemma compute_size_to_fit_unfold (b : B) (p : F) (ws : list Widget) :
  compute_size_to_fit (mkFrame b p ws)
  = fit_finish b p ws
      (fold_left (fun st w => fit_step p st w (nested_fit w)) ws
                 (mkFit f0 f0 f0 f0 f0)).
Proof. reflexivity. Qed.

Lemma fit_step_cong (p : F) (st : fit_state F) (w w' : Widget) :
  sigw w = sigw w' -> nested_fit w = nested_fit w' ->
  fit_step p st w (nested_fit w) = fit_step p st w' (nested_fit w').
Proof.
  intros Hsig Hfit.
  destruct (sigw_kind w w' Hsig) as (Hs & Hl & Hw & Hh & Hf).
  unfold fit_step. rewrite <- Hs, <- Hl.
  destruct (is_horizontal_spacer w) eqn:Hsp; [reflexivity |].
  destruct (is_line_seperator w); [reflexivity |].
  rewrite <- (sigw_advance p w w' Hsig Hsp), <- (Hw eq_refl), <- Hh, <- Hfit.
  now rewrite Hf.
Qed.

Lemma fit_fold_cong (p : F) (ws : list Widget) :
  Forall (on_child (fun c => forall c', sig c = sig c' ->
                                      compute_size_to_fit c = compute_size_to_fit c'))
         ws ->
  forall ws' st,
    map sigw ws = map sigw ws' ->
    fold_left (fun st w => fit_step p st w (nested_fit w)) ws st
    = fold_left (fun st w => fit_step p st w (nested_fit w)) ws' st.
Proof.
  induction 1 as [| w ws Hw _ IH]; intros [| w' ws'] st Hmap; try discriminate.
  - reflexivity.
  - cbn [map] in Hmap. injection Hmap as Hsig Hmap. cbn [fold_left].
    rewrite (fit_step_cong p st w w' Hsig).
    + now apply IH.
    + destruct w as [l | s | | c], w' as [l' | s' | | c']; try reflexivity;
        try (destruct c; discriminate Hsig); try (destruct c'; discriminate Hsig);
        try discriminate Hsig.
      cbn. now apply Hw.
Qed.

Lemma fit_finish_cong (b b' : B) (p : F) (ws ws' : list Widget) (st : fit_state F) :
  allowance b = allowance b' ->
  title_width_accommodation b = title_width_accommodation b' ->
  map sigw ws = map sigw ws' ->
  fit_finish b p ws st = fit_finish b' p ws' st.
Proof.
  intros Ha Ht Hmap. unfold fit_finish. unfold allowance in Ha.
  rewrite Ha, Ht.
  destruct ws, ws'; try discriminate; reflexivity.
Qed.

(** Frames of equal signature have equal fit sizes. *)
Lemma compute_size_to_fit_sig (fr : Frame) :
  forall fr', sig fr = sig fr' -> compute_size_to_fit fr = compute_size_to_fit fr'.
Proof.
  induction fr as [b p ws IH] using Frame_nested_ind.
  intros [b' p' ws'] Hsig. rewrite !sig_frame in Hsig.
  injection Hsig as _ _ <- Ha Ht Hmap.
  rewrite !compute_size_to_fit_unfold.
  rewrite (fit_fold_cong p ws IH ws' _ Hmap).
  now apply fit_finish_cong.
Qed.

(** The own size of a frame does not enter its fit size. *)
Lemma compute_size_to_fit_core (b b' : B) (p : F) (ws ws' : list Widget) :
  allowance b = allowance b' ->
  title_width_accommodation b = title_width_accommodation b' ->
  map sigw ws = map sigw ws' ->
  compute_size_to_fit (mkFrame b p ws) = compute_size_to_fit (mkFrame b' p ws').
Proof.
  intros Ha Ht Hmap. rewrite !compute_size_to_fit_unfold.
  rewrite (fit_fold_cong p ws) with (ws' := ws'); [| | exact Hmap].
  - now apply fit_finish_cong.
  - clear. induction ws as [| w ws IH]; constructor; [| exact IH].
    destruct w; cbn; try exact I. intros c'. apply compute_size_to_fit_sig.
Qed.

(** ** [issue_auto_resize] *)

Definition auto_resize_widget (w : Widget) : Widget :=
  match w with
  | SubFrame child => SubFrame (issue_auto_resize child)
  | _ => w
  end.

(** Lines 429-432, on a frame whose widgets have been resized. *)
Definition resize_self (fr1 : Frame) : Frame :=
  if (width fr1 ==! f0) || (height fr1 ==! f0)
  then set_size (vx (compute_size_to_fit fr1)) (vy (compute_size_to_fit fr1)) fr1
  else fr1.

Lemma issue_auto_resize_unfold (b : B) (p : F) (ws : list Widget) :
  issue_auto_resize (mkFrame b p ws)
  = resize_self (mkFrame b p (map auto_resize_widget ws)).
Proof. reflexivity. Qed.

Lemma resize_self_widgets (fr : Frame) :
  m_widgets (resize_self fr) = m_widgets fr /\ m_padding (resize_self fr) = m_padding fr.
Proof.
  unfold resize_self. destruct (_ || _); destruct fr; split; reflexivity.
Qed.

(** A frame that [resize_self] has seen is left alone by it. *)
Lemma resize_self_twice (fr : Frame) :
  resize_self (resize_self fr) = resize_self fr.
Proof.
  destruct fr as [b p ws].
  destruct ((width (mkFrame b p ws) ==! f0) || (height (mkFrame b p ws) ==! f0))
    eqn:Hzero.
  - set (fit := compute_size_to_fit (mkFrame b p ws)).
    assert (Hself : resize_self (mkFrame b p ws)
                    = mkFrame (border_set_size (vx fit) (vy fit) b) p ws).
    { unfold resize_self. now rewrite Hzero. }
    rewrite Hself. unfold resize_self, width, height. cbn [m_border].
    rewrite width_set_size, height_set_size.
    destruct ((vx fit ==! f0) || (vy fit ==! f0)); [| reflexivity].
    rewrite (compute_size_to_fit_core (border_set_size (vx fit) (vy fit) b) b p ws ws);
      [| apply allowance_set_size | apply title_set_size | reflexivity].
    fold fit. unfold set_size, with_border. cbn [m_border m_padding m_widgets].
    f_equal.
    rewrite <- (width_set_size (vx fit) (vy fit) b) at 1.
    rewrite <- (height_set_size (vx fit) (vy fit) b) at 2.
    apply set_size_same.
  - assert (Hself : resize_self (mkFrame b p ws) = mkFrame b p ws).
    { unfold resize_self. now rewrite Hzero. }
    now rewrite !Hself.
Qed.

Lemma issue_auto_resize_twice (fr : Frame) :
  issue_auto_resize (issue_auto_resize fr) = issue_auto_resize fr.
Proof.
  induction fr as [b p ws IH] using Frame_nested_ind.
  rewrite issue_auto_resize_unfold.
  set (fr1 := mkFrame b p (map auto_resize_widget ws)).
  destruct (resize_self_widgets fr1) as (Hws & Hp).
  destruct (resize_self fr1) as [b1 p1 ws1] eqn:Hself.
  cbn [m_widgets m_padding fr1] in Hws, Hp. subst ws1 p1.
  rewrite issue_auto_resize_unfold.
  assert (Hmap : map auto_resize_widget (map auto_resize_widget ws)
                 = map auto_resize_widget ws).
  { clear - IH. induction IH as [| w ws Hw _ IHws]; [reflexivity |].
    cbn [map]. rewrite IHws. f_equal.
    destruct w as [l | s | | c]; try reflexivity. cbn in *. now rewrite Hw. }
  rewrite Hmap, <- Hself. apply resize_self_twice.
Qed.

Lemma auto_resize_widget_twice (w : Widget) :
  auto_resize_widget (auto_resize_widget w) = auto_resize_widget w.
Proof.
  destruct w as [l | s | | c]; try reflexivity.
  cbn. now rewrite issue_auto_resize_twice.
Qed.

(** ** The passes keep the signature *)

Lemma sig_resize_self (fr fr' : Frame) :
  sig fr = sig fr' -> sig (resize_self fr) = sig (resize_self fr').
Proof.
  intros Hsig. pose proof (compute_size_to_fit_sig fr fr' Hsig) as Hfit.
  destruct fr as [b p ws], fr' as [b' p' ws'].
  rewrite !sig_frame in Hsig. injection Hsig as Hw Hh <- Ha Ht Hmap.
  unfold resize_self, width, height. cbn [m_border]. rewrite Hw, Hh, Hfit.
  destruct (_ || _); [| now rewrite !sig_frame, Hw, Hh, Ha, Ht, Hmap].
  unfold set_size, with_border. cbn [m_border m_padding m_widgets].
  rewrite !sig_frame, !width_set_size, !height_set_size, !title_set_size.
  unfold allowance in *. rewrite !allowance_set_size. now rewrite Ha, Ht, Hmap.
Qed.

Lemma sig_issue_auto_resize (fr : Frame) :
  forall fr', sig fr = sig fr' ->
              sig (issue_auto_resize fr) = sig (issue_auto_resize fr').
Proof.
  induction fr as [b p ws IH] using Frame_nested_ind.
  intros [b' p' ws'] Hsig. rewrite !issue_auto_resize_unfold.
  apply sig_resize_self. rewrite !sig_frame in *.
  injection Hsig as Hw Hh <- Ha Ht Hmap. rewrite Hw, Hh, Ha, Ht. f_equal.
  clear - IH Hmap. revert ws' Hmap.
  induction IH as [| w ws Hw _ IHws]; intros [| w' ws'] Hmap; try discriminate;
    [reflexivity |].
  cbn [map] in *. injection Hmap as Hsig Hmap. rewrite (IHws _ Hmap). f_equal.
  destruct w as [l | s | | c], w' as [l' | s' | | c']; try exact Hsig;
    try (destruct c; discriminate Hsig); try (destruct c'; discriminate Hsig).
  cbn in *. now apply Hw.
Qed.

Lemma sigw_set_location (x y : F) (w : Widget) :
  sigw (widget_set_location x y w) = sigw w.
Proof.
  destruct w as [l | s | | [b p ws]]; try reflexivity.
  cbn [widget_set_location sigw]. unfold set_location, with_border.
  cbn [m_border m_padding m_widgets]. rewrite !sig_frame.
  rewrite width_set_location, height_set_location, title_set_location.
  unfold allowance. now rewrite allowance_set_location.
Qed.

Lemma sigw_spacer_set_width (v : F) (w : Widget) :
  sigw (spacer_set_width v w) = sigw w.
Proof. now destruct w. Qed.

(** ** The spacer pass, position by position *)

Lemma uhs_run_pointwise (fr : Frame) (i : nat) :
  exists v, uhs_widgets (uhs_run fr) !! i
            = spacer_set_width v <$> m_widgets fr !! i.
Proof.
  destruct (SpacerFacts.uhs_run_inv fr) as (Hinv & Hchain).
  destruct (Nat.lt_ge_cases i (length (m_widgets fr))) as [Hlt | Hge].
  - destruct (SpacerFacts.chain_covers _ _ _ Hchain i) as (b & e & x & Hin & Hi);
      [lia |].
    eexists. exact (SpacerFacts.inv_done _ _ _ _ _ Hinv b e x i Hin Hi).
  - exists f0. rewrite (lookup_ge_None_2 (m_widgets fr)) by exact Hge.
    apply lookup_ge_None_2.
    rewrite (SpacerFacts.inv_length _ _ _ _ _ Hinv). exact Hge.
Qed.

Lemma uhs_run_length (fr : Frame) :
  length (uhs_widgets (uhs_run fr)) = length (m_widgets fr).
Proof.
  destruct (SpacerFacts.uhs_run_inv fr) as (Hinv & _).
  exact (SpacerFacts.inv_length _ _ _ _ _ Hinv).
Qed.

Lemma sigw_uhs_run (fr : Frame) :
  map sigw (uhs_widgets (uhs_run fr)) = map sigw (m_widgets fr).
Proof.
  apply list_eq. intros i. rewrite !list_lookup_fmap.
  destruct (uhs_run_pointwise fr i) as (v & ->).
  destruct (m_widgets fr !! i); cbn; [| reflexivity].
  now rewrite sigw_spacer_set_width.
Qed.

(** The locals of the spacer loop and its record of lines. *)
Definition uhs_core (st : uhs_state F B) : F * F * nat * list (nat * nat * F) :=
  (uhs_x st, uhs_pad_fix st, uhs_line_begin st, uhs_lines st).

(** On two lists of equal signature the loop takes the same turns. *)
Lemma uhs_step_core (k_horz_space padding : F) (ws0 ws0' : list Widget)
    (k : nat) (st st' : uhs_state F B) :
  map sigw ws0 = map sigw ws0' ->
  SpacerFacts.uhs_inv k_horz_space padding ws0 k st ->
  SpacerFacts.uhs_inv k_horz_space padding ws0' k st' ->
  uhs_core st = uhs_core st' ->
  uhs_core (uhs_step k_horz_space padding st k)
  = uhs_core (uhs_step k_horz_space padding st' k).
Proof.
  intros Hmap Hinv Hinv' Hcore. unfold uhs_core in Hcore.
  injection Hcore as Hx Hpad Hlb Hlines.
  unfold uhs_step.
  rewrite (SpacerFacts.inv_rest _ _ _ _ _ Hinv k (SpacerFacts.inv_begin _ _ _ _ _ Hinv)).
  rewrite (SpacerFacts.inv_rest _ _ _ _ _ Hinv' k (SpacerFacts.inv_begin _ _ _ _ _ Hinv')).
  assert (Hk : map sigw ws0 !! k = map sigw ws0' !! k) by now rewrite Hmap.
  rewrite !list_lookup_fmap in Hk.
  destruct (ws0 !! k) as [w |], (ws0' !! k) as [w' |]; try discriminate.
  2: { unfold uhs_core. now rewrite Hx, Hpad, Hlb, Hlines. }
  injection Hk as Hsig.
  destruct (sigw_kind w w' Hsig) as (Hs & Hl & _).
  rewrite <- Hs. destruct (is_horizontal_spacer w) eqn:Hsp.
  { unfold uhs_core. cbn. now rewrite Hx, Hpad, Hlb, Hlines. }
  rewrite <- (sigw_advance padding w w' Hsig Hsp), <- Hl, <- Hx.
  destruct (_ || _); unfold uhs_core; cbn; now rewrite Hlb, Hlines.
Qed.

Lemma uhs_loop_core (k_horz_space padding : F) (ws0 ws0' : list Widget) :
  map sigw ws0 = map sigw ws0' ->
  forall n k (st st' : uhs_state F B),
    SpacerFacts.uhs_inv k_horz_space padding ws0 k st ->
    SpacerFacts.uhs_inv k_horz_space padding ws0' k st' ->
    uhs_core st = uhs_core st' ->
    uhs_core (fold_left (uhs_step k_horz_space padding) (seq k n) st)
    = uhs_core (fold_left (uhs_step k_horz_space padding) (seq k n) st').
Proof.
  intros Hmap. induction n as [| n IH]; intros k st st' Hinv Hinv' Hcore.
  - exact Hcore.
  - cbn [seq fold_left]. apply IH.
    + now apply SpacerFacts.uhs_inv_step.
    + now apply SpacerFacts.uhs_inv_step.
    + now apply uhs_step_core with ws0 ws0'.
Qed.

Lemma map_sigw_length (ws ws' : list Widget) :
  map sigw ws = map sigw ws' -> length ws = length ws'.
Proof. intros Hmap. apply (f_equal length) in Hmap. now rewrite !length_map in Hmap. Qed.

(** Frames with the same interior width and padding and lists of equal
    signature are cut into the same lines. *)
Lemma uhs_lines_sig (b : B) (p : F) (ws ws' : list Widget) :
  map sigw ws = map sigw ws' ->
  uhs_lines (uhs_run (mkFrame b p ws)) = uhs_lines (uhs_run (mkFrame b p ws')).
Proof.
  intros Hmap. pose proof (map_sigw_length ws ws' Hmap) as Hlen.
  unfold uhs_run, uhs_loop. cbn [m_border m_padding m_widgets].
  set (W := width_available_for_widgets b).
  pose proof (SpacerFacts.uhs_inv_loop W p ws (length ws) 0 _
                (SpacerFacts.uhs_inv_start W p ws)) as Hinv.
  pose proof (SpacerFacts.uhs_inv_loop W p ws' (length ws') 0 _
                (SpacerFacts.uhs_inv_start W p ws')) as Hinv'.
  pose proof (uhs_loop_core W p ws ws' Hmap (length ws) 0 _ _
                (SpacerFacts.uhs_inv_start W p ws)
                (SpacerFacts.uhs_inv_start W p ws') eq_refl) as Hcore.
  rewrite <- Hlen in Hinv' |- *. cbn [Nat.add] in Hinv, Hinv'.
  set (st := fold_left _ _ (mkUhs f0 f0 0 ws [])) in *.
  set (st' := fold_left _ _ (mkUhs f0 f0 0 ws' [])) in *.
  unfold uhs_core in Hcore. injection Hcore as Hx Hpad Hlb Hlines.
  unfold uhs_finish.
  rewrite (SpacerFacts.inv_length _ _ _ _ _ Hinv),
          (SpacerFacts.inv_length _ _ _ _ _ Hinv'), <- Hlen, <- Hlb.
  destruct (Nat.eqb _ _); cbn [uhs_lines]; now rewrite Hlines, ?Hx.
Qed.

Lemma spacer_count_sig (ws ws' : list Widget) :
  map sigw ws = map sigw ws' ->
  length (filter (fun w => is_horizontal_spacer w = true) ws)
  = length (filter (fun w => is_horizontal_spacer w = true) ws').
Proof.
  revert ws'. induction ws as [| w ws IH]; intros [| w' ws'] Hmap;
    try discriminate; [reflexivity |].
  cbn [map] in Hmap. injection Hmap as Hsig Hmap.
  destruct (sigw_kind w w' Hsig) as (Hs & _).
  rewrite !filter_cons. rewrite <- Hs.
  destruct (is_horizontal_spacer w); repeat case_decide; try congruence;
    cbn [length]; now rewrite (IH ws' Hmap).
Qed.

Lemma horz_spacer_count_sig (beg end_ : nat) (ws ws' : list Widget) :
  map sigw ws = map sigw ws' ->
  horz_spacer_count beg end_ ws = horz_spacer_count beg end_ ws'.
Proof.
  intros Hmap. unfold horz_spacer_count, range. apply spacer_count_sig.
  change (map sigw ?l) with (sigw <$> l) in *.
  now rewrite !fmap_take, !fmap_drop, Hmap.
Qed.

(** The spacer pass changes nothing in a list that has the signature of the
    list [ws] and whose spacers already have the widths the pass gives the
    spacers of [ws]. *)
Lemma uhs_run_fixed (b : B) (p : F) (ws ws5 : list Widget) :
  map sigw ws5 = map sigw ws ->
  (forall i w3 w5,
      uhs_widgets (uhs_run (mkFrame b p ws)) !! i = Some w3 ->
      ws5 !! i = Some w5 -> is_horizontal_spacer w5 = true ->
      widget_width w5 = widget_width w3) ->
  uhs_widgets (uhs_run (mkFrame b p ws5)) = ws5.
Proof.
  intros Hmap Hwidth.
  pose proof (uhs_lines_sig b p ws5 ws Hmap) as Hlines.
  destruct (SpacerFacts.uhs_run_inv (mkFrame b p ws5)) as (Hinv5 & Hchain5).
  destruct (SpacerFacts.uhs_run_inv (mkFrame b p ws)) as (Hinv & _).
  cbn [m_border m_padding m_widgets] in *.
  apply list_eq. intros i.
  destruct (ws5 !! i) as [w5 |] eqn:H5.
  2: { apply lookup_ge_None_2.
       rewrite (SpacerFacts.inv_length _ _ _ _ _ Hinv5).
       now apply lookup_ge_None_1. }
  destruct (SpacerFacts.chain_covers _ _ _ Hchain5 i) as (lb & le & x & Hin & Hi).
  { split; [lia |]. eapply lookup_lt_Some, H5. }
  rewrite (SpacerFacts.inv_done _ _ _ _ _ Hinv5 lb le x i Hin Hi), H5. cbn.
  f_equal.
  destruct (is_horizontal_spacer w5) eqn:Hsp;
    [| now apply SpacerFacts.spacer_set_width_other].
  rewrite Hlines in Hin.
  pose proof (SpacerFacts.inv_done _ _ _ _ _ Hinv lb le x i Hin Hi) as H3.
  rewrite (horz_spacer_count_sig lb le ws5 ws Hmap).
  assert (Hk : map sigw ws5 !! i = map sigw ws !! i) by now rewrite Hmap.
  rewrite !list_lookup_fmap, H5 in Hk.
  destruct (ws !! i) as [w |] eqn:Hw; [| discriminate]. injection Hk as Hsig.
  cbn in H3.
  specialize (Hwidth i _ w5 H3 H5 Hsp).
  destruct (sigw_kind w5 w Hsig) as (Hs & _). rewrite Hsp in Hs.
  destruct w5 as [| [loc5 width5] | |]; try discriminate.
  destruct w as [| [loc width] | |]; try discriminate.
  cbn in Hwidth |- *. unfold set_width. cbn. now rewrite <- Hwidth.
Qed.

(** ** The positioning loop, widget by widget *)

Lemma widget_location_set_location (x y : F) (w : Widget) :
  is_line_seperator w = false ->
  widget_location (widget_set_location x y w) = Some (mkVectorF x y).
Proof.
  destruct w as [l | s | | [b p ws]]; cbn; try discriminate; try reflexivity.
  intros _. unfold location, set_location, with_border. cbn [m_border].
  now rewrite location_set_location.
Qed.

Lemma place_loop_shape start_x k_right_limit padding (ws : list Widget) :
  forall st,
    Forall2 (fun w w' => exists x y, w' = widget_set_location x y w)
            ws (fst (place_loop start_x k_right_limit padding st ws)).
Proof.
  induction ws as [| w ws IH]; intros st; [constructor |].
  cbn [place_loop].
  destruct (place_step start_x k_right_limit padding st w) as [placed st1] eqn:Hstep.
  specialize (IH st1).
  destruct (place_loop start_x k_right_limit padding st1 ws) as [rest st2].
  cbn [fst] in *. constructor; [| exact IH].
  unfold place_step in Hstep. destruct (is_line_seperator w) eqn:Hsep.
  - injection Hstep as <- _. destruct w; try discriminate. now exists f0, f0.
  - injection Hstep as <- _. eauto.
Qed.

Lemma is_line_seperator_set_location (x y : F) (w : Widget) :
  is_line_seperator (widget_set_location x y w) = is_line_seperator w.
Proof. now destruct w. Qed.

Lemma is_horizontal_spacer_set_location (x y : F) (w : Widget) :
  is_horizontal_spacer (widget_set_location x y w) = is_horizontal_spacer w.
Proof. now destruct w. Qed.

(** What the second run needs of the widget [w5] that stands where the
    first run left [w4]: the signature and the width of [w4], and to be at
    the location of [w4] already. *)
Definition settled (w4 w5 : Widget) : Prop :=
  sigw w5 = sigw w4
  /\ widget_width w5 = widget_width w4
  /\ forall loc, widget_location w4 = Some loc ->
                 widget_set_location (vx loc) (vy loc) w5 = w5.

Lemma settled_advance padding (w4 w5 : Widget) :
  settled w4 w5 -> get_widget_advance padding w5 = get_widget_advance padding w4.
Proof.
  intros (Hsig & Hwidth & _). destruct (sigw_kind w5 w4 Hsig) as (Hs & Hl & _).
  unfold get_widget_advance. now rewrite Hs, Hl, Hwidth.
Qed.

Lemma set_location_advance padding x y (w : Widget) :
  get_widget_advance padding (widget_set_location x y w)
  = get_widget_advance padding w.
Proof.
  apply PlaceFacts.widget_set_location_advance. apply width_set_location.
Qed.

(** The positioning loop run on widgets that are settled where an earlier
    run from the same locals left them moves nothing and ends with the same
    locals. *)
Lemma place_loop_fixed start_x k_right_limit padding (ws3 : list Widget) :
  forall st ws4 stf ws5,
    place_loop start_x k_right_limit padding st ws3 = (ws4, stf) ->
    Forall2 settled ws4 ws5 ->
    place_loop start_x k_right_limit padding st ws5 = (ws5, stf).
Proof.
  induction ws3 as [| w3 ws3 IH]; intros st ws4 stf ws5 Hrun Hset.
  - cbn in Hrun. injection Hrun as <- <-. inversion Hset. reflexivity.
  - cbn [place_loop] in Hrun.
    destruct (place_step start_x k_right_limit padding st w3) as [w4 st1] eqn:Hstep.
    destruct (place_loop start_x k_right_limit padding st1 ws3) as [rest4 st2] eqn:Hrest.
    injection Hrun as <- <-.
    inversion Hset as [| w4' w5 rest4' rest5 Hw Hrest5]; subst.
    cbn [place_loop].
    assert (Hstep5 : place_step start_x k_right_limit padding st w5 = (w5, st1)).
    { pose proof (settled_advance padding w4 w5 Hw) as Hadv.
      destruct Hw as (Hsig & Hwidth & Hloc).
      destruct (sigw_kind w5 w4 Hsig) as (Hs & Hl & _ & Hh & _).
      unfold place_step in Hstep |- *.
      destruct (is_line_seperator w3) eqn:Hsep3.
      - injection Hstep as <- <-. rewrite Hl, Hsep3.
        destruct w3; try discriminate. destruct w5; try discriminate.
        reflexivity.
      - set (st0 := if k_right_limit <! pl_x st +! get_widget_advance padding w3
                    then advance_locals_to_next_line start_x padding st else st) in *.
        set (x := if is_horizontal_spacer w3 then pl_x st0 +! pl_pad_fix st0
                  else pl_x st0) in *.
        injection Hstep as Hw4 Hst1.
        rewrite <- Hw4 in Hl, Hs, Hadv, Hh, Hloc.
        rewrite is_line_seperator_set_location in Hl.
        rewrite is_horizontal_spacer_set_location in Hs.
        rewrite widget_location_set_location in Hloc by exact Hsep3.
        specialize (Hloc _ eq_refl). cbn [vx vy] in Hloc.
        rewrite Hl, Hsep3, Hs.
        rewrite set_location_advance in Hadv. rewrite Hadv.
        fold st0. fold x. rewrite Hloc, Hadv, Hh.
        rewrite <- Hst1, Hw4. now rewrite <- Hw4, set_location_advance. }
    rewrite Hstep5, (IH st1 rest4 st2 rest5 Hrest Hrest5). reflexivity.
Qed.

(** ** One run, then a second *)

Definition finalize_child (fuel : nat) (w : Widget) : option Widget :=
  match w with
  | SubFrame frame_ptr =>
      match finalize_widgets fuel frame_ptr with
      | Some done => Some (SubFrame done)
      | None => None
      end
  | _ => Some w
  end.

Lemma finalize_widgets_unfold (fuel : nat) (fr : Frame) :
  finalize_widgets (S fuel) fr
  = let fr1 := issue_auto_resize fr in
    let fr2 := with_border (update_geometry (m_border fr1)) fr1 in
    let fr3 := update_horizontal_spacers fr2 in
    let fr4 := place_widgets fr3 in
    match mapM (finalize_child fuel) (m_widgets fr4) with
    | Some ws => Some (with_widgets ws fr4)
    | None => None
    end.
Proof. reflexivity. Qed.

(** What a run leaves: a frame with the signature and the location the
    auto-resize gave it, which the auto-resize, the geometry update and a
    further run leave as it is. *)
Record finalized (fuel : nat) (fr r : Frame) : Prop := {
  fin_sig : sig r = sig (issue_auto_resize fr);
  fin_location : location r = location fr;
  fin_resized : issue_auto_resize r = r;
  fin_again : finalize_widgets fuel r = Some r;
}.

Lemma set_location_here (r : Frame) (loc : VectorF F) :
  location r = loc -> set_location (vx loc) (vy loc) r = r.
Proof.
  intros <-. destruct r as [b p ws]. unfold set_location, with_border, location.
  cbn [m_border m_padding m_widgets]. now rewrite set_location_same.
Qed.

(** A widget of the list, followed through the passes of a run: [w1] after
    the auto-resize, [w3] after the spacer pass, [w4] after the positioning,
    [w5] after the run of the nested frames. *)
Lemma child_settled (fuel : nat) (w1 w3 w4 w5 : Widget) :
  (forall fr r, finalize_widgets fuel fr = Some r -> finalized fuel fr r) ->
  auto_resize_widget w1 = w1 ->
  (exists v, w3 = spacer_set_width v w1) ->
  (exists x y, w4 = widget_set_location x y w3) ->
  finalize_child fuel w4 = Some w5 ->
  sigw w5 = sigw w1
  /\ settled w4 w5
  /\ widget_width w5 = widget_width w3
  /\ auto_resize_widget w5 = w5
  /\ finalize_child fuel w5 = Some w5.
Proof.
  intros IH Hres (v & ->) (x & y & ->) Hfin.
  destruct w1 as [l | s | | c1]; cbn in Hfin.
  - injection Hfin as <-. repeat split; try (intros loc [= <-]; reflexivity).
  - injection Hfin as <-. repeat split; try (intros loc [= <-]; reflexivity).
  - injection Hfin as <-. repeat split; try (intros loc [=]).
  - destruct (finalize_widgets fuel (set_location x y c1)) as [r |] eqn:Hrun;
      [| discriminate].
    injection Hfin as <-.
    destruct (IH _ _ Hrun) as [Hsig Hloc Hresized Hagain].
    cbn in Hres. injection Hres as Hres.
    assert (Hsig4 : sig (set_location x y c1) = sig c1)
      by exact (sigw_set_location x y (SubFrame c1)).
    assert (Hsig5 : sig r = sig c1).
    { rewrite Hsig, (sig_issue_auto_resize _ _ Hsig4). now rewrite Hres. }
    assert (Hset : sigw (SubFrame r) = sigw (widget_set_location x y (SubFrame c1))).
    { cbn [sigw widget_set_location]. now rewrite Hsig5, Hsig4. }
    destruct (sigw_kind _ _ Hset) as (_ & _ & Hwidth & _).
    repeat split.
    + exact Hsig5.
    + exact Hset.
    + now apply Hwidth.
    + intros loc Hat. cbn in Hat. injection Hat as <-.
      cbn [widget_set_location]. f_equal. now apply set_location_here.
    + rewrite (Hwidth eq_refl). cbn [widget_set_location widget_width spacer_set_width].
      unfold width, set_location, with_border. cbn [m_border].
      apply width_set_location.
    + cbn. now rewrite Hresized.
    + cbn. now rewrite Hagain.
Qed.

Lemma resize_self_location (fr : Frame) :
  location (resize_self fr) = location fr.
Proof.
  unfold resize_self. destruct (_ || _); [| reflexivity].
  destruct fr as [b p ws]. unfold location, set_size, with_border.
  cbn [m_border]. apply location_set_size.
Qed.

(** A frame with the signature of a frame that [resize_self] leaves alone
    is left alone too. *)
Lemma resize_self_fixed (fr1 r : Frame) :
  resize_self fr1 = fr1 -> sig r = sig fr1 -> resize_self r = r.
Proof.
  intros Hfixed Hsig. pose proof (compute_size_to_fit_sig r fr1 Hsig) as Hfit.
  destruct r as [b p ws], fr1 as [b1 p1 ws1].
  rewrite !sig_frame in Hsig. injection Hsig as Hw Hh _ _ _ _.
  unfold resize_self, width, height in *. cbn [m_border] in *.
  rewrite Hw, Hh, Hfit.
  destruct ((border_width b1 ==! f0) || (border_height b1 ==! f0)); [| reflexivity].
  set (fit := compute_size_to_fit (mkFrame b1 p1 ws1)) in *.
  unfold set_size, with_border in *. cbn [m_border m_padding m_widgets] in *.
  injection Hfixed as Hb1.
  assert (Hfw : vx fit = border_width b) by
    (rewrite Hw, <- Hb1 at 1; now rewrite width_set_size).
  assert (Hfh : vy fit = border_height b) by
    (rewrite Hh, <- Hb1 at 1; now rewrite height_set_size).
  now rewrite Hfw, Hfh, set_size_same.
Qed.

Lemma place_start_border (b : B) (p : F) (ws ws' : list Widget) :
  place_start (mkFrame b p ws) = place_start (mkFrame b p ws').
Proof. reflexivity. Qed.

(** The passes of a run, written out on the members of the frame. *)
Lemma finalize_widgets_stages (fuel : nat) (b : B) (p : F) (ws : list Widget) :
  finalize_widgets (S fuel) (mkFrame b p ws)
  = let fr1 := resize_self (mkFrame b p (map auto_resize_widget ws)) in
    let b2 := update_geometry (m_border fr1) in
    let ws3 := uhs_widgets (uhs_run (mkFrame b2 (m_padding fr1) (m_widgets fr1))) in
    let placed :=
      place_loop (vx (widget_start b2) +! m_padding fr1)
                 (vx (border_location b2) +! border_width b2) (m_padding fr1)
                 (place_start (mkFrame b2 (m_padding fr1) ws3)) ws3 in
    match mapM (finalize_child fuel) (fst placed) with
    | Some ws5 => Some (mkFrame b2 (m_padding fr1) ws5)
    | None => None
    end.
Proof.
  rewrite finalize_widgets_unfold, issue_auto_resize_unfold. cbn zeta.
  destruct (resize_self _) as [b1 p1 ws1]. reflexivity.
Qed.

Lemma finalize_widgets_finalized (fuel : nat) :
  forall fr r, finalize_widgets fuel fr = Some r -> finalized fuel fr r.
Proof.
  induction fuel as [| fuel IH]; intros fr r Hrun; [discriminate |].
  destruct fr as [b p ws].
  pose proof (issue_auto_resize_unfold b p ws) as Hfirst.
  rewrite finalize_widgets_stages in Hrun. cbn zeta in Hrun.
  set (ws1 := map auto_resize_widget ws) in *.
  destruct (resize_self_widgets (mkFrame b p ws1)) as (Hws1 & Hp1).
  pose proof (resize_self_twice (mkFrame b p ws1)) as Htwice.
  pose proof (resize_self_location (mkFrame b p ws1)) as Hloc1.
  destruct (resize_self (mkFrame b p ws1)) as [b1 p1 ws1'] eqn:Hself.
  cbn [m_widgets m_padding m_border] in Hws1, Hp1, Hrun. subst ws1' p1.
  set (b2 := update_geometry b1) in *.
  set (ws3 := uhs_widgets (uhs_run (mkFrame b2 p ws1))) in *.
  destruct (place_loop (vx (widget_start b2) +! p)
                       (vx (border_location b2) +! border_width b2)
                       p (place_start (mkFrame b2 p ws3)) ws3)
    as [ws4 stf] eqn:Hplace.
  cbn [fst] in Hrun.
  destruct (mapM (finalize_child fuel) ws4) as [ws5 |] eqn:Hmap; [| discriminate].
  injection Hrun as <-.
  apply mapM_Some in Hmap.
  pose proof (place_loop_shape (vx (widget_start b2) +! p)
                (vx (border_location b2) +! border_width b2)
                p ws3 (place_start (mkFrame b2 p ws3))) as Hshape.
  rewrite Hplace in Hshape. cbn [fst] in Hshape.
  assert (Hlen3 : length ws3 = length ws1) by apply (uhs_run_length (mkFrame b2 p ws1)).
  pose proof (Forall2_length _ _ _ Hshape) as Hlen4.
  pose proof (Forall2_length _ _ _ Hmap) as Hlen5.
  (* every widget, followed through the passes *)
  assert (Helem : forall i w5,
             ws5 !! i = Some w5 ->
             exists w1 w3 w4,
               ws1 !! i = Some w1 /\ ws3 !! i = Some w3 /\ ws4 !! i = Some w4
               /\ sigw w5 = sigw w1 /\ settled w4 w5
               /\ widget_width w5 = widget_width w3
               /\ auto_resize_widget w5 = w5
               /\ finalize_child fuel w5 = Some w5).
  { intros i w5 H5.
    destruct (Forall2_lookup_r _ _ _ _ _ Hmap H5) as (w4 & H4 & Hfin).
    destruct (Forall2_lookup_r _ _ _ _ _ Hshape H4) as (w3 & H3 & Hplaced).
    destruct (uhs_run_pointwise (mkFrame b2 p ws1) i) as (v & Hv).
    fold ws3 in Hv. cbn [m_widgets] in Hv. rewrite H3 in Hv.
    destruct (ws1 !! i) as [w1 |] eqn:H1; [| discriminate].
    injection Hv as Hv.
    assert (Hres : auto_resize_widget w1 = w1).
    { subst ws1. rewrite list_lookup_fmap in H1.
      destruct (ws !! i) as [w0 |]; [| discriminate]. injection H1 as <-.
      apply auto_resize_widget_twice. }
    exists w1, w3, w4. repeat (split; [reflexivity || assumption |]).
    apply (child_settled fuel w1 w3 w4 w5 IH Hres); eauto. }
  assert (Hsig5 : map sigw ws5 = map sigw ws1).
  { apply list_eq. intros i. rewrite !list_lookup_fmap.
    destruct (ws5 !! i) as [w5 |] eqn:H5.
    - destruct (Helem i w5 H5) as (w1 & w3 & w4 & H1 & _ & _ & Hsig & _).
      rewrite H1. cbn. now rewrite Hsig.
    - rewrite (lookup_ge_None_2 ws1); [reflexivity |].
      apply lookup_ge_None_1 in H5. lia. }
  assert (Hres5 : map auto_resize_widget ws5 = ws5).
  { apply list_eq. intros i. rewrite list_lookup_fmap.
    destruct (ws5 !! i) as [w5 |] eqn:H5; [| reflexivity].
    destruct (Helem i w5 H5) as (_ & _ & _ & _ & _ & _ & _ & _ & _ & Hres & _).
    cbn. now rewrite Hres. }
  assert (Hfixed1 : resize_self (mkFrame b1 p ws1) = mkFrame b1 p ws1)
    by exact Htwice.
  assert (Hsigr : sig (mkFrame b2 p ws5) = sig (mkFrame b1 p ws1)).
  { rewrite !sig_frame. subst b2.
    rewrite width_update, height_update, title_update. unfold allowance.
    now rewrite allowance_update, Hsig5. }
  assert (Hresized : issue_auto_resize (mkFrame b2 p ws5) = mkFrame b2 p ws5).
  { rewrite issue_auto_resize_unfold, Hres5.
    now apply resize_self_fixed with (mkFrame b1 p ws1). }
  split.
  - now rewrite Hfirst.
  - unfold location in *. cbn [m_border] in *. subst b2.
    now rewrite location_update.
  - exact Hresized.
  - rewrite finalize_widgets_stages. cbn zeta.
    rewrite Hres5.
    assert (Hself5 : resize_self (mkFrame b2 p ws5) = mkFrame b2 p ws5)
      by now apply resize_self_fixed with (mkFrame b1 p ws1).
    rewrite Hself5. cbn [m_border m_padding m_widgets].
    assert (Hupd : update_geometry b2 = b2) by (subst b2; apply update_update).
    rewrite Hupd.
    assert (Huhs : uhs_widgets (uhs_run (mkFrame b2 p ws5)) = ws5).
    { apply uhs_run_fixed with ws1; [exact Hsig5 |].
      intros i w3 w5 H3 H5 _. fold ws3 in H3.
      destruct (Helem i w5 H5) as (_ & w3' & _ & _ & H3' & _ & _ & _ & Hwidth & _).
      congruence. }
    rewrite Huhs.
    assert (Hfix : place_loop (vx (widget_start b2) +! p)
                     (vx (border_location b2) +! border_width b2)
                     p (place_start (mkFrame b2 p ws5)) ws5 = (ws5, stf)).
    { apply place_loop_fixed with ws3 ws4; [exact Hplace |].
      apply Forall2_same_length_lookup_2; [lia |].
      intros i w4 w5 H4 H5.
      destruct (Helem i w5 H5) as (_ & _ & w4' & _ & _ & H4' & _ & Hset & _).
      congruence. }
    rewrite Hfix. cbn [fst].
    assert (Hagain : mapM (finalize_child fuel) ws5 = Some ws5).
    { apply mapM_Some_2, Forall_Forall2_diag, Forall_lookup_2.
      intros i w5 H5.
      now destruct (Helem i w5 H5) as (_ & _ & _ & _ & _ & _ & _ & _ & _ & _ & Hfin). }
    now rewrite Hagain.
Qed.

(** ** A run on a tree no deeper than the fuel returns *)

Definition widget_depth (w : Widget) : nat :=
  match w with
  | SubFrame child => depth child
  | _ => 0
  end.

Lemma depth_frame (b : B) (p : F) (ws : list Widget) :
  depth (mkFrame b p ws) = S (list_max (map widget_depth ws)).
Proof. reflexivity. Qed.

Lemma depth_resize_self (fr : Frame) : depth (resize_self fr) = depth fr.
Proof.
  unfold resize_self. destruct (_ || _); [| reflexivity]. now destruct fr.
Qed.

Lemma depth_issue_auto_resize (fr : Frame) : depth (issue_auto_resize fr) = depth fr.
Proof.
  induction fr as [b p ws IH] using Frame_nested_ind.
  rewrite issue_auto_resize_unfold, depth_resize_self, !depth_frame.
  do 2 f_equal. rewrite map_map.
  induction IH as [| w ws Hw _ IHws]; [reflexivity |].
  cbn [map]. rewrite IHws. f_equal.
  destruct w as [l | s | | c]; try reflexivity. exact Hw.
Qed.

Lemma widget_depth_set_location (x y : F) (w : Widget) :
  widget_depth (widget_set_location x y w) = widget_depth w.
Proof. destruct w as [l | s | | [b p ws]]; reflexivity. Qed.

Lemma widget_depth_spacer_set_width (v : F) (w : Widget) :
  widget_depth (spacer_set_width v w) = widget_depth w.
Proof. now destruct w. Qed.

Lemma widget_depth_auto_resize (w : Widget) :
  widget_depth (auto_resize_widget w) = widget_depth w.
Proof.
  destruct w as [l | s | | c]; try reflexivity. apply depth_issue_auto_resize.
Qed.

Lemma finalize_widgets_returns (fuel : nat) :
  forall fr, depth fr <= fuel -> is_Some (finalize_widgets fuel fr).
Proof.
  induction fuel as [| fuel IH]; intros [b p ws] Hdepth.
  { rewrite depth_frame in Hdepth. lia. }
  rewrite finalize_widgets_stages. cbn zeta.
  set (ws1 := map auto_resize_widget ws).
  destruct (resize_self_widgets (mkFrame b p ws1)) as (Hws1 & Hp1).
  destruct (resize_self (mkFrame b p ws1)) as [b1 p1 ws1'].
  cbn [m_widgets m_padding m_border] in *. subst ws1' p1.
  set (b2 := update_geometry b1).
  set (ws3 := uhs_widgets (uhs_run (mkFrame b2 p ws1))).
  pose proof (place_loop_shape (vx (widget_start b2) +! p)
                (vx (border_location b2) +! border_width b2)
                p ws3 (place_start (mkFrame b2 p ws3))) as Hshape.
  destruct (place_loop _ _ _ _ ws3) as [ws4 stf]. cbn [fst] in *.
  assert (Hall : Forall (fun w4 => widget_depth w4 <= fuel) ws4).
  { apply Forall_lookup_2. intros i w4 H4.
    destruct (Forall2_lookup_r _ _ _ _ _ Hshape H4) as (w3 & H3 & x & y & ->).
    destruct (uhs_run_pointwise (mkFrame b2 p ws1) i) as (v & Hv).
    fold ws3 in Hv. cbn [m_widgets] in Hv. rewrite H3 in Hv.
    destruct (ws1 !! i) as [w1 |] eqn:H1; [| discriminate].
    injection Hv as ->. subst ws1. rewrite list_lookup_fmap in H1.
    destruct (ws !! i) as [w0 |] eqn:Hw0; [| discriminate]. injection H1 as <-.
    rewrite widget_depth_set_location, widget_depth_spacer_set_width,
      widget_depth_auto_resize.
    rewrite depth_frame in Hdepth.
    assert (Hle : widget_depth w0 <= list_max (map widget_depth ws)).
    { pose proof (proj1 (list_max_le (map widget_depth ws) _) (le_n _)) as Hmax.
      rewrite List.Forall_forall in Hmax. apply Hmax.
      apply in_map, list_elem_of_In, list_elem_of_lookup. eauto. }
    lia. }
  destruct (mapM_is_Some_2 (finalize_child fuel) ws4) as [ws5 ->]; [| eauto].
  eapply Forall_impl; [exact Hall |].
  intros [l | s | | c] Hw; cbn; try (eexists; reflexivity).
  destruct (IH c Hw) as [r ->]. eexists; reflexivity.
Qed.

(** C5, amended.  In an arithmetic in which the border obeys the laws of
    [FrameBorderLaws], as it does in exact arithmetic, and for leaf widgets
    that keep their size: the private [Frame::finalize_widgets()]
    run on a tree of widgets returns, and run again on the frame it has
    left, it leaves that frame as it is: the border with the frame's own
    size, and every widget below with its location and its size, nested
    frames and spacer widths included. *)
Theorem finalize_widgets_twice (fuel : nat) (fr : Frame) :
  depth fr <= fuel ->
  exists r, finalize_widgets fuel fr = Some r
            /\ finalize_widgets fuel r = Some r.
Proof.
  intros Hdepth. destruct (finalize_widgets_returns fuel fr Hdepth) as [r Hrun].
  exists r. split; [exact Hrun |].
  exact (fin_again _ _ _ (finalize_widgets_finalized fuel fr r Hrun)).
Qed.
End FinalizeFacts.

(** The sample border obeys the laws in exact arithmetic. *)
#[export] Instance sample_border_laws : FrameBorderLaws Q (SampleBorder.t Q).
Proof.
  split; try reflexivity.
  - now intros [loc w h m th tw].
  - now intros [[x y] w h m th tw].
  - intros x y [[x0 y0] w h m th tw]. cbn.
    apply Qred_complete. rewrite !Qred_correct. ring.
Qed.

(** A frame to be sized to fit, with a title; it holds a widget, a nested
    frame to be sized to fit, a spacer, a line separator, a spacer and a
    widget too wide for the rest of its line.  The nested frame holds two
    widgets around a spacer. *)
Definition exact_leaf (w h : Z) : Layout.Widget Q (SampleBorder.t Q) :=
  Leaf (mkLeaf (mkVectorF 0%Q 0%Q) (inject_Z w) (inject_Z h)).

Definition exact_spacer : Layout.Widget Q (SampleBorder.t Q) :=
  Spacer (mkSpacer (mkVectorF 0%Q 0%Q) 0%Q).

Definition inner_frame : Layout.Frame Q (SampleBorder.t Q) :=
  mkFrame (SampleBorder.mk (mkVectorF 0%Q 0%Q) 0%Q 0%Q 2%Q 10%Q 30%Q) 3%Q
          [exact_leaf 20 10; exact_spacer; exact_leaf 25 12].

Definition outer_frame : Layout.Frame Q (SampleBorder.t Q) :=
  mkFrame (SampleBorder.mk (mkVectorF 5%Q 5%Q) 120%Q 0%Q 4%Q 16%Q 60%Q) 5%Q
          [exact_leaf 30 10; SubFrame inner_frame; exact_spacer; LineSep;
           exact_spacer; exact_leaf 200 10].

(** In binary32 the title-bar allowance of the sample border, the [y] of
    [widget_start()] less the [y] of the location, depends on where the
    border is.  A frame with the padding 0.3f and a title bar 0.5 high holds
    an empty frame with a title bar 0.5 high and no width, a line separator
    and a widget.  The first run sizes the empty frame at the origin, 0.5
    high, puts the widget below it at [y = 13421773 * 2^-23], and the
    finalize of the empty frame then sizes it again where it now is, a unit
    in the last place less high.  The second run puts the widget at
    [y = 13421772 * 2^-23]. *)
Definition titled (title_height : spec_float) : SampleBorder.t spec_float :=
  SampleBorder.mk (mkVectorF (b32 0 0) (b32 0 0)) (b32 0 0) (b32 0 0)
                  (b32 0 0) title_height (b32 0 0).

Definition rounding_frame : Layout.Frame spec_float (SampleBorder.t spec_float) :=
  mkFrame (titled (b32 1 (-1))) (b32 10066330 (-25))
    [SubFrame (mkFrame (titled (b32 1 (-1))) (b32 0 0) []);
     LineSep;
     Leaf (mkLeaf (mkVectorF (b32 0 0) (b32 0 0)) (b32 10 0) (b32 10 0))].

Definition place_of_the_third
    (run : option (Layout.Frame spec_float (SampleBorder.t spec_float)))
    : option (VectorF spec_float) :=
  match run with
  | Some r => match m_widgets r !! 2 with
              | Some w => widget_location w
              | None => None
              end
  | None => None
  end.

Lemma second_run_moves_a_widget :
  let first := finalize_widgets 2 rounding_frame in
  let second := match first with
                | Some r => finalize_widgets 2 r
                | None => None
                end in
  depth rounding_frame = 2
  /\ place_of_the_third first
     = Some (mkVectorF (b32 10066330 (-25)) (b32 13421773 (-23)))
  /\ place_of_the_third second
     = Some (mkVectorF (b32 10066330 (-25)) (b32 13421772 (-23)))
  /\ first <> second.
Proof.
  cbn zeta. repeat split; try (vm_compute; reflexivity).
  vm_compute. discriminate.
Qed.

Lemma finalize_widgets_twice_witness :
  depth outer_frame <= 2
  /\ exists r, finalize_widgets 2 outer_frame = Some r
               /\ finalize_widgets 2 r = Some r.
Proof.
  assert (Hdepth : depth outer_frame <= 2) by (vm_compute; lia).
  split; [exact Hdepth |].
  exact (finalize_widgets_twice 2 outer_frame Hdepth).
Defined.
End FinalizeFacts.

(* ===================================================================== *)
(** * WidgetAdder: the widget list a chain of calls builds *)
(* ===================================================================== *)

Module BuilderFacts.
Import Adder.
Section BuilderFacts.
Context {HorizontalSpacer StyleMap : Type}.
Variable L : layout.
Variable new_spacer : HorizontalSpacer.
Variable grow : nat -> nat.
Hypothesis grow_grows : forall c, c < grow c.

  (** The entry each call appends, spacer entries being numbered from [k]
      in the block [blk]. *)
Fixpoint entries (blk : nat) (sep : option addr) (k : nat) (calls : list call)
      : list ptr :=
    match calls with
    | [] => []
    | call_add widget :: rest => widget_at widget :: entries blk sep k rest
    | call_add_horizontal_spacer :: rest =>
        spacer_at blk k :: entries blk sep (S k) rest
    | call_add_line_seperator :: rest => sep_ptr sep :: entries blk sep k rest
    end.

Fixpoint spacer_calls (calls : list call) : nat :=
    match calls with
    | [] => 0
    | call_add_horizontal_spacer :: rest => S (spacer_calls rest)
    | _ :: rest => spacer_calls rest
    end.

Lemma entries_repoint (b blk : nat) (sep : option addr) (calls : list call) :
    forall k, map (AdderFacts.repoint b) (entries blk sep k calls)
              = entries b sep k calls.
Proof.
    induction calls as [| c calls IH]; intros k; [reflexivity |].
    destruct c; cbn [entries map AdderFacts.repoint]; rewrite IH;
      try reflexivity.
    now destruct sep.
Qed.

Lemma entries_app (blk : nat) (sep : option addr) (calls1 calls2 : list call) :
    forall k, entries blk sep k (calls1 ++ calls2)
              = entries blk sep k calls1
                ++ entries blk sep (k + spacer_calls calls1) calls2.
Proof.
    induction calls1 as [| c calls1 IH]; intros k.
    - cbn. now rewrite Nat.add_0_r.
    - destruct c; cbn [app entries spacer_calls]; rewrite IH; try reflexivity.
      now rewrite Nat.add_succ_r.
Qed.

Lemma spacer_calls_app (calls1 calls2 : list call) :
    spacer_calls (calls1 ++ calls2) = spacer_calls calls1 + spacer_calls calls2.
Proof.
    induction calls1 as [| c calls1 IH]; [reflexivity |].
    destruct c; cbn [app spacer_calls]; rewrite IH; reflexivity.
Qed.

Lemma length_entries (blk : nat) (sep : option addr) (calls : list call) :
    forall k, length (entries blk sep k calls) = length calls.
Proof.
    induction calls as [| c calls IH]; intros k; [reflexivity |].
    destruct c; cbn [entries length]; now rewrite IH.
Qed.

  (** What a chain of calls has built, as an invariant of the chain. *)
Record built (a0 a : Adder.t HorizontalSpacer StyleMap) (calls : list call)
      : Prop := {
    built_widgets :
      m_widgets a
      = entries (Vector.block (m_horz_spacers a)) (m_the_line_sep a0) 0 calls;
    built_spacers :
      Vector.data (m_horz_spacers a) = replicate (spacer_calls calls) new_spacer;
    built_sep : m_the_line_sep a = m_the_line_sep a0;
    built_styles : m_styles a = m_styles a0;
    built_parent : m_parent a = m_parent a0;
    built_well_formed : AdderFacts.well_formed L a;
  }.

Lemma adder_run_snoc (calls : list call) (c : call)
      (st : Adder.t HorizontalSpacer StyleMap * nat) :
    Adder.run L new_spacer grow (calls ++ [c]) st
    = run_call L new_spacer grow c (Adder.run L new_spacer grow calls st).
Proof. unfold Adder.run. now rewrite fold_left_app. Qed.

Lemma run_built (calls : list call) (a0 : Adder.t HorizontalSpacer StyleMap)
      (next0 : nat) :
    AdderFacts.calls_apart L calls ->
    AdderFacts.apart L (sep_ptr (m_the_line_sep a0)) ->
    m_widgets a0 = [] -> m_horz_spacers a0 = Vector.empty ->
    built a0 (fst (Adder.run L new_spacer grow calls (a0, next0))) calls.
Proof.
    intros Hcalls Hsep0 Hw Hs.
    induction calls as [| c calls IH] using rev_ind.
    - cbn. split; try reflexivity.
      + now rewrite Hw.
      + now rewrite Hs.
      + now apply AdderFacts.fresh_well_formed.
    - apply Forall_app in Hcalls as [Hcalls Hc].
      apply Forall_inv in Hc. specialize (IH Hcalls).
      rewrite adder_run_snoc.
      destruct (Adder.run L new_spacer grow calls (a0, next0)) as [a next].
      cbn [fst] in IH. destruct IH as [Hws Hsp Hsep Hsty Hpar Hwf].
      destruct c as [widget | |]; cbn [run_call fst snd].
      + split; cbn [add with_widgets m_widgets m_horz_spacers m_the_line_sep
                    m_styles m_parent]; try assumption.
        * rewrite entries_app, Hws. cbn [entries]. reflexivity.
        * rewrite spacer_calls_app. cbn [spacer_calls]. now rewrite Nat.add_0_r.
        * now apply AdderFacts.add_well_formed.
      + pose proof (AdderFacts.add_horizontal_spacer_step L new_spacer grow
                      grow_grows a next Hwf) as Hstep.
        cbn zeta in Hstep.
        destruct Hstep as (Hwf' & Hdata & Hws' & _ & Hsep' & Hsty' & Hpar').
        split; try congruence.
        * rewrite Hws', Hws, entries_repoint, entries_app. cbn [entries].
          unfold Vector.size. rewrite Hsp, length_replicate. reflexivity.
        * rewrite Hdata, Hsp, spacer_calls_app. cbn [spacer_calls].
          now rewrite replicate_add.
      + split; cbn [add_line_seperator with_widgets m_widgets m_horz_spacers
                    m_the_line_sep m_styles m_parent]; try assumption.
        * rewrite entries_app, Hws, Hsep. cbn [entries]. reflexivity.
        * rewrite spacer_calls_app. cbn [spacer_calls]. now rewrite Nat.add_0_r.
        * apply AdderFacts.add_line_seperator_well_formed; [| exact Hwf].
          now rewrite Hsep.
Qed.

  (** X1.  Where no widget added and not the line separator lies at a slot
      of a storage block (one past the end of a full block is the slot a
      widget can lie at), the widget list of an adder is the record of its
      calls: one entry per call, in call order; the entry of the k-th
      [add_horizontal_spacer] is the address of the k-th element of the
      spacer storage as it is at the end, and the storage holds one
      default-constructed spacer per such call.  The target frame, the style
      map and the line separator are those the adder was made with. *)
Theorem run_lists_calls_in_order (calls : list call)
      (a0 : Adder.t HorizontalSpacer StyleMap) (next0 : nat) :
    AdderFacts.calls_apart L calls ->
    AdderFacts.apart L (sep_ptr (m_the_line_sep a0)) ->
    m_widgets a0 = [] -> m_horz_spacers a0 = Vector.empty ->
    let a := fst (Adder.run L new_spacer grow calls (a0, next0)) in
    m_widgets a
    = entries (Vector.block (m_horz_spacers a)) (m_the_line_sep a0) 0 calls
    /\ length (m_widgets a) = length calls
    /\ Vector.data (m_horz_spacers a) = replicate (spacer_calls calls) new_spacer
    /\ m_parent a = m_parent a0
    /\ m_styles a = m_styles a0
    /\ m_the_line_sep a = m_the_line_sep a0.
Proof.
    intros Hcalls Hsep0 Hw Hs a.
    destruct (run_built calls a0 next0 Hcalls Hsep0 Hw Hs)
      as [Hws Hsp Hsep Hsty Hpar _].
    fold a in Hws, Hsp, Hsep, Hsty, Hpar.
    repeat split; try assumption.
    rewrite Hws. apply length_entries.
Qed.

  (** X2.  Where no widget added and not the line separator lies at a slot
      of a storage block, the [assert] of line 112 holds in every adder the
      three calls can build: the revalidation loop of
      [add_horizontal_spacer], started at the first element of a new block,
      ends with [new_itr] one past the last copied element, having repointed
      every spacer entry and no other. *)
Theorem revalidation_stops_at_the_end (calls : list call)
      (a0 : Adder.t HorizontalSpacer StyleMap) (next0 : nat) :
    AdderFacts.calls_apart L calls ->
    AdderFacts.apart L (sep_ptr (m_the_line_sep a0)) ->
    m_widgets a0 = [] -> m_horz_spacers a0 = Vector.empty ->
    let st := Adder.run L new_spacer grow calls (a0, next0) in
    let a := fst st in
    let sp := m_horz_spacers a in
    (forall new_block,
        revalidate L (m_widgets a) (spacer_at new_block 0) (Vector.address_of sp 0)
        = (entries new_block (m_the_line_sep a0) 0 calls,
           spacer_at new_block (Vector.size sp)))
    /\ assert_new_itr_at_end L a (snd st) = true.
Proof.
    intros Hcalls Hsep0 Hw Hs st a sp.
    destruct (run_built calls a0 next0 Hcalls Hsep0 Hw Hs)
      as [Hws _ _ _ _ (Hord & _ & Hapart)].
    fold st a in Hws, Hord, Hapart.
    apply AdderFacts.spacers_in_order_alt in Hord.
    assert (Hloop : forall new_block,
               revalidate L (m_widgets a) (spacer_at new_block 0)
                          (Vector.address_of sp 0)
               = (entries new_block (m_the_line_sep a0) 0 calls,
                  spacer_at new_block (Vector.size sp))).
    { intros new_block. subst sp. unfold Vector.address_of.
      rewrite (AdderFacts.revalidate_in_order L _ new_block _ Hapart 0 _ Hord).
      rewrite Hws at 1. now rewrite entries_repoint. }
    split; [exact Hloop |].
    unfold assert_new_itr_at_end. fold sp.
    destruct (_ && _); [| reflexivity].
    unfold Vector.reserve, Vector.empty.
    cbn [Vector.capacity Vector.block Vector.data Nat.leb Nat.add].
    unfold Vector.address_of at 1 3. cbn [Vector.block].
    fold (Vector.address_of sp 0). rewrite Hloop. cbn [snd].
    unfold Vector.address_of, Vector.size. cbn [Vector.block Vector.data].
    unfold ptr_eqb. apply Z.eqb_refl.
Qed.

  (** One call of [add_horizontal_spacer], by sizes: a block is allocated
      exactly when the storage is full, by [push_back] for the first spacer
      and by the call's own [reserve] afterwards. *)
Lemma add_horizontal_spacer_sizes (a : Adder.t HorizontalSpacer StyleMap)
      (next : nat) :
    let sp := m_horz_spacers a in
    let st' := Adder.add_horizontal_spacer L new_spacer grow a next in
    let sp' := m_horz_spacers (fst st') in
    Vector.size sp <= Vector.capacity sp ->
    Vector.data sp' = Vector.data sp ++ [new_spacer]
    /\ Vector.size sp' = S (Vector.size sp)
    /\ (Vector.size sp < Vector.capacity sp ->
        snd st' = next /\ Vector.capacity sp' = Vector.capacity sp)
    /\ (Vector.size sp = Vector.capacity sp -> Vector.size sp <> 0 ->
        snd st' = S next /\ Vector.capacity sp' = 2 * Vector.capacity sp + 1)
    /\ (Vector.size sp = Vector.capacity sp -> Vector.size sp = 0 ->
        snd st' = S next /\ Vector.capacity sp' = grow 0).
Proof.
    destruct a as [ws [blk cap dat] sep sty par].
    unfold Vector.size. cbn [m_horz_spacers Vector.data Vector.capacity].
    intros Hcap.
    unfold Adder.add_horizontal_spacer, grow_and_revalidate, Vector.is_empty,
      Vector.size.
    cbn [m_widgets m_horz_spacers Vector.data Vector.capacity Vector.block].
    destruct (Nat.eqb_spec (length dat) cap) as [Hfull | Hroom];
      [destruct (Nat.eqb_spec (length dat) 0) as [Hnil | Hsome] |];
      cbn [andb negb].
    - assert (cap = 0) by lia. subst cap.
      destruct dat; [| discriminate].
      unfold Vector.push_back, Vector.size, with_widgets.
      cbn. repeat split; intros; try reflexivity; lia.
    - unfold Vector.reserve, Vector.empty.
      cbn [Vector.capacity Vector.block Vector.data Nat.leb Nat.add].
      destruct (revalidate L ws _ _) as [ws' fin].
      unfold with_widgets, Vector.push_back, Vector.size.
      cbn [m_widgets m_horz_spacers Vector.data Vector.capacity Vector.block
           fst snd].
      destruct (Nat.ltb_spec (length dat) (S (cap * 2))) as [_ | Hno]; [| lia].
      cbn [m_widgets m_horz_spacers Vector.data Vector.capacity Vector.block
           fst snd].
      rewrite length_app. cbn [length]. repeat split; intros; try reflexivity; lia.
    - unfold with_widgets, Vector.push_back, Vector.size.
      cbn [m_widgets m_horz_spacers Vector.data Vector.capacity Vector.block
           fst snd].
      destruct (Nat.ltb_spec (length dat) cap) as [_ | Hno]; [| lia].
      cbn [m_widgets m_horz_spacers Vector.data Vector.capacity Vector.block
           fst snd].
      rewrite length_app. cbn [length]. repeat split; intros; try reflexivity; lia.
Qed.

  (** The invariant behind the count of allocations: after [S j] of them the
      storage holds at least [2 ^ j] spacers and has room for
      [2 ^ S j - 1]. *)
Definition alloc_inv (next0 : nat)
      (st : Adder.t HorizontalSpacer StyleMap * nat) : Prop :=
    let sp := m_horz_spacers (fst st) in
    (snd st = next0 /\ Vector.size sp = 0 /\ Vector.capacity sp = 0)
    \/ exists j, snd st = next0 + S j
                 /\ 2 ^ j <= Vector.size sp
                 /\ Vector.size sp <= Vector.capacity sp
                 /\ 2 ^ S j <= S (Vector.capacity sp).

Lemma alloc_inv_step (next0 : nat) (c : call)
      (st : Adder.t HorizontalSpacer StyleMap * nat) :
    alloc_inv next0 st -> alloc_inv next0 (run_call L new_spacer grow c st).
Proof.
    destruct st as [a next]. unfold alloc_inv.
    destruct c as [widget | |]; cbn [run_call fst snd add add_line_seperator
      with_widgets m_horz_spacers]; try (intros Hinv; exact Hinv).
    intros Hinv.
    assert (Hcap : Vector.size (m_horz_spacers a)
                   <= Vector.capacity (m_horz_spacers a)).
    { destruct Hinv as [(_ & -> & ->) | (j & _ & _ & Hle & _)]; [lia | exact Hle]. }
    destruct (add_horizontal_spacer_sizes a next Hcap)
      as (_ & Hsize & Hroom & Hfull & Hfirst).
    right. destruct Hinv as [(-> & Hsz & Hcp) | (j & -> & Hlo & Hle & Hhi)].
    - destruct Hfirst as [-> ->]; [lia | exact Hsz |].
      exists 0. rewrite Hsize, Hsz. pose proof (grow_grows 0).
      cbn [Nat.pow]. lia.
    - destruct (Nat.eq_dec (Vector.size (m_horz_spacers a))
                           (Vector.capacity (m_horz_spacers a))) as [Heq | Hne].
      + destruct Hfull as [-> ->]; [exact Heq | |].
        { pose proof (Nat.pow_nonzero 2 j). lia. }
        exists (S j). rewrite Hsize.
        rewrite (Nat.pow_succ_r' 2 (S j)). rewrite (Nat.pow_succ_r' 2 j) in Hhi |- *.
        lia.
      + destruct Hroom as [-> ->]; [lia |].
        exists j. rewrite Hsize. lia.
Qed.

Lemma run_alloc_inv (calls : list call)
      (a0 : Adder.t HorizontalSpacer StyleMap) (next0 : nat) :
    m_horz_spacers a0 = Vector.empty ->
    alloc_inv next0 (Adder.run L new_spacer grow calls (a0, next0)).
Proof.
    intros Hs. induction calls as [| c calls IH] using rev_ind.
    - left. cbn. now rewrite Hs.
    - rewrite adder_run_snoc. now apply alloc_inv_step.
Qed.

  (** The storage holds one spacer for each call of [add_horizontal_spacer],
      wherever the widgets lie. *)
Lemma run_size (calls : list call)
      (a0 : Adder.t HorizontalSpacer StyleMap) (next0 : nat) :
    m_horz_spacers a0 = Vector.empty ->
    Vector.size (m_horz_spacers (fst (Adder.run L new_spacer grow calls (a0, next0))))
    = spacer_calls calls.
Proof.
    intros Hs. induction calls as [| c calls IH] using rev_ind.
    - cbn. now rewrite Hs.
    - pose proof (run_alloc_inv calls a0 next0 Hs) as Hinv.
      rewrite adder_run_snoc, spacer_calls_app.
      destruct (Adder.run L new_spacer grow calls (a0, next0)) as [a next].
      cbn [fst] in IH.
      destruct c as [widget | |]; cbn [run_call fst snd add add_line_seperator
        with_widgets m_horz_spacers spacer_calls]; try lia.
      assert (Hcap : Vector.size (m_horz_spacers a)
                     <= Vector.capacity (m_horz_spacers a)).
      { destruct Hinv as [(_ & Hsz & Hcp) | (j & _ & _ & Hle & _)];
          cbn [fst] in *; lia. }
      destruct (add_horizontal_spacer_sizes a next Hcap) as (_ & Hsize & _).
      rewrite Hsize. lia.
Qed.

  (** X3.  A chain of calls with [n] calls of [add_horizontal_spacer] allocates
      no storage when [n] is zero and at most [log2 n + 1] blocks
      otherwise, whatever growth [push_back] would choose: after the first
      spacer every reallocation is the one the call makes itself, to
      twice the capacity and one. *)
Theorem run_allocates_logarithmically (calls : list call)
      (a0 : Adder.t HorizontalSpacer StyleMap) (next0 : nat) :
    m_widgets a0 = [] -> m_horz_spacers a0 = Vector.empty ->
    let st := Adder.run L new_spacer grow calls (a0, next0) in
    exists allocations,
      snd st = next0 + allocations
      /\ (spacer_calls calls = 0 -> allocations = 0)
      /\ (0 < spacer_calls calls ->
          0 < allocations <= Nat.log2 (spacer_calls calls) + 1).
Proof.
    intros Hw Hs st.
    assert (Hn : Vector.size (m_horz_spacers (fst st)) = spacer_calls calls)
      by now apply run_size.
    destruct (run_alloc_inv calls a0 next0 Hs) as [(Hnext & Hsz & _) |
      (j & Hnext & Hlo & _ & _)]; fold st in Hnext |- *.
    - exists 0. fold st in Hsz. rewrite Nat.add_0_r. split; [exact Hnext |].
      split; [reflexivity | lia].
    - fold st in Hlo. rewrite Hn in Hlo. exists (S j). split; [exact Hnext |].
      pose proof (Nat.pow_nonzero 2 j).
      split; [lia |]. intros Hpos. split; [lia |].
      apply Nat.log2_le_pow2 in Hlo; lia.
Qed.
End BuilderFacts.

  (** The chain of calls of [SpacerTest::setup_frame] (demos/spacer_tests.cpp,
      lines 86-105), its nine widgets numbered in the order of their
      declaration, run on the adder of the frame at address 7. *)
Definition demo_calls : list call :=
    [call_add 1; call_add_horizontal_spacer; call_add 2;
     call_add_horizontal_spacer; call_add_line_seperator;
     call_add_horizontal_spacer; call_add 3; call_add_horizontal_spacer;
     call_add 4; call_add_line_seperator;
     call_add 5; call_add_horizontal_spacer; call_add 6;
     call_add_horizontal_spacer; call_add 7; call_add_horizontal_spacer;
     call_add_line_seperator;
     call_add_horizontal_spacer; call_add 8; call_add_horizontal_spacer].

Lemma grow_double_grows : forall c, c < AdderFacts.grow_double c.
Proof. intros c. unfold AdderFacts.grow_double. lia. Qed.

Lemma demo_calls_apart :
    AdderFacts.calls_apart AdderFacts.sample_layout demo_calls
    /\ AdderFacts.apart AdderFacts.sample_layout
         (sep_ptr (m_the_line_sep AdderFacts.sample_adder)).
Proof.
    split; [| apply AdderFacts.small_address_apart; cbn; lia].
    repeat constructor; apply AdderFacts.small_address_apart; cbn; lia.
Qed.

Lemma run_lists_calls_in_order_witness :
    let a := fst (Adder.run AdderFacts.sample_layout tt AdderFacts.grow_double
                            demo_calls (AdderFacts.sample_adder, 1)) in
    m_widgets a
    = [widget_at 1; spacer_at 4 0; widget_at 2; spacer_at 4 1; line_sep_of 7;
       spacer_at 4 2; widget_at 3; spacer_at 4 3; widget_at 4; line_sep_of 7;
       widget_at 5; spacer_at 4 4; widget_at 6; spacer_at 4 5; widget_at 7;
       spacer_at 4 6; line_sep_of 7; spacer_at 4 7; widget_at 8; spacer_at 4 8]
    /\ Vector.data (m_horz_spacers a) = replicate 9 tt.
Proof.
    pose proof (run_lists_calls_in_order AdderFacts.sample_layout tt
                  AdderFacts.grow_double grow_double_grows demo_calls
                  AdderFacts.sample_adder 1 (proj1 demo_calls_apart)
                  (proj2 demo_calls_apart) eq_refl eq_refl)
      as (Hws & _ & Hsp & _).
    split; [exact Hws | exact Hsp].
Defined.

Lemma revalidation_stops_at_the_end_witness :
    let st := Adder.run AdderFacts.sample_layout tt AdderFacts.grow_double
                        demo_calls (AdderFacts.sample_adder, 1) in
    snd (revalidate AdderFacts.sample_layout (m_widgets (fst st)) (spacer_at 5 0)
                    (Vector.address_of (m_horz_spacers (fst st)) 0))
    = spacer_at 5 9
    /\ assert_new_itr_at_end AdderFacts.sample_layout (fst st) (snd st) = true.
Proof.
    cbn zeta.
    destruct (revalidation_stops_at_the_end AdderFacts.sample_layout tt
                AdderFacts.grow_double grow_double_grows demo_calls
                AdderFacts.sample_adder 1 (proj1 demo_calls_apart)
                (proj2 demo_calls_apart) eq_refl eq_refl) as [Hloop Hassert].
    split; [| exact Hassert].
    rewrite (Hloop 5). reflexivity.
Defined.

Lemma run_allocates_logarithmically_witness :
    exists allocations,
      snd (Adder.run AdderFacts.sample_layout tt AdderFacts.grow_double
                     demo_calls (AdderFacts.sample_adder, 1)) = 1 + allocations
      /\ 0 < allocations <= 4.
Proof.
    destruct (run_allocates_logarithmically AdderFacts.sample_layout tt
                AdderFacts.grow_double grow_double_grows demo_calls
                AdderFacts.sample_adder 1 eq_refl eq_refl)
      as (n & Hnext & _ & Hbound).
    exists n. split; [exact Hnext |]. apply Hbound. vm_compute. lia.
Defined.
End BuilderFacts.

(* ===================================================================== *)
(** * Frame::contains and the frames a commit leaves behind *)
(* ===================================================================== *)

Module ContainmentFacts.
Import Commit.
Section ContainmentFacts.
Context {HorizontalSpacer StyleMap Geometry Leaf : Type}.
Abbreviation Frame := (Commit.Frame HorizontalSpacer Geometry).
Abbreviation heap := (Commit.heap HorizontalSpacer Geometry Leaf).
Variable set_style : StyleMap -> addr -> heap -> heap.
Variable finalize_geometry : addr -> heap -> heap.

Abbreviation finalize_widgets := (Commit.finalize_widgets set_style finalize_geometry).

  (** X4.  On frames that nest without a cycle, [Frame::contains] returns once
      the stack is deeper than the rank of the frame, it returns the same
      answer on every deeper stack, and the answer is [true] exactly when
      the widget is an entry of the frame's list or of the list of a frame
      nested in it at any depth. *)
Theorem contains_is_containment (h : heap) (rank : addr -> nat) (wptr : ptr)
      (fuel : nat) (a : addr) (fa : Frame) :
    ranked h rank -> h !! a = Some (OFrame fa) -> rank a < fuel ->
    exists b,
      (forall fuel', fuel <= fuel' -> contains fuel' h fa wptr = Some b)
      /\ (b = true <-> reaches h fa wptr).
Proof.
    intros Hranked Ha Hfuel.
    destruct (CommitFacts.contains_decides h rank wptr Hranked fuel a fa Ha Hfuel)
      as (b & _ & Hb).
    exists b. split; [| exact Hb].
    intros fuel' Hle.
    destruct (CommitFacts.contains_decides h rank wptr Hranked fuel' a fa Ha
                ltac:(lia)) as (b' & Hrun & Hb').
    rewrite Hrun. f_equal.
    destruct b, b'; try reflexivity.
    - apply (proj2 Hb'), (proj1 Hb). reflexivity.
    - symmetry. apply (proj2 Hb), (proj1 Hb'). reflexivity.
Qed.

Lemma as_frame_insert_ne (h : heap) (this : addr) (o : object _ _ _) (w : ptr) :
    w <> widget_at this -> as_frame (<[this := o]> h) w = as_frame h w.
Proof.
    intros Hne. destruct w as [| b | |]; try reflexivity.
    cbn. rewrite lookup_insert_ne by congruence. reflexivity.
Qed.

  (** The scan of lines 235-241 finds nothing in a list whose only frame is
      the target itself, the target's committed list being empty. *)
Lemma scan_for_this_self (fuel : nat) (h : heap) (this : addr) (fr : Frame)
      (widgets : list ptr) :
    h !! this = Some (OFrame fr) -> m_widgets fr = [] ->
    (forall w, w ∈ widgets -> w = widget_at this \/ as_frame h w = None) ->
    scan_for_this (S fuel) h this widgets = Some false.
Proof.
    intros Hthis Hempty. induction widgets as [| w rest IH]; intros Hall.
    - reflexivity.
    - cbn [scan_for_this].
      assert (Hrest : scan_for_this (S fuel) h this rest = Some false).
      { apply IH. intros w' Hin. apply Hall, elem_of_cons. now right. }
      destruct (Hall w) as [-> | Hnone]; [apply elem_of_cons; now left | |].
      + cbn [as_frame]. rewrite Hthis. cbn [contains]. rewrite Hempty.
        cbn [contains_scan]. exact Hrest.
      + rewrite Hnone. exact Hrest.
Qed.

  (** A search through a list that holds a frame whose own search does not
      return, behind entries that are no frames and not the widget looked
      for, does not return. *)
Lemma contains_scan_stuck (rec : Frame -> option bool) (h : heap) (wptr : ptr)
      (this : addr) (fr : Frame) (ws : list ptr) :
    h !! this = Some (OFrame fr) -> rec fr = None ->
    wptr ∉ ws -> widget_at this ∈ ws ->
    (forall w, w ∈ ws -> w = widget_at this \/ as_frame h w = None) ->
    contains_scan rec h wptr ws = None.
Proof.
    intros Hthis Hrec. induction ws as [| w rest IH]; intros Hnot Hin Hall.
    - now apply not_elem_of_nil in Hin.
    - cbn [contains_scan].
      rewrite decide_False
        by (intros ->; apply Hnot, elem_of_cons; now left).
      destruct (Hall w) as [-> | Hnone]; [apply elem_of_cons; now left | |].
      + cbn [as_frame]. now rewrite Hthis, Hrec.
      + rewrite Hnone. apply IH.
        * intros Hin'. apply Hnot, elem_of_cons. now right.
        * apply elem_of_cons in Hin as [<- | Hin]; [| exact Hin].
          cbn in Hnone. now rewrite Hthis in Hnone.
        * intros w' Hin'. apply Hall, elem_of_cons. now right.
Qed.

  (** X5.  The containment check reads the lists committed before the call.  A
      frame whose committed list is empty therefore accepts a list that
      names the frame itself (here with no other frame in the list): the
      list is committed.  From then on a call of [Frame::contains] on the
      frame, for a widget its list does not hold, returns on no stack
      however deep. *)
Theorem self_listing_is_committed (fuel : nat) (h : heap) (this : addr)
      (fr : Frame) (widgets : list ptr) (spacers : Vector.t HorizontalSpacer) :
    h !! this = Some (OFrame fr) -> m_widgets fr = [] ->
    widget_at this ∈ widgets ->
    (forall w, w ∈ widgets -> w = widget_at this \/ as_frame h w = None) ->
    let listed := commit widgets spacers fr in
    let h' := <[this := OFrame listed]> h in
    finalize_widgets (S fuel) this widgets spacers (Some this) None h
    = Some (inr ([], m_horz_spacers fr), h')
    /\ forall fuel' wptr, wptr ∉ widgets -> contains fuel' h' listed wptr = None.
Proof.
    intros Hthis Hempty Hin Hall listed h'. split.
    - unfold Commit.finalize_widgets. rewrite Hthis.
      rewrite decide_True by reflexivity.
      rewrite (scan_for_this_self fuel h this fr widgets Hthis Hempty Hall).
      now rewrite Hempty.
    - intros fuel' wptr Hnot. induction fuel' as [| fuel' IH]; [reflexivity |].
      cbn [contains].
      apply (contains_scan_stuck _ h' wptr this listed); try assumption.
      + subst h'. apply lookup_insert_eq.
      + intros w Hw. destruct (Hall w Hw) as [-> | Hnone]; [now left |].
        right. subst h'. rewrite as_frame_insert_ne; [exact Hnone |].
        intros ->. cbn in Hnone. now rewrite Hthis in Hnone.
Qed.

  (** The rank after a commit to [this]: the frames that contained [this]
      move above it, the others stay where they were. *)
Definition rank_after (rank : addr -> nat) (fuel : nat) (h : heap)
      (this : addr) (a : addr) : nat :=
    if decide (a = this) then fuel
    else match h !! a with
         | Some (OFrame fa) =>
             match contains fuel h fa (widget_at this) with
             | Some true => fuel + 1 + rank a
             | _ => rank a
             end
         | _ => rank a
         end.

Lemma rank_after_frame (rank : addr -> nat) (fuel : nat) (h : heap)
      (this a : addr) (fa : Frame) :
    ranked h rank -> (forall c, rank c < fuel) ->
    a <> this -> h !! a = Some (OFrame fa) ->
    (reaches h fa (widget_at this)
     /\ rank_after rank fuel h this a = fuel + 1 + rank a)
    \/ (~ reaches h fa (widget_at this)
        /\ rank_after rank fuel h this a = rank a).
Proof.
    intros Hranked Hfuel Hne Ha. unfold rank_after.
    rewrite decide_False by exact Hne. rewrite Ha.
    destruct (CommitFacts.contains_decides h rank (widget_at this) Hranked
                fuel a fa Ha (Hfuel a)) as (b & -> & Hb).
    destruct b.
    - left. split; [now apply Hb | reflexivity].
    - right. split; [| reflexivity]. intros Hr. apply Hb in Hr. discriminate.
Qed.

  (** X6.  A commit that passes the containment check keeps the frames free of
      cycles, provided the list does not name the target frame itself: the
      check is what stands between the callers and a cycle, but for that
      one case. *)
Theorem commit_keeps_frames_acyclic (rank : addr -> nat) (fuel : nat)
      (h h' : heap) (this : addr) (fr : Frame) (widgets : list ptr)
      (spacers : Vector.t HorizontalSpacer)
      (old : list ptr * Vector.t HorizontalSpacer) :
    ranked h rank -> (forall a, rank a < fuel) ->
    h !! this = Some (OFrame fr) ->
    widget_at this ∉ widgets ->
    finalize_widgets fuel this widgets spacers (Some this) None h
    = Some (inr old, h') ->
    h' = <[this := OFrame (commit widgets spacers fr)]> h
    /\ exists rank', ranked h' rank' /\ forall a, rank' a < 2 * fuel + 1.
Proof.
    intros Hranked Hfuel Hthis Hnot Hrun.
    unfold Commit.finalize_widgets in Hrun. rewrite Hthis in Hrun.
    rewrite decide_True in Hrun by reflexivity.
    destruct (CommitFacts.scan_for_this_decides h rank fuel this widgets
                Hranked Hfuel) as (b & Hscan & Hb).
    rewrite Hscan in Hrun. destruct b; [discriminate |].
    injection Hrun as _ <-. split; [reflexivity |].
    assert (Hclean : forall c fc, widget_at c ∈ widgets ->
                       h !! c = Some (OFrame fc) ->
                       ~ reaches h fc (widget_at this)).
    { intros c fc Hin Hc Hr.
      assert (false = true) as Habs; [| discriminate].
      apply Hb. exists (widget_at c), fc.
      split; [exact Hin |]. split; [| exact Hr]. cbn. now rewrite Hc. }
    exists (rank_after rank fuel h this). split.
    - intros a fa c fc Ha Hin Hc.
      destruct (decide (a = this)) as [-> | Hathis].
      + rewrite lookup_insert_eq in Ha. injection Ha as <-.
        cbn [commit m_widgets] in Hin.
        assert (Hcthis : c <> this) by (intros ->; contradiction).
        rewrite lookup_insert_ne in Hc by congruence.
        destruct (rank_after_frame rank fuel h this c fc Hranked Hfuel
                    Hcthis Hc) as [[Hr _] | [_ ->]].
        * now apply (Hclean c fc) in Hr.
        * unfold rank_after at 1. rewrite decide_True by reflexivity.
          apply Hfuel.
      + rewrite lookup_insert_ne in Ha by congruence.
        destruct (rank_after_frame rank fuel h this a fa Hranked Hfuel
                    Hathis Ha) as [[Hra ->] | [Hra ->]].
        * destruct (decide (c = this)) as [-> | Hcthis].
          -- unfold rank_after. rewrite decide_True by reflexivity. lia.
          -- rewrite lookup_insert_ne in Hc by congruence.
             pose proof (Hranked a fa c fc Ha Hin Hc).
             destruct (rank_after_frame rank fuel h this c fc Hranked Hfuel
                         Hcthis Hc) as [[_ ->] | [_ ->]]; lia.
        * destruct (decide (c = this)) as [-> | Hcthis].
          -- exfalso. apply Hra. now apply reaches_entry.
          -- rewrite lookup_insert_ne in Hc by congruence.
             pose proof (Hranked a fa c fc Ha Hin Hc).
             destruct (rank_after_frame rank fuel h this c fc Hranked Hfuel
                         Hcthis Hc) as [[Hrc _] | [_ ->]]; [| lia].
             exfalso. apply Hra.
             apply reaches_nested with (widget_at c) fc; [exact Hin | | exact Hrc].
             cbn. now rewrite Hc.
    - intros a. unfold rank_after. pose proof (Hfuel a).
      destruct (decide (a = this)); [lia |].
      destruct (h !! a) as [[fa | l] |]; try lia.
      destruct (contains fuel h fa (widget_at this)) as [[|] |]; lia.
Qed.

  (** Moving an adder moves the commit with it.  After
      [WidgetAdder b(std::move(a))], [b] is what [a] was and the destructor
      of [a] changes nothing, in flight or not; after [a = std::move(b)]
      the two adders have exchanged what they hold, so that the destructor
      of each commits the list the other was building. *)
Theorem moved_adder_commits_once (fuel : nat) (uncaught : Z)
      (a b : Adder.t HorizontalSpacer StyleMap) (h : heap) :
    (fst (Adder.move_construct a) = a
     /\ Commit.destroy set_style finalize_geometry fuel uncaught
          (snd (Adder.move_construct a)) h = Some (inr tt, h))
    /\ (Commit.destroy set_style finalize_geometry fuel uncaught
          (fst (Adder.move_assign a b)) h
        = Commit.destroy set_style finalize_geometry fuel uncaught b h
        /\ Commit.destroy set_style finalize_geometry fuel uncaught
             (snd (Adder.move_assign a b)) h
           = Commit.destroy set_style finalize_geometry fuel uncaught a h).
Proof.
    split; [split |]; [reflexivity | | split; reflexivity].
    unfold Commit.destroy. cbn. now destruct (0 <? uncaught)%Z.
Qed.
End ContainmentFacts.

Lemma contains_is_containment_witness :
    exists b,
      (forall fuel', 2 <= fuel' ->
         contains fuel' CommitFacts.sample_heap
           (CommitFacts.sample_frame [widget_at 2; widget_at 5]) (widget_at 5)
         = Some b)
      /\ (b = true <->
          reaches CommitFacts.sample_heap
            (CommitFacts.sample_frame [widget_at 2; widget_at 5]) (widget_at 5)).
Proof.
    apply (contains_is_containment CommitFacts.sample_heap
             CommitFacts.sample_rank (widget_at 5) 2 1
             (CommitFacts.sample_frame [widget_at 2; widget_at 5])).
    - exact CommitFacts.sample_heap_ranked.
    - reflexivity.
    - vm_compute. lia.
Defined.

  (** Frame 2, empty so far, is handed the leaf 5 and itself. *)
Lemma self_listing_is_committed_witness :
    Commit.finalize_widgets CommitFacts.no_style CommitFacts.no_geometry 1 2
      [widget_at 5; widget_at 2] Vector.empty (Some 2) None
      CommitFacts.sample_heap
    = Some (inr ([], Vector.empty),
            <[2 := OFrame (CommitFacts.sample_frame [widget_at 5; widget_at 2])]>
              CommitFacts.sample_heap)
    /\ contains 1000
         (<[2 := OFrame (CommitFacts.sample_frame [widget_at 5; widget_at 2])]>
            CommitFacts.sample_heap)
         (CommitFacts.sample_frame [widget_at 5; widget_at 2]) (widget_at 9)
       = None.
Proof.
    destruct (self_listing_is_committed CommitFacts.no_style
                CommitFacts.no_geometry 0 CommitFacts.sample_heap 2
                (CommitFacts.sample_frame []) [widget_at 5; widget_at 2]
                Vector.empty) as [Hrun Hstuck].
    - reflexivity.
    - reflexivity.
    - apply elem_of_cons. right. apply elem_of_cons. now left.
    - intros w Hw. apply elem_of_cons in Hw as [-> | Hw]; [now right |].
      apply elem_of_cons in Hw as [-> | Hw]; [now left |].
      now apply not_elem_of_nil in Hw.
    - split; [exact Hrun |]. apply Hstuck.
      intros Hin. apply elem_of_cons in Hin as [[=] | Hin].
      apply elem_of_cons in Hin as [[=] | Hin].
      now apply not_elem_of_nil in Hin.
Defined.

  (** Frame 2 receives the leaf 5. *)
Lemma commit_keeps_frames_acyclic_witness :
    exists rank',
      ranked (<[2 := OFrame (CommitFacts.sample_frame [widget_at 5])]>
                CommitFacts.sample_heap) rank'
      /\ forall a, rank' a < 5.
Proof.
    destruct (commit_keeps_frames_acyclic CommitFacts.no_style
                CommitFacts.no_geometry CommitFacts.sample_rank 2
                CommitFacts.sample_heap
                (<[2 := OFrame (CommitFacts.sample_frame [widget_at 5])]>
                   CommitFacts.sample_heap)
                2 (CommitFacts.sample_frame []) [widget_at 5] Vector.empty
                ([], Vector.empty)) as (_ & rank' & Hranked & Hbound).
    - exact CommitFacts.sample_heap_ranked.
    - intros a. unfold CommitFacts.sample_rank. destruct (decide (a = 1)); lia.
    - reflexivity.
    - intros Hin. apply elem_of_cons in Hin as [[=] | Hin].
      now apply not_elem_of_nil in Hin.
    - reflexivity.
    - exists rank'. split; [exact Hranked | exact Hbound].
Defined.
End ContainmentFacts.

(* ===================================================================== *)
(** * ProgressBar: what every sequence of calls keeps *)
(* ===================================================================== *)

Module BarFacts.
Import ProgressBar.
Section BarFacts.
Context {F : Type} `{FloatOps F}.

  (** The test of [set_fill_amount] does not fire. *)
Definition in_range (v : F) : Prop := (v <! f0) || (f1 <! v) = false.

  (** The two inner rectangles have the sizes [update_sizes_using_outer]
      gives them for the present outer size, padding and fill amount. *)
Definition sized (pb : ProgressBar.t F) : Prop :=
    let track_width := width pb -! active_padding pb *! f2 in
    let track_height := height pb -! active_padding pb *! f2 in
    DrawRectangle.width (m_inner_back pb) = track_width
    /\ DrawRectangle.height (m_inner_back pb) = track_height
    /\ DrawRectangle.width (m_inner_front pb) = track_width *! m_fill_amount pb
    /\ DrawRectangle.height (m_inner_front pb) = track_height.

Definition positions (pb : ProgressBar.t F) : list (F * F) :=
    map (fun r => (DrawRectangle.x r, DrawRectangle.y r))
        [m_outer pb; m_inner_back pb; m_inner_front pb].

Definition is_set_location (c : ProgressBar.call F) : bool :=
    match c with call_set_location _ _ => true | _ => false end.

Lemma bar_run_snoc (calls : list (ProgressBar.call F)) (c : ProgressBar.call F)
      (pb : ProgressBar.t F) :
    run (calls ++ [c]) pb = run_call (run calls pb) c.
Proof. unfold run. now rewrite fold_left_app. Qed.

Lemma set_fill_amount_state (v : F) (pb : ProgressBar.t F) :
    snd (set_fill_amount v pb)
    = if (v <! f0) || (f1 <! v) then pb
      else set_size (width pb) (height pb) (store_fill_amount v pb).
Proof.
    unfold set_fill_amount. destruct ((v <! f0) || (f1 <! v)); reflexivity.
Qed.

  (** X7.  Once the stored fill amount is within the range the setter accepts,
      no sequence of calls takes it out of it, rejected calls included. *)
Theorem fill_amount_stays_in_range (calls : list (ProgressBar.call F))
      (pb : ProgressBar.t F) :
    in_range (m_fill_amount pb) -> in_range (m_fill_amount (run calls pb)).
Proof.
    intros Hpb. induction calls as [| c calls IH] using rev_ind; [exact Hpb |].
    rewrite bar_run_snoc. destruct c as [x y | w h | p | v]; cbn [run_call];
      try exact IH.
    rewrite set_fill_amount_state.
    destruct ((v <! f0) || (f1 <! v)) eqn:Hv; [exact IH | exact Hv].
Qed.

Lemma update_sizes_sized (pb : ProgressBar.t F) :
    sized (update_sizes_using_outer pb).
Proof. repeat split. Qed.

  (** X8.  [set_size], [set_padding] and an accepted [set_fill_amount] each leave
      the track, [m_inner_back], as the outer rectangle less the active
      padding on every side, and the bar, [m_inner_front], as the track with
      its width multiplied by the fill amount; and no sequence of calls,
      moves and rejected calls included, undoes it. *)
Theorem bar_is_the_fill_fraction_of_the_track :
    (forall w h (pb : ProgressBar.t F), sized (set_size w h pb))
    /\ (forall p (pb : ProgressBar.t F), sized (set_padding p pb))
    /\ (forall v (pb : ProgressBar.t F),
          in_range v -> sized (snd (set_fill_amount v pb))
                        /\ m_fill_amount (snd (set_fill_amount v pb)) = v)
    /\ (forall calls (pb : ProgressBar.t F), sized pb -> sized (run calls pb)).
Proof.
    split; [| split; [| split]].
    - intros w h pb. apply update_sizes_sized.
    - intros p pb. apply update_sizes_sized.
    - intros v pb Hv. rewrite set_fill_amount_state. unfold in_range in Hv.
      rewrite Hv. split; [apply update_sizes_sized | reflexivity].
    - intros calls pb Hpb.
      induction calls as [| c calls IH] using rev_ind; [exact Hpb |].
      rewrite bar_run_snoc. destruct c as [x y | w h | p | v]; cbn [run_call].
      + exact IH.
      + apply update_sizes_sized.
      + apply update_sizes_sized.
      + rewrite set_fill_amount_state.
        destruct ((v <! f0) || (f1 <! v)); [exact IH | apply update_sizes_sized].
Qed.

  (** X9.  Only [set_location] moves a rectangle.  It puts the outer rectangle
      at the point given and both inner rectangles one active padding
      inside it, and changes no size; every other call leaves all three
      where they are, also when it changes the active padding. *)
Theorem only_set_location_moves_the_bar :
    (forall x y (pb : ProgressBar.t F),
        let pad := active_padding pb in
        positions (set_location x y pb)
        = [(x, y); (x +! pad, y +! pad); (x +! pad, y +! pad)]
        /\ width (set_location x y pb) = width pb
        /\ height (set_location x y pb) = height pb)
    /\ (forall calls (pb : ProgressBar.t F),
          forallb (fun c => negb (is_set_location c)) calls = true ->
          positions (run calls pb) = positions pb).
Proof.
    split.
    - intros x y pb. repeat split.
    - intros calls pb. induction calls as [| c calls IH] using rev_ind;
        [reflexivity |].
      rewrite forallb_app. cbn [forallb]. rewrite andb_true_r.
      intros [Hcalls Hc]%andb_prop. rewrite bar_run_snoc, <- (IH Hcalls).
      destruct c as [x y | w h | p | v]; cbn [run_call]; try reflexivity.
      + discriminate.
      + rewrite set_fill_amount_state.
        destruct ((v <! f0) || (f1 <! v)); reflexivity.
Qed.
End BarFacts.

  (** X10.  In exact arithmetic, on a bar at least two active paddings wide, the
      bar proper is never wider than its track and never of negative width.
      The guard of [active_padding] compares the width and the height with
      one padding each: a bar at least one padding but less than two wide
      has a track of negative width. *)
Theorem bar_stays_inside_its_track (pb : ProgressBar.t Q) :
    sized pb -> in_range (m_fill_amount pb) ->
    ((active_padding pb * 2 <= width pb)%Q ->
     (0 <= DrawRectangle.width (m_inner_front pb)
      <= DrawRectangle.width (m_inner_back pb))%Q)
    /\ ((m_padding pb <= width pb)%Q -> (m_padding pb <= height pb)%Q ->
        (width pb < m_padding pb * 2)%Q ->
        (DrawRectangle.width (m_inner_back pb) < 0)%Q).
Proof.
    intros (Hbw & _ & Hfw & _) Hfill.
    unfold in_range in Hfill. apply orb_false_elim in Hfill as [Hlo Hhi].
    apply (proj1 (Qltb_ge _ _)) in Hlo, Hhi.
    change (f0 : Q) with 0%Q in Hlo. change (f1 : Q) with 1%Q in Hhi.
    rewrite Hfw, Hbw. cbn [fsub fmul exactQ].
    change (f2 : Q) with 2%Q.
    split.
    - intros Hwide. rewrite !Qred_correct.
      set (track := (width pb - active_padding pb * 2)%Q).
      assert (0 <= track)%Q by (subst track; lra).
      split; nra.
    - intros Hw Hh Hnarrow. rewrite !Qred_correct.
      unfold active_padding.
      destruct (Qltb_ge (width pb) (m_padding pb)) as [_ Hw'].
      destruct (Qltb_ge (height pb) (m_padding pb)) as [_ Hh'].
      cbn [fltb exactQ]. rewrite (Hw' Hw), (Hh' Hh). cbn [orb]. lra.
Qed.

Definition exact_bar : ProgressBar.t Q :=
    ProgressBar.run
      [call_set_size 100%Q 20%Q; call_set_padding 4%Q;
       call_set_fill_amount (3 # 4); call_set_fill_amount 2%Q;
       call_set_location 10%Q 10%Q]
      (ProgressBar.construct (DrawRectangle.mk 0%Q 0%Q 0%Q 0%Q)).

Lemma fill_amount_stays_in_range_witness :
    m_fill_amount exact_bar = (3 # 4)%Q /\ in_range (m_fill_amount exact_bar).
Proof.
    split; [reflexivity |].
    apply (fill_amount_stays_in_range _ (ProgressBar.construct _)).
    reflexivity.
Defined.

Lemma bar_stays_inside_its_track_witness :
    (0 <= DrawRectangle.width (m_inner_front exact_bar)
     <= DrawRectangle.width (m_inner_back exact_bar))%Q
    /\ DrawRectangle.width (m_inner_front exact_bar) = 69%Q
    /\ DrawRectangle.width (m_inner_back exact_bar) = 92%Q.
Proof.
    split; [| split; reflexivity].
    apply (bar_stays_inside_its_track exact_bar).
    - repeat split.
    - reflexivity.
    - vm_compute. discriminate.
Defined.
End BarFacts.

(* ===================================================================== *)
(** * Button: geometry, events and colours *)
(* ===================================================================== *)

Module ButtonEventFacts.
Import ButtonEvents.
Section ButtonEventFacts.
Context {F : Type} `{FloatOps F}.
Context {Color : Type}.

Abbreviation button := (ButtonEvents.t F Color).

  (** What a call of the press functor leaves of the button. *)
Variable press_functor : button -> button.
Abbreviation process_event := (ButtonEvents.process_event press_functor).
Abbreviation process_events := (ButtonEvents.process_events press_functor).

  (** The functor leaves the rectangles, the padding and the highlight flag
      of the button as they are. *)
Definition keeps_the_body : Prop := forall b, body (press_functor b) = body b.

  (** What an event says about the cursor being over the button, if it says
      anything. *)
Definition hover_of (outer : DrawRectangle.t F) (e : event) : option bool :=
    match e with
    | MouseMoved x y => Some (Button.is_in_drect x y outer)
    | MouseLeft | LostFocus | Resized => Some false
    | MouseButtonReleased _ _ | other_event => None
    end.

Lemma process_events_snoc (events : list event) (e : event) (b : button) :
    process_events (events ++ [e]) b = process_event (process_events events b) e.
Proof. unfold ButtonEvents.process_events. now rewrite fold_left_app. Qed.

Lemma press_body (b : button) :
    keeps_the_body -> body (press press_functor b) = body b.
Proof.
    intros Hkeeps. unfold press.
    destruct (m_press_functor b); [apply Hkeeps | reflexivity].
Qed.

Lemma process_event_geometry (b : button) (e : event) :
    keeps_the_body ->
    Button.m_outer (body (process_event b e)) = Button.m_outer (body b)
    /\ Button.m_inner (body (process_event b e)) = Button.m_inner (body b)
    /\ Button.m_padding (body (process_event b e)) = Button.m_padding (body b).
Proof.
    intros Hkeeps.
    destruct e; cbn [ButtonEvents.process_event];
      repeat match goal with
             | |- context [if ?c then _ else _] => destruct c
             end;
      rewrite ?press_body by exact Hkeeps; repeat split.
Qed.

  (** An event that does not reach the functor changes the highlight flag
      as the cursor tells, whatever the functor is. *)
Lemma process_event_highlight_idle (b : button) (e : event) :
    (forall x y, e = MouseButtonReleased x y ->
                 Button.m_is_highlighted (body b) = false) ->
    Button.m_is_highlighted (body (process_event b e))
    = default (Button.m_is_highlighted (body b))
              (hover_of (Button.m_outer (body b)) e)
    /\ Button.m_outer (body (process_event b e)) = Button.m_outer (body b).
Proof.
    intros Hidle.
    destruct e; cbn [ButtonEvents.process_event hover_of default];
      [ rewrite (Hidle x y eq_refl); cbn [andb];
        split; [exact (Hidle x y eq_refl) | reflexivity] | .. ];
      repeat match goal with
             | |- context [if ?c then _ else _] => destruct c eqn:?
             end;
      split; reflexivity.
Qed.

Lemma process_event_highlight (b : button) (e : event) :
    keeps_the_body ->
    Button.m_is_highlighted (body (process_event b e))
    = default (Button.m_is_highlighted (body b))
              (hover_of (Button.m_outer (body b)) e).
Proof.
    intros Hkeeps.
    destruct e; cbn [ButtonEvents.process_event hover_of default];
      repeat match goal with
             | |- context [if ?c then _ else _] => destruct c eqn:?
             end;
      rewrite ?press_body by exact Hkeeps; reflexivity.
Qed.

  (** X11.  For a press functor that leaves the rectangles, the padding and
      the highlight flag of the button as they are: events never change the
      geometry of a button, and its highlight flag after a sequence of
      events is decided by the last event of the sequence that tells where
      the cursor is: set when that event is a mouse move to a point of the
      outer rectangle, clear when it is another mouse move, the cursor
      leaving, the loss of focus or a resize, and as before the sequence
      when there is no such event. *)
Theorem highlight_follows_the_last_cursor_event (events : list event)
      (b : button) :
    keeps_the_body ->
    let outer := Button.m_outer (body b) in
    Button.m_is_highlighted (body (process_events events b))
    = default (Button.m_is_highlighted (body b))
              (last (omap (hover_of outer) events))
    /\ Button.m_outer (body (process_events events b)) = outer
    /\ Button.m_inner (body (process_events events b)) = Button.m_inner (body b)
    /\ Button.m_padding (body (process_events events b))
       = Button.m_padding (body b).
Proof.
    intros Hkeeps. cbn zeta. induction events as [| e events IH] using rev_ind.
    - repeat split.
    - destruct IH as (Hflag & Houter & Hinner & Hpad).
      rewrite process_events_snoc.
      destruct (process_event_geometry (process_events events b) e Hkeeps)
        as (Ho & Hi & Hp).
      rewrite Ho, Hi, Hp, process_event_highlight, Houter, Hflag by exact Hkeeps.
      repeat split; try assumption.
      rewrite omap_app. cbn [omap list_omap].
      destruct (hover_of (Button.m_outer (body b)) e) as [flag |].
      + now rewrite last_snoc.
      + now rewrite app_nil_r.
Qed.

Lemma process_event_presses (b : button) (e : event) :
    presses (process_event b e)
    = match e with
      | MouseButtonReleased x y =>
          if Button.m_is_highlighted (body b)
             && Button.is_in_drect x y (Button.m_outer (body b))
             && m_press_functor b
          then S (presses b) else presses b
      | _ => presses b
      end.
Proof.
    destruct e; cbn [ButtonEvents.process_event]; try reflexivity.
    - destruct (Button.m_is_highlighted (body b)
                && Button.is_in_drect x y (Button.m_outer (body b)));
        cbn [andb]; [| reflexivity].
      unfold press. now destruct (m_press_functor b).
    - now destruct (Button.is_in_drect x y (Button.m_outer (body b))).
Qed.

  (** X12.  The press functor is called only on a button the cursor was moved
      onto: from a button that is not highlighted, no sequence of events
      without a mouse move to a point of the outer rectangle calls it,
      whatever the functor would do, and the button is not highlighted at
      the end. *)
Theorem no_press_without_hover (events : list event) (b : button) :
    Button.m_is_highlighted (body b) = false ->
    Forall (fun e => hover_of (Button.m_outer (body b)) e <> Some true) events ->
    presses (process_events events b) = presses b
    /\ Button.m_is_highlighted (body (process_events events b)) = false.
Proof.
    intros Hflag.
    assert (Hrun : forall events,
               Forall (fun e => hover_of (Button.m_outer (body b)) e <> Some true)
                      events ->
               presses (process_events events b) = presses b
               /\ Button.m_is_highlighted (body (process_events events b)) = false
               /\ Button.m_outer (body (process_events events b))
                  = Button.m_outer (body b)).
    { clear events. intros events.
      induction events as [| e events IH] using rev_ind; intros Hall.
      - repeat split. exact Hflag.
      - apply Forall_app in Hall as [Hall He].
        apply Forall_cons in He as [He _].
        destruct (IH Hall) as (Hp & Hf & Houter).
        rewrite process_events_snoc.
        destruct (process_event_highlight_idle (process_events events b) e)
          as [Hflag' Houter']; [intros x y _; exact Hf |].
        split; [| split].
        + rewrite process_event_presses, Hf, Hp. now destruct e.
        + rewrite Hflag', Hf, Houter.
          destruct (hover_of (Button.m_outer (body b)) e) as [[|] |];
            [contradiction | reflexivity | reflexivity].
        + now rewrite Houter'. }
    intros Hall. destruct (Hrun events Hall) as (Hp & Hf & _).
    split; assumption.
Qed.

  (** The colours shown are those of the highlight flag. *)
Definition shown (b : button) : Prop :=
    let pair := if Button.m_is_highlighted (body b) then m_hover b else m_reg b in
    outer_color b = back pair /\ inner_color b = front pair.

  (** X13.  Every event that tells where the cursor is leaves the button in the
      colours of its highlight flag, and no event takes it out of them
      unless the press functor does.  [set_style] does: it shows the regular
      colours and leaves the flag, so a highlighted button is in its regular
      colours until the next such event; it also stores the padding it finds
      without resizing or moving the inner rectangle. *)
Theorem colours_follow_the_highlight :
    (forall (b : button) e,
        hover_of (Button.m_outer (body b)) e <> None -> shown (process_event b e))
    /\ ((forall b : button, shown b -> shown (press_functor b)) ->
        forall events (b : button), shown b -> shown (process_events events b))
    /\ (forall smap (b : button),
          let b' := set_style smap b in
          outer_color b' = back (m_reg b') /\ inner_color b' = front (m_reg b')
          /\ Button.m_is_highlighted (body b') = Button.m_is_highlighted (body b)
          /\ Button.m_padding (body b')
             = set_if_found (global_padding smap) (Button.m_padding (body b))
          /\ Button.m_outer (body b') = Button.m_outer (body b)
          /\ Button.m_inner (body b') = Button.m_inner (body b)).
Proof.
    split; [| split].
    - intros b e He. destruct e; cbn [hover_of] in He; try contradiction;
        cbn [ButtonEvents.process_event];
        try destruct (Button.is_in_drect x y (Button.m_outer (body b)));
        split; reflexivity.
    - intros Hfunctor events b Hb.
      induction events as [| e events IH] using rev_ind; [exact Hb |].
      rewrite process_events_snoc.
      set (b1 := process_events events b) in *.
      destruct e; cbn [ButtonEvents.process_event];
        repeat match goal with
               | |- context [if ?c then _ else _] => destruct c
               end;
        try exact IH; try (split; reflexivity).
      unfold press. destruct (m_press_functor b1); [| exact IH].
      apply Hfunctor in IH. exact IH.
    - intros smap b. repeat split.
Qed.
End ButtonEventFacts.

Definition red_button : ButtonEvents.t Q string :=
    {| body := {| Button.m_outer := DrawRectangle.mk 10%Q 10%Q 80%Q 30%Q;
                  Button.m_inner := DrawRectangle.mk 12%Q 12%Q 76%Q 26%Q;
                  Button.m_padding := 2%Q;
                  Button.m_is_highlighted := false |};
       m_hover := mkPair "orange"%string "yellow"%string;
       m_reg := mkPair "maroon"%string "red"%string;
       outer_color := "maroon"%string; inner_color := "red"%string;
       m_press_functor := true; presses := 0 |}.

  (** A functor that paints the button green and leaves the rest, and one
      that makes the button 500 wide. *)
Definition paint_green (b : ButtonEvents.t Q string) : ButtonEvents.t Q string :=
    {| body := body b; m_hover := m_hover b; m_reg := m_reg b;
       outer_color := "green"%string; inner_color := "green"%string;
       m_press_functor := m_press_functor b; presses := presses b |}.

Definition widen (b : ButtonEvents.t Q string) : ButtonEvents.t Q string :=
    {| body := snd (Button.set_size 500%Q 30%Q (body b));
       m_hover := m_hover b; m_reg := m_reg b;
       outer_color := outer_color b; inner_color := inner_color b;
       m_press_functor := m_press_functor b; presses := presses b |}.

  (** The cursor moves onto the button, the button is pressed and the
      cursor leaves. *)
Lemma highlight_follows_the_last_cursor_event_witness :
    let b := process_events paint_green
               [MouseMoved 20 20; MouseButtonReleased 20 20; MouseMoved 5 5]
               red_button in
    Button.m_is_highlighted (body b) = false
    /\ Button.m_outer (body b) = Button.m_outer (body red_button)
    /\ presses b = 1.
Proof.
    destruct (highlight_follows_the_last_cursor_event paint_green
                [MouseMoved 20 20; MouseButtonReleased 20 20; MouseMoved 5 5]
                red_button (fun b => eq_refl)) as (Hflag & Houter & _).
    cbn zeta. split; [rewrite Hflag; reflexivity |].
    split; [exact Houter | reflexivity].
Defined.

  (** A functor that resizes the button changes its geometry from within
      [process_event]. *)
Lemma press_functor_may_resize :
    let b := process_events widen
               [MouseMoved 20 20; MouseButtonReleased 20 20] red_button in
    DrawRectangle.width (Button.m_outer (body b)) = 500%Q.
Proof. reflexivity. Qed.

  (** The cursor passes beside the button and the mouse button is released
      over it without a move onto it. *)
Lemma no_press_without_hover_witness :
    presses (process_events widen
               [MouseMoved 5 5; MouseButtonReleased 20 20; Resized;
                MouseButtonReleased 20 20] red_button) = 0.
Proof.
    apply (no_press_without_hover widen
             [MouseMoved 5 5; MouseButtonReleased 20 20; Resized;
              MouseButtonReleased 20 20] red_button).
    - reflexivity.
    - repeat constructor; vm_compute; discriminate.
Defined.
End ButtonEventFacts.

(* ===================================================================== *)
(** * TextArea: size validation and the placing of the text *)
(* ===================================================================== *)

Module TextAreaFacts.
Import TextArea.
Section TextAreaFacts.
Context {F : Type} `{FloatOps F}.
Context {U T : Type} `{TextOps F U T}.
Variable k : F.

Abbreviation area := (TextArea.t F T).

  (** What [verify_valid_size] lets through, and what it refuses. *)
Definition valid_size (x : F) : Prop :=
    is_unassigned k x = true \/ (x <! f0) = false.
Definition invalid_size (x : F) : Prop :=
    is_unassigned k x = false /\ (x <! f0) = true.

Lemma valid_or_invalid (x : F) : valid_size x \/ invalid_size x.
Proof.
    unfold valid_size, invalid_size.
    destruct (is_unassigned k x), (x <! f0); auto.
Qed.

Lemma verify_valid (x : F) (caller name : string) (ta : area) :
    valid_size x -> verify_valid_size k x caller name ta = (inr x, ta).
Proof.
    unfold verify_valid_size. intros [-> | Hpos]; [reflexivity |].
    rewrite Hpos. now destruct (is_unassigned k x).
Qed.

Lemma verify_invalid (x : F) (caller name : string) (ta : area) :
    invalid_size x ->
    verify_valid_size k x caller name ta
    = (inl (invalid_argument (invalid_size_msg caller name)), ta).
Proof. unfold verify_valid_size. now intros [-> ->]. Qed.

  (** The width limit [set_max_width_no_update] leaves on the text, and the
      height limit of [set_max_height_no_update]. *)
Definition limit_width (w : F) (text : T) : T :=
    if is_unassigned k w then relieve_width_limit text
    else set_limiting_width w text.
Definition limit_height (h : F) (text : T) : T :=
    if is_unassigned k h then relieve_height_limit text
    else set_limiting_height h text.

Lemma set_max_width_no_update_valid (w : F) (ta : area) :
    valid_size w ->
    set_max_width_no_update k w ta
    = (inr tt, with_text (limit_width w (m_draw_text ta)) ta).
Proof.
    intros Hw. unfold set_max_width_no_update, bind.
    rewrite (verify_valid w _ _ ta Hw). unfold limit_width.
    now destruct (is_unassigned k w).
Qed.

Lemma set_max_height_no_update_valid (h : F) (ta : area) :
    valid_size h ->
    set_max_height_no_update k h ta
    = (inr tt, with_text (limit_height h (m_draw_text ta)) ta).
Proof.
    intros Hh. unfold set_max_height_no_update, bind.
    rewrite (verify_valid h _ _ ta Hh). unfold limit_height.
    now destruct (is_unassigned k h).
Qed.

  (** The three ways a call of [set_size] ends. *)
Lemma set_size_invalid_width (w h : F) (ta : area) :
    invalid_size w ->
    set_size k w h ta
    = (inl (invalid_argument (invalid_size_msg "TextArea::set_size" "width")), ta).
Proof.
    intros Hw. unfold set_size, bind. now rewrite verify_invalid.
Qed.

Lemma set_size_invalid_height (w h : F) (ta : area) :
    valid_size w -> invalid_size h ->
    snd (set_size k w h ta)
    = TextArea.mk (FloatRect.mk (FloatRect.left (m_bounds ta))
                                (FloatRect.top (m_bounds ta)) w
                                (FloatRect.height (m_bounds ta)))
                  (limit_width w (m_draw_text ta))
    /\ fst (set_size k w h ta) <> inr tt.
Proof.
    intros Hw Hh. unfold set_size, bind.
    rewrite verify_valid by exact Hw. cbn [modify].
    rewrite set_max_width_no_update_valid by exact Hw.
    rewrite verify_invalid by exact Hh. split; [reflexivity | discriminate].
Qed.

Lemma set_size_valid (w h : F) (ta : area) :
    valid_size w -> valid_size h ->
    fst (set_size k w h ta) = inr tt
    /\ m_bounds (snd (set_size k w h ta))
       = FloatRect.mk (FloatRect.left (m_bounds ta)) (FloatRect.top (m_bounds ta))
                      w h.
Proof.
    intros Hw Hh. unfold set_size, bind.
    rewrite verify_valid by exact Hw. cbn [modify].
    rewrite set_max_width_no_update_valid by exact Hw.
    rewrite verify_valid by exact Hh. cbn [modify].
    rewrite set_max_height_no_update_valid by exact Hh.
    split; reflexivity.
Qed.

  (** X14.  [TextArea::set_size] checks and stores the width before it looks at
      the height.  A width that is refused leaves the text area as it was;
      a height that is refused, behind a width that is accepted, leaves it
      with the new width stored and the new width limit on the text, the
      height and the place of the text as before; and when both are
      accepted both are stored, both limits set and the text placed. *)
Theorem set_size_stores_the_width_first (w h : F) (ta : area) :
    let bounds := m_bounds ta in
    let widened :=
      TextArea.mk (FloatRect.mk (FloatRect.left bounds) (FloatRect.top bounds) w
                                (FloatRect.height bounds))
                  (limit_width w (m_draw_text ta)) in
    (invalid_size w ->
       set_size k w h ta
       = (inl (invalid_argument (invalid_size_msg "TextArea::set_size" "width")),
          ta))
    /\ (valid_size w -> invalid_size h ->
          set_size k w h ta
          = (inl (invalid_argument (invalid_size_msg "TextArea::set_size" "height")),
             widened))
    /\ (valid_size w -> valid_size h ->
          set_size k w h ta
          = (inr tt,
             recompute_geometry k
               (TextArea.mk (FloatRect.mk (FloatRect.left bounds)
                                          (FloatRect.top bounds) w h)
                            (limit_height h (limit_width w (m_draw_text ta)))))).
Proof.
    cbn zeta. split; [| split].
    - intros Hw. unfold set_size, bind. now rewrite verify_invalid.
    - intros Hw Hh. unfold set_size, bind.
      rewrite verify_valid by exact Hw. cbn [modify].
      rewrite set_max_width_no_update_valid by exact Hw.
      now rewrite verify_invalid.
    - intros Hw Hh. unfold set_size, bind.
      rewrite verify_valid by exact Hw. cbn [modify].
      rewrite set_max_width_no_update_valid by exact Hw.
      rewrite verify_valid by exact Hh. cbn [modify].
      rewrite set_max_height_no_update_valid by exact Hh.
      reflexivity.
Qed.

Definition valid_bounds (ta : area) : Prop :=
    valid_size (FloatRect.width (m_bounds ta))
    /\ valid_size (FloatRect.height (m_bounds ta)).

Lemma set_size_valid_bounds (w h : F) (ta : area) :
    valid_bounds ta -> valid_bounds (snd (set_size k w h ta)).
Proof.
    intros [Hbw Hbh]. unfold valid_bounds.
    destruct (valid_or_invalid w) as [Hw | Hw].
    - destruct (valid_or_invalid h) as [Hh | Hh].
      + rewrite (proj2 (set_size_valid w h ta Hw Hh)).
        split; [exact Hw | exact Hh].
      + rewrite (proj1 (set_size_invalid_height w h ta Hw Hh)).
        split; [exact Hw | exact Hbh].
    - rewrite (set_size_invalid_width w h ta Hw). split; assumption.
Qed.

Lemma set_max_width_bounds (w : F) (ta : area) :
    m_bounds (snd (set_max_width k w ta)) = m_bounds ta.
Proof.
    unfold set_max_width, bind.
    destruct (valid_or_invalid w) as [Hw | Hw].
    - now rewrite set_max_width_no_update_valid.
    - unfold set_max_width_no_update, bind. now rewrite verify_invalid.
Qed.

Lemma set_max_height_bounds (h : F) (ta : area) :
    m_bounds (snd (set_max_height k h ta)) = m_bounds ta.
Proof.
    unfold set_max_height, bind.
    destruct (valid_or_invalid h) as [Hh | Hh].
    - now rewrite set_max_height_no_update_valid.
    - unfold set_max_height_no_update, bind. now rewrite verify_invalid.
Qed.

Lemma area_run_snoc (calls : list (TextArea.call F U)) (c : TextArea.call F U)
      (ta : area) :
    run k (calls ++ [c]) ta = run_call k (run k calls ta) c.
Proof. unfold run. now rewrite fold_left_app. Qed.

  (** X15.  The stored width and height of a text area are sizes
      [verify_valid_size] accepts, the sentinel or a number not below zero,
      after every sequence of calls, the calls that throw included.  So
      [set_width] and [set_height] succeed or throw by their own argument
      alone, though each passes the stored other size through the same
      check. *)
Theorem bounds_stay_valid (calls : list (TextArea.call F U)) (ta : area) :
    valid_bounds ta ->
    let ta' := run k calls ta in
    valid_bounds ta'
    /\ (forall w, valid_size w <-> fst (set_width k w ta') = inr tt)
    /\ (forall h, valid_size h <-> fst (set_height k h ta') = inr tt).
Proof.
    intros Hta. cbn zeta.
    assert (Hvalid : valid_bounds (run k calls ta)).
    { induction calls as [| c calls IH] using rev_ind; [exact Hta |].
      rewrite area_run_snoc.
      destruct c; cbn [run_call]; try exact IH.
      - apply set_size_valid_bounds, IH.
      - apply set_size_valid_bounds, IH.
      - apply set_size_valid_bounds, IH.
      - unfold valid_bounds. now rewrite set_max_width_bounds.
      - unfold valid_bounds. now rewrite set_max_height_bounds. }
    split; [exact Hvalid |].
    destruct Hvalid as [Hbw Hbh]. set (ta' := run k calls ta) in *.
    split.
    - intros w. unfold set_width, bind, get.
      split.
      + intros Hw. exact (proj1 (set_size_valid w _ ta' Hw Hbh)).
      + intros Hrun. destruct (valid_or_invalid w) as [Hw | Hw]; [exact Hw |].
        rewrite (set_size_invalid_width w _ ta' Hw) in Hrun. discriminate.
    - intros h. unfold set_height, bind, get.
      split.
      + intros Hh. exact (proj1 (set_size_valid _ h ta' Hbw Hh)).
      + intros Hrun. destruct (valid_or_invalid h) as [Hh | Hh]; [exact Hh |].
        now destruct (proj2 (set_size_invalid_height _ h ta' Hbw Hh)).
Qed.

  (** X16.  [location()] is the location of the text, not the corner of the
      bounds: for a text that reports the location it was last given,
      [set_location(x, y)] followed by [location()] gives the point
      [recompute_geometry] computed, which is [(x, y)] when neither size is
      assigned. *)
Theorem location_is_where_the_text_is (x y : F) (ta : area) :
    (forall v (text : T), text_location (text_set_location v text) = v) ->
    let moved := set_location k x y ta in
    location moved
    = text_loc k (with_bounds (FloatRect.mk x y (FloatRect.width (m_bounds ta))
                                            (FloatRect.height (m_bounds ta))) ta)
    /\ (is_unassigned k (FloatRect.width (m_bounds ta)) = true ->
        is_unassigned k (FloatRect.height (m_bounds ta)) = true ->
        location moved = mkVectorF x y).
Proof.
    intros Hlaw. cbn zeta. unfold location, set_location, recompute_geometry.
    cbn [with_text m_draw_text]. rewrite Hlaw. split; [reflexivity |].
    intros Hw Hh. unfold text_loc. cbn [with_bounds m_bounds FloatRect.width
      FloatRect.height FloatRect.left FloatRect.top].
    now rewrite Hw, Hh.
Qed.
End TextAreaFacts.

  (** X17.  In exact arithmetic [recompute_geometry] centres the text in the
      bounds along every axis whose size is assigned: the gap before the
      text equals the gap after it.  Along an axis whose size is not
      assigned the text starts where the bounds start. *)
Theorem text_is_centred {U T : Type} `{TextOps Q U T} (k : Q)
      (ta : TextArea.t Q T) :
    let bounds := m_bounds ta in
    let loc := text_loc k ta in
    let text := m_draw_text ta in
    (is_unassigned k (FloatRect.width bounds) = false ->
       (vx loc - FloatRect.left bounds
        == (FloatRect.left bounds + FloatRect.width bounds)
           - (vx loc + text_width text))%Q)
    /\ (is_unassigned k (FloatRect.height bounds) = false ->
          (vy loc - FloatRect.top bounds
           == (FloatRect.top bounds + FloatRect.height bounds)
              - (vy loc + text_height text))%Q)
    /\ (is_unassigned k (FloatRect.width bounds) = true ->
          vx loc = FloatRect.left bounds)
    /\ (is_unassigned k (FloatRect.height bounds) = true ->
          vy loc = FloatRect.top bounds).
Proof.
    cbn zeta. unfold text_loc. cbn [vx vy].
    repeat split; intros Hu; rewrite Hu; try reflexivity;
      cbn [fadd fsub fdiv exactQ]; change (f2 : Q) with 2%Q;
      rewrite !Qred_correct; field.
Qed.

  (** A text for the examples: it keeps the location it is given and has a
      fixed size; the limits are recorded. *)
Record SampleText : Type := mkText {
    st_size : VectorF Q;
    st_location : VectorF Q;
    st_limits : option Q * option Q;
  }.

#[export] Instance sample_text_ops : TextOps Q string SampleText := {|
    text_width t := vx (st_size t);
    text_height t := vy (st_size t);
    text_location := st_location;
    text_set_location v t := mkText (st_size t) v (st_limits t);
    text_set_string _ t := t;
    text_set_character_size _ t := t;
    set_limiting_width w t :=
      mkText (st_size t) (st_location t) (Some w, snd (st_limits t));
    relieve_width_limit t :=
      mkText (st_size t) (st_location t) (None, snd (st_limits t));
    set_limiting_height h t :=
      mkText (st_size t) (st_location t) (fst (st_limits t), Some h);
    relieve_height_limit t :=
      mkText (st_size t) (st_location t) (fst (st_limits t), None);
  |}.

  (** A text of 40 by 12 in bounds 100 wide and of no assigned height, the
      sentinel being -1. *)
Definition sample_area : TextArea.t Q SampleText :=
    TextArea.mk (FloatRect.mk 10%Q 20%Q 100%Q (-1)%Q)
                (mkText (mkVectorF 40%Q 12%Q) (mkVectorF 0%Q 0%Q) (None, None)).

Lemma bounds_stay_valid_witness :
    valid_bounds (-1)%Q
      (run (-1)%Q [call_set_size 80%Q (-5)%Q; call_set_height (-1)%Q;
                   call_set_location 0%Q 0%Q] sample_area)
    /\ FloatRect.width
         (m_bounds (run (-1)%Q [call_set_size 80%Q (-5)%Q] sample_area))
       = 80%Q.
Proof.
    split; [| reflexivity].
    apply (bounds_stay_valid (-1)%Q
             [call_set_size 80%Q (-5)%Q; call_set_height (-1)%Q;
              call_set_location 0%Q 0%Q] sample_area).
    split; [right | left]; reflexivity.
Defined.

Lemma location_is_where_the_text_is_witness :
    location (set_location (-1)%Q 0%Q 0%Q sample_area) = mkVectorF 30%Q 0%Q.
Proof.
    assert (Hlaw : forall v (text : SampleText),
                     text_location (text_set_location v text) = v)
      by reflexivity.
    rewrite (proj1 (location_is_where_the_text_is (-1)%Q 0%Q 0%Q sample_area
                      Hlaw)).
    reflexivity.
Defined.

Lemma text_is_centred_witness :
    (vx (text_loc (-1)%Q sample_area) - 10
     == (10 + 100) - (vx (text_loc (-1)%Q sample_area) + 40))%Q
    /\ vx (text_loc (-1)%Q sample_area) = 40%Q.
Proof.
    split; [| reflexivity].
    exact (proj1 (text_is_centred (-1)%Q sample_area) eq_refl).
Defined.
End TextAreaFacts.

(* ===================================================================== *)
(** * Draggable: clicks, moves and the constraint area *)
(* ===================================================================== *)

Lemma int_wrap_in_range (z : Z) : in_int z -> int_wrap z = z.
Proof.
  unfold in_int, int_wrap. intros Hz.
  rewrite Z.mod_small by lia. lia.
Qed.

Module DragFacts.
Import Draggable.
Section DragFacts.
Context {F : Type} `{FloatOps F} `{RoundOps F}.

Lemma drag_run_snoc (calls : list (Draggable.call F)) (c : Draggable.call F)
      (d : Draggable.t) :
    run (calls ++ [c]) d = run_call (run calls d) c.
Proof. unfold run. now rewrite fold_left_app. Qed.

  (** X18.  While a constraint area is set, a dragged object is reported inside
      it: never left of the area or above it and, for an area of positive
      width and height, never right of it or below it; and a position
      inside the area is reported as it is, the mouse position less the
      offset of the click. *)
Theorem mouse_move_keeps_to_the_area (x y : Z) (d : Draggable.t) :
    let contr := m_position_contraints d in
    let right := (IntRect.left contr + IntRect.width contr)%Z in
    let bottom := (IntRect.top contr + IntRect.height contr)%Z in
    let free_x := (x - fst (m_drag_offset d))%Z in
    let free_y := (y - snd (m_drag_offset d))%Z in
    m_dragged d = true -> has_position_contraints d = true ->
    in_int free_x -> in_int free_y -> in_int right -> in_int bottom ->
    exists x' y',
      reported (mouse_move x y d) = (x', y') :: reported d
      /\ (IntRect.left contr <= x')%Z /\ (IntRect.top contr <= y')%Z
      /\ ((0 < IntRect.width contr)%Z -> (x' <= right)%Z)
      /\ ((0 < IntRect.height contr)%Z -> (y' <= bottom)%Z)
      /\ ((IntRect.left contr <= free_x <= right)%Z -> x' = free_x)
      /\ ((IntRect.top contr <= free_y <= bottom)%Z -> y' = free_y).
Proof.
    cbn zeta. intros Hdrag Hcon Hx Hy Hr Hb.
    unfold mouse_move. rewrite Hdrag, Hcon. cbn [negb].
    unfold int_sub, int_add. rewrite !int_wrap_in_range by assumption.
    cbn [update_drag_position reported].
    eexists _, _. split; [reflexivity |].
    repeat split; intros; lia.
Qed.

  (** X19.  [update_drag_position] is not called before a click lands: from an
      object that is not being dragged, a sequence of calls in which no
      click is both watched for and inside its rectangle reports nothing and
      leaves the object not dragged. *)
Theorem nothing_is_reported_before_a_click
      (calls : list (Draggable.call F)) (d : Draggable.t) :
    m_dragged d = false ->
    Forall (fun c => match c with
                     | call_mouse_click x y drect =>
                         m_watch_drag_events d && is_in_rect x y drect = false
                     | _ => True
                     end) calls ->
    reported (run calls d) = reported d
    /\ m_dragged (run calls d) = false
    /\ m_watch_drag_events (run calls d) = m_watch_drag_events d.
Proof.
    intros Hdrag. induction calls as [| c calls IH] using rev_ind; intros Hall.
    - repeat split. exact Hdrag.
    - apply Forall_app in Hall as [Hall Hc].
      apply Forall_cons in Hc as [Hc _].
      destruct (IH Hall) as (Hrep & Hd & Hwatch).
      rewrite drag_run_snoc. set (d1 := run calls d) in *.
      destruct c as [x y | x y drect | area |]; cbn [run_call].
      + unfold mouse_move. rewrite Hd. cbn [negb]. now repeat split.
      + unfold mouse_click. rewrite Hwatch.
        destruct (m_watch_drag_events d); cbn [negb andb] in *;
          [rewrite Hc |]; now repeat split.
      + unfold set_drag_contraints.
        destruct ((IntRect.width area =? 0)%Z || (IntRect.height area =? 0)%Z);
          now repeat split.
      + now repeat split.
Qed.

  (** X20.  The constraint area an object holds is never of zero width or height
      unless it is the default rectangle, which stands for no constraint:
      [set_drag_contraints] refuses such an area and leaves the object as it
      was, accepts every other and turns the constraint on, and
      [remove_drag_contraints] turns it off. *)
Theorem drag_contraints_are_never_of_zero_area :
    (forall area (d : Draggable.t),
        IntRect.width area = 0%Z \/ IntRect.height area = 0%Z ->
        set_drag_contraints area d = (inl (invalid_argument k_zero_area_msg), d))
    /\ (forall area (d : Draggable.t),
          IntRect.width area <> 0%Z -> IntRect.height area <> 0%Z ->
          set_drag_contraints area d = (inr tt, with_contraints area d)
          /\ has_position_contraints (with_contraints area d) = true)
    /\ (forall d : Draggable.t,
          has_position_contraints (remove_drag_contraints d) = false)
    /\ (forall (calls : list (Draggable.call F)) (d : Draggable.t),
          has_position_contraints d = true
          \/ m_position_contraints d = IntRect.default ->
          has_position_contraints (run calls d) = true
          \/ m_position_contraints (run calls d) = IntRect.default).
Proof.
    assert (Hset : forall area (d : Draggable.t),
               IntRect.width area <> 0%Z -> IntRect.height area <> 0%Z ->
               set_drag_contraints area d = (inr tt, with_contraints area d)
               /\ has_position_contraints (with_contraints area d) = true).
    { intros area d Hw Hh. unfold set_drag_contraints, has_position_contraints.
      cbn [with_contraints m_position_contraints].
      apply Z.eqb_neq in Hw, Hh. now rewrite Hw, Hh. }
    split; [| split; [exact Hset | split]].
    - intros area d Hzero. unfold set_drag_contraints.
      destruct Hzero as [-> | ->]; cbn [Z.eqb orb]; [reflexivity |].
      now rewrite orb_true_r.
    - reflexivity.
    - intros calls d Hd. induction calls as [| c calls IH] using rev_ind;
        [exact Hd |].
      rewrite drag_run_snoc. set (d1 := run calls d) in *.
      destruct c as [x y | x y drect | area |]; cbn [run_call].
      + assert (Hsame : m_position_contraints (mouse_move x y d1)
                        = m_position_contraints d1).
        { unfold mouse_move. destruct (negb (m_dragged d1)); [reflexivity |].
          now destruct (has_position_contraints d1). }
        unfold has_position_contraints in *. now rewrite Hsame.
      + assert (Hsame : m_position_contraints (snd (mouse_click x y drect d1))
                        = m_position_contraints d1).
        { unfold mouse_click. destruct (negb (m_watch_drag_events d1));
            [reflexivity |].
          now destruct (is_in_rect x y drect). }
        unfold has_position_contraints in *. now rewrite Hsame.
      + destruct (Z.eq_dec (IntRect.width area) 0%Z) as [Hw | Hw].
        { unfold set_drag_contraints. rewrite Hw. exact IH. }
        destruct (Z.eq_dec (IntRect.height area) 0%Z) as [Hh | Hh].
        { unfold set_drag_contraints. rewrite Hh, orb_true_r. exact IH. }
        destruct (Hset area d1 Hw Hh) as [-> Hhas]. now left.
      + now right.
Qed.
End DragFacts.

Lemma Qred_inject_Z (z : Z) : Qred (inject_Z z) = inject_Z z.
Proof.
    unfold Qred, inject_Z.
    pose proof (Z.ggcd_gcd z 1) as Hg.
    pose proof (Z.ggcd_correct_divisors z 1) as Hd.
    destruct (Z.ggcd z 1) as [g [aa bb]]. cbn [fst snd] in *.
    rewrite Z.gcd_1_r in Hg. subst g. destruct Hd as [Ha Hb].
    rewrite Z.mul_1_l in Ha, Hb. rewrite <- Ha, <- Hb. reflexivity.
Qed.

  (** In exact arithmetic the difference of two integers rounds to
      itself. *)
Lemma round_difference (a b : Z) :
    round ((f_of_Z a : Q) -! f_of_Z b) = Some (a - b)%Z.
Proof.
    cbn [f_of_Z fsub exactQ].
    assert (Hred : Qred (inject_Z a - inject_Z b) = inject_Z (a - b)).
    { rewrite <- (Qred_inject_Z (a - b)). apply Qred_complete.
      unfold inject_Z, Qminus, Qplus, Qopp, Qeq. cbn. lia. }
    rewrite Hred. cbn [round exactQ_round]. f_equal.
    destruct (Qle_bool 0 (inject_Z (a - b))).
    - unfold Qfloor, Qplus, inject_Z. cbn [Qnum Qden].
      rewrite Z.mul_1_l. change (Z.pos (1 * 2)) with 2%Z.
      rewrite Z.div_add_l by lia. change (1 / 2)%Z with 0%Z. lia.
    - unfold Qceiling, Qfloor, Qminus, Qplus, Qopp, inject_Z. cbn [Qnum Qden].
      change (Z.pos (1 * 2)) with 2%Z.
      replace (- ((a - b) * 2 + - (1) * 1))%Z with (- (a - b) * 2 + 1)%Z by lia.
      rewrite Z.div_add_l by lia. change (1 / 2)%Z with 0%Z. lia.
Qed.

Lemma int_of_rounded_in_range (z : Z) : in_int z -> int_of_rounded (Some z) = z.
Proof.
    unfold in_int, int_of_rounded. intros [Hlo Hhi].
    destruct (Z.leb_spec (- 2 ^ 31) z) as [_ | Hno]; [| lia].
    destruct (Z.ltb_spec z (2 ^ 31)) as [_ | Hno]; [reflexivity | lia].
Qed.

  (** X21.  A drag starts without a jump.  In exact arithmetic, for a rectangle at
      a whole-numbered position and an object without constraint area,
      where the offset of the click and the reported position fit an
      [int]: a click inside the rectangle is taken, and a mouse move that
      follows it, to the point of the click displaced by [(dx, dy)],
      reports the position of the rectangle displaced by [(dx, dy)]. *)
Theorem drag_starts_without_a_jump (cx cy rx ry dx dy : Z) (rw rh : Q)
      (d : Draggable.t) :
    let drect := DrawRectangle.mk (inject_Z rx) (inject_Z ry) rw rh in
    m_watch_drag_events d = true ->
    is_in_rect cx cy drect = true ->
    has_position_contraints d = false ->
    in_int (cx - rx) -> in_int (cy - ry) ->
    in_int (rx + dx) -> in_int (ry + dy) ->
    fst (mouse_click cx cy drect d) = true
    /\ reported (mouse_move (cx + dx) (cy + dy) (snd (mouse_click cx cy drect d)))
       = ((rx + dx)%Z, (ry + dy)%Z) :: reported d.
Proof.
    cbn zeta. intros Hwatch Hin Hfree Hox Hoy Hx Hy.
    unfold mouse_click. rewrite Hwatch, Hin. cbn [negb fst snd].
    split; [reflexivity |].
    unfold mouse_move, has_position_contraints in *.
    cbn [m_dragged m_position_contraints m_drag_offset negb fst snd
         DrawRectangle.x DrawRectangle.y].
    rewrite Hfree.
    change (inject_Z rx) with (f_of_Z rx : Q).
    change (inject_Z ry) with (f_of_Z ry : Q).
    rewrite !round_difference.
    rewrite !int_of_rounded_in_range by assumption.
    cbn [update_drag_position reported]. unfold int_sub.
    replace (cx + dx - (cx - rx))%Z with (rx + dx)%Z by lia.
    replace (cy + dy - (cy - ry))%Z with (ry + dy)%Z by lia.
    now rewrite !int_wrap_in_range by assumption.
Qed.

  (** An object being dragged with the offset (3, 4), held to the area from
      (0, 0) to (100, 50). *)
Definition held : Draggable.t :=
    {| m_watch_drag_events := true; m_dragged := true; m_drag_offset := (3, 4)%Z;
       m_position_contraints := IntRect.mk 0 0 100 50; reported := [] |}.

Definition idle : Draggable.t :=
    {| m_watch_drag_events := true; m_dragged := false; m_drag_offset := (0, 0)%Z;
       m_position_contraints := IntRect.default; reported := [] |}.

Definition handle : DrawRectangle.t Q := DrawRectangle.mk 20%Q 30%Q 60%Q 10%Q.

Lemma mouse_move_keeps_to_the_area_witness :
    reported (mouse_move 250 20 held) = [(100, 16)%Z].
Proof.
    assert (Hin : forall z, (- 1000 <= z <= 1000)%Z -> in_int z).
    { intros z Hz. unfold in_int. change (2 ^ 31)%Z with 2147483648%Z. lia. }
    destruct (mouse_move_keeps_to_the_area 250 20 held eq_refl eq_refl)
      as (x' & y' & Hrep & _ & _ & Hright & _ & _ & Hy);
      try (apply Hin; cbn; lia).
    rewrite Hrep in *. cbn in Hright, Hy, Hrep.
    injection Hrep as <- <-. reflexivity.
Defined.

Lemma nothing_is_reported_before_a_click_witness :
    reported (run [call_mouse_move 25 35; call_mouse_click 5 5 handle;
                   call_mouse_move 30 30; call_remove_drag_contraints] idle)
    = [].
Proof.
    apply (nothing_is_reported_before_a_click
             [call_mouse_move 25 35; call_mouse_click 5 5 handle;
              call_mouse_move 30 30; call_remove_drag_contraints] idle).
    - reflexivity.
    - repeat constructor.
Defined.

Lemma drag_starts_without_a_jump_witness :
    reported (mouse_move 27 33 (snd (mouse_click 25 35 handle idle)))
    = [(22, 28)%Z].
Proof.
    apply (drag_starts_without_a_jump 25 35 20 30 2 (-2) 60%Q 10%Q idle);
      try reflexivity; unfold in_int; change (2 ^ 31)%Z with 2147483648%Z; lia.
Defined.

  (** A rectangle far to the left: the offset of a click at 0 does not fit
      an [int], the conversion gives [INT_MIN], and the position reported
      for the next mouse move is not that of the rectangle displaced. *)
Lemma offset_out_of_range_jumps :
    let far := DrawRectangle.mk (inject_Z (- 3000000000)) 0%Q 4000000000%Q 10%Q in
    let d := snd (mouse_click 0 5 far idle) in
    m_dragged d = true
    /\ m_drag_offset d = ((- 2 ^ 31)%Z, 5%Z)
    /\ reported (mouse_move 1000000000 5 d) <> [((- 2000000000)%Z, 0%Z)].
Proof. cbn zeta. repeat split. vm_compute. discriminate. Qed.
End DragFacts.

(* ===================================================================== *)
(** * Frame geometry: what the passes read and what they leave alone *)
(* ===================================================================== *)

Module LayoutFacts.
Import Layout.
Section LayoutFacts.
Context {F : Type} `{FloatOps F}.
Context {B : Type} `{FrameBorderOps F B}.
Abbreviation Widget := (Layout.Widget F B).
Abbreviation Frame := (Layout.Frame F B).

Definition is_frame (w : Widget) : bool :=
    match w with SubFrame _ => true | _ => false end.

  (** [w'] is [w] at another place: a leaf or a spacer that was moved. *)
Definition moved (w w' : Widget) : Prop :=
    is_frame w = false /\ exists x y, w' = widget_set_location x y w.

Lemma sigw_moved (w w' : Widget) :
    moved w w' -> FinalizeFacts.sigw w' = FinalizeFacts.sigw w.
Proof.
    intros (Hleaf & x & y & ->). destruct w; try reflexivity. discriminate.
Qed.

  (** X22.  The fit size of a frame reads its widgets' sizes, never their places
      or the widths its spacers were given: it is the same after
      [update_horizontal_spacers], and the same for a widget list in which
      leaves and spacers have been moved. *)
Theorem fit_ignores_places_and_spacer_widths :
    (forall fr : Frame,
        compute_size_to_fit (update_horizontal_spacers fr)
        = compute_size_to_fit fr)
    /\ (forall (b : B) (p : F) (ws ws' : list Widget),
          Forall2 moved ws ws' ->
          compute_size_to_fit (mkFrame b p ws')
          = compute_size_to_fit (mkFrame b p ws)).
Proof.
    split.
    - intros [b p ws]. apply FinalizeFacts.compute_size_to_fit_sig.
      unfold update_horizontal_spacers, with_widgets.
      cbn [m_border m_padding]. rewrite !FinalizeFacts.sig_frame.
      now rewrite FinalizeFacts.sigw_uhs_run.
    - intros b p ws ws' Hmoved. apply FinalizeFacts.compute_size_to_fit_sig.
      rewrite !FinalizeFacts.sig_frame. f_equal.
      induction Hmoved as [| w w' ws ws' Hw _ IH]; [reflexivity |].
      cbn [map]. now rewrite IH, (sigw_moved w w' Hw).
Qed.

  (** Every frame of the tree has a width and a height other than zero. *)
Fixpoint all_sized (fr : Frame) : Prop :=
    let '(mkFrame b p ws) := fr in
    (border_width b ==! f0) || (border_height b ==! f0) = false
    /\ fold_right and True
         (map (fun w => match w with
                        | SubFrame child => all_sized child
                        | _ => True
                        end) ws).

  (** X23.  "Ignore auto resize if the frame has a width/height already set":
      [issue_auto_resize] changes nothing in a tree all of whose frames
      have a width and a height other than zero. *)
Theorem issue_auto_resize_leaves_sized_frames (fr : Frame) :
    all_sized fr -> issue_auto_resize fr = fr.
Proof.
    induction fr as [b p ws IH] using FinalizeFacts.Frame_nested_ind.
    cbn [all_sized]. intros [Hsize Hchildren].
    rewrite FinalizeFacts.issue_auto_resize_unfold.
    assert (Hmap : map FinalizeFacts.auto_resize_widget ws = ws).
    { induction ws as [| w ws IHws]; [reflexivity |].
      cbn [map fold_right] in Hchildren |- *. destruct Hchildren as [Hw Hws].
      apply Forall_cons in IH as [IHw IHrest].
      rewrite (IHws IHrest Hws). f_equal.
      destruct w as [l | s | | child]; try reflexivity.
      cbn [FinalizeFacts.auto_resize_widget]. f_equal. now apply IHw. }
    rewrite Hmap. unfold FinalizeFacts.resize_self, width, height.
    cbn [m_border]. now rewrite Hsize.
Qed.

  (** Every spacer the pass leaves behind was given its width by the pass:
      it stands in a line with [n >= 1] spacers and has the width computed
      for that line. *)
Lemma spacers_are_set (fr : Frame) (i : nat) (s' : HorizontalSpacer F) :
    m_widgets (update_horizontal_spacers fr) !! i = Some (Spacer s') ->
    exists b e x s,
      (b, e, x) ∈ uhs_lines (uhs_run fr) /\ b <= i < e
      /\ 1 <= horz_spacer_count b e (m_widgets fr)
      /\ m_widgets fr !! i = Some (Spacer s)
      /\ s' = set_width
                (width_per_spacer
                   (fmax (width_available_for_widgets (m_border fr) -! x) f0)
                   (horz_spacer_count b e (m_widgets fr)) (m_padding fr)) s.
Proof.
    intros Hi.
    assert (Hws' : m_widgets (update_horizontal_spacers fr)
                   = uhs_widgets (uhs_run fr)) by now destruct fr.
    rewrite Hws' in Hi.
    destruct (SpacerFacts.uhs_run_inv fr) as (Hinv & Hchain).
    cbn zeta in Hinv, Hchain.
    assert (Hlt : i < length (m_widgets fr)).
    { rewrite <- (SpacerFacts.inv_length _ _ _ _ _ Hinv).
      eapply lookup_lt_Some, Hi. }
    destruct (SpacerFacts.chain_covers _ _ _ Hchain i ltac:(lia))
      as (b & e & x & Hin & Hbe).
    pose proof (SpacerFacts.inv_done _ _ _ _ _ Hinv b e x i Hin Hbe) as Hdone.
    rewrite Hi in Hdone.
    destruct (m_widgets fr !! i) as [[l | s | | child] |] eqn:Hi0;
      try discriminate.
    cbn in Hdone. injection Hdone as ->.
    exists b, e, x, s. repeat split; try assumption; try lia.
    now apply (SpacerFacts.horz_spacer_count_pos b e i (m_widgets fr) (Spacer s)).
Qed.

  (** X24.  The positioning loop places every widget that is neither a spacer nor
      a line separator either at the start of a line or where it ends at or
      before the right limit of the frame: a widget passes the right limit
      only when it is too wide for a line of its own. *)
Theorem placed_widgets_fit_or_start_a_line (fr : Frame) (i : nat)
      (w w' : Widget) :
    let start_x := vx (widget_start (m_border fr)) +! m_padding fr in
    let k_right_limit := vx (location fr) +! width fr in
    m_widgets fr !! i = Some w ->
    fst (place_run fr) !! i = Some w' ->
    is_line_seperator w = false -> is_horizontal_spacer w = false ->
    exists x y,
      w' = widget_set_location x y w
      /\ (x = start_x
          \/ (k_right_limit <! x +! get_widget_advance (m_padding fr) w) = false).
Proof.
    cbn zeta. unfold place_run.
    generalize (place_start fr).
    generalize (vx (location fr) +! width fr).
    generalize (vx (widget_start (m_border fr)) +! m_padding fr).
    generalize (m_padding fr). generalize (m_widgets fr).
    intros ws. revert i. induction ws as [| w0 ws IH];
      intros i padding start_x k_right_limit st Hi Hi' Hsep Hsp.
    - discriminate.
    - cbn [place_loop] in Hi'.
      destruct (place_step start_x k_right_limit padding st w0)
        as [placed st1] eqn:Hstep.
      destruct (place_loop start_x k_right_limit padding st1 ws)
        as [rest' st2] eqn:Hloop.
      destruct i as [| i].
      + cbn in Hi, Hi'. injection Hi as ->. injection Hi' as ->.
        unfold place_step in Hstep. rewrite Hsep, Hsp in Hstep.
        injection Hstep as <- _.
        destruct (k_right_limit <! pl_x st +! get_widget_advance padding w)
          eqn:Hover; eexists _, _; (split; [reflexivity |]).
        * now left.
        * now right.
      + cbn in Hi, Hi'.
        apply (IH i padding start_x k_right_limit st1 Hi); try assumption.
        now rewrite Hloop.
Qed.

  (** What the geometry passes leave alone in a tree of widgets: the kinds
      of the widgets and their order, the sizes of the leaves and the
      paddings of the frames. *)
Inductive Shape : Type :=
  | ShLeaf (w h : F)
  | ShSpacer
  | ShLineSep
  | ShFrame (padding : F) (children : list Shape).

Fixpoint shape (fr : Frame) : Shape :=
    let '(mkFrame b p ws) := fr in
    ShFrame p (map (fun w =>
                      match w with
                      | Leaf l => ShLeaf (leaf_width l) (leaf_height l)
                      | Spacer _ => ShSpacer
                      | LineSep => ShLineSep
                      | SubFrame child => shape child
                      end) ws).

Definition shapew (w : Widget) : Shape :=
    match w with
    | Leaf l => ShLeaf (leaf_width l) (leaf_height l)
    | Spacer _ => ShSpacer
    | LineSep => ShLineSep
    | SubFrame child => shape child
    end.

Lemma shape_frame (b : B) (p : F) (ws : list Widget) :
    shape (mkFrame b p ws) = ShFrame p (map shapew ws).
Proof. reflexivity. Qed.

Lemma shape_with_border (b : B) (fr : Frame) : shape (with_border b fr) = shape fr.
Proof. now destruct fr. Qed.

Lemma shapew_set_location (x y : F) (w : Widget) :
    shapew (widget_set_location x y w) = shapew w.
Proof.
    destruct w as [l | s | | child]; try reflexivity.
    cbn [widget_set_location shapew]. apply shape_with_border.
Qed.

Lemma shapew_spacer_set_width (v : F) (w : Widget) :
    shapew (spacer_set_width v w) = shapew w.
Proof. now destruct w. Qed.

Lemma shape_resize_self (fr : Frame) : shape (FinalizeFacts.resize_self fr) = shape fr.
Proof.
    unfold FinalizeFacts.resize_self.
    destruct ((width fr ==! f0) || (height fr ==! f0)); [| reflexivity].
    apply shape_with_border.
Qed.

Lemma shape_issue_auto_resize (fr : Frame) : shape (issue_auto_resize fr) = shape fr.
Proof.
    induction fr as [b p ws IH] using FinalizeFacts.Frame_nested_ind.
    rewrite FinalizeFacts.issue_auto_resize_unfold, shape_resize_self.
    rewrite !shape_frame. f_equal.
    induction ws as [| w ws IHws]; [reflexivity |].
    apply Forall_cons in IH as [IHw IHrest]. cbn [map].
    rewrite (IHws IHrest). f_equal.
    destruct w as [l | s | | child]; try reflexivity. exact IHw.
Qed.

Lemma shapew_uhs_run (fr : Frame) :
    map shapew (uhs_widgets (uhs_run fr)) = map shapew (m_widgets fr).
Proof.
    apply list_eq. intros i. rewrite !list_lookup_fmap.
    destruct (FinalizeFacts.uhs_run_pointwise fr i) as (v & ->).
    destruct (m_widgets fr !! i) as [w |]; [| reflexivity].
    cbn. now rewrite shapew_spacer_set_width.
Qed.

Lemma shapew_place_loop start_x k_right_limit padding (st : place_state F)
      (ws : list Widget) :
    map shapew (fst (place_loop start_x k_right_limit padding st ws))
    = map shapew ws.
Proof.
    pose proof (FinalizeFacts.place_loop_shape start_x k_right_limit padding
                  ws st) as Hshape.
    induction Hshape as [| w w' ws ws' (x & y & ->) _ IH]; [reflexivity |].
    cbn [map]. now rewrite IH, shapew_set_location.
Qed.

  (** X25.  The geometry finalize of a frame changes places, frame sizes and
      spacer widths and nothing else: the tree it returns has the widgets of
      the tree it was given, in their order and nesting, every leaf with the
      size it had and every frame with the padding it had. *)
Theorem finalize_widgets_keeps_the_shape (fuel : nat) (fr r : Frame) :
    finalize_widgets fuel fr = Some r -> shape r = shape fr.
Proof.
    revert fr r. induction fuel as [| fuel IH]; intros [b p ws] r Hrun;
      [discriminate |].
    rewrite FinalizeFacts.finalize_widgets_stages in Hrun. cbn zeta in Hrun.
    set (fr1 := FinalizeFacts.resize_self
                  (mkFrame b p (map FinalizeFacts.auto_resize_widget ws))) in *.
    set (b2 := update_geometry (m_border fr1)) in *.
    set (ws3 := uhs_widgets (uhs_run (mkFrame b2 (m_padding fr1) (m_widgets fr1))))
      in *.
    set (placed := place_loop _ _ _ _ ws3) in *.
    destruct (mapM (FinalizeFacts.finalize_child fuel) (fst placed))
      as [ws5 |] eqn:Hmap; [| discriminate].
    injection Hrun as <-.
    destruct (FinalizeFacts.resize_self_widgets
                (mkFrame b p (map FinalizeFacts.auto_resize_widget ws)))
      as [Hws1 Hp1].
    fold fr1 in Hws1, Hp1. cbn [m_widgets m_padding] in Hws1, Hp1.
    rewrite !shape_frame, Hp1. f_equal.
    transitivity (map shapew (fst placed)).
    { apply mapM_Some in Hmap.
      induction Hmap as [| w w' l l' Hw _ IHl]; [reflexivity |].
      cbn [map]. rewrite IHl. f_equal.
      destruct w as [lf | s | | child]; cbn in Hw; try (now injection Hw as <-).
      destruct (finalize_widgets fuel child) as [done |] eqn:Hchild;
        [| discriminate].
      injection Hw as <-. cbn [shapew]. now apply IH. }
    subst placed. rewrite shapew_place_loop. subst ws3.
    rewrite shapew_uhs_run. cbn [m_widgets]. rewrite Hws1.
    rewrite map_map. apply map_ext. intros w.
    destruct w as [lf | s | | child]; try reflexivity.
    cbn [FinalizeFacts.auto_resize_widget shapew].
    apply shape_issue_auto_resize.
Qed.
End LayoutFacts.

Section SpacerWidthsBinary32.
Context {B : Type} `{FrameBorderOps spec_float B}.

Lemma b32_width_per_spacer_sane (left_over_space : spec_float) (n : nat)
      (padding : spec_float) :
    width_per_spacer left_over_space n padding <> S754_nan
    /\ (width_per_spacer left_over_space n padding <! f0) = false.
Proof.
    unfold width_per_spacer, fmax.
    set (v := left_over_space /! f_of_Z (Z.of_nat n) -! padding).
    destruct (f0 <! v) eqn:Hpos.
    - rewrite b32_f0 in *. clearbody v.
      destruct v as [sg | sg | | sg m e]; try discriminate;
        destruct sg; try discriminate; split; (discriminate || reflexivity).
    - rewrite b32_f0. split; [discriminate | reflexivity].
Qed.

  (** X26.  In binary32, whatever the sizes, the padding and the border, NaN
      and infinities included: after [update_horizontal_spacers] the width
      of every spacer of the frame is a number, not a NaN, and is not below
      zero.  [std::max(0.f, w)] returns [0.f] for a [w] that is a NaN. *)
Theorem spacer_widths_are_never_negative (fr : Layout.Frame spec_float B)
      (i : nat) (s' : HorizontalSpacer spec_float) :
    m_widgets (update_horizontal_spacers fr) !! i = Some (Spacer s') ->
    hs_width s' <> S754_nan /\ (hs_width s' <! f0) = false.
Proof.
    intros Hi.
    destruct (spacers_are_set fr i s' Hi) as (b & e & x & s & _ & _ & _ & _ & ->).
    cbn [set_width hs_width]. apply b32_width_per_spacer_sane.
Qed.
End SpacerWidthsBinary32.

Section SpacerWidthsExact.
Context {B : Type} `{FrameBorderOps Q B}.

Lemma fmax_Q (a b : Q) : (fmax a b == Qmax a b)%Q.
Proof.
    unfold fmax. cbn [fltb exactQ].
    destruct (Qltb a b) eqn:Hab.
    - apply Qltb_lt in Hab. symmetry. apply Q.max_r. lra.
    - apply Qltb_ge in Hab. symmetry. now apply Q.max_l.
Qed.

Lemma width_per_spacer_shares (left_over_space padding : Q) (n : nat) :
    (0 <= left_over_space)%Q -> (0 <= padding)%Q -> 1 <= n ->
    (0 <= width_per_spacer left_over_space n padding)%Q
    /\ (inject_Z (Z.of_nat n) * width_per_spacer left_over_space n padding
        <= left_over_space)%Q.
Proof.
    intros Hl Hp Hn. unfold width_per_spacer.
    rewrite fmax_Q. cbn [fsub fdiv f_of_Z exactQ]. change (f0 : Q) with 0%Q.
    rewrite !Qred_correct.
    set (m := inject_Z (Z.of_nat n)).
    assert (Hm : (1 <= m)%Q).
    { subst m. change 1%Q with (inject_Z 1). rewrite <- Zle_Qle. lia. }
    set (q := (left_over_space / m)%Q).
    assert (Hq : (q * m == left_over_space)%Q).
    { subst q. field. lra. }
    split; [apply Q.le_max_l |].
    destruct (Q.max_spec 0 (q - padding)%Q) as [[_ ->] | [_ ->]]; nra.
Qed.

  (** In exact arithmetic and for a padding that is not negative the pass
      never sums less than the used width of a line: before the turn at
      position [k] its [x] and [pad_fix] are not below those of the used
      width, and the [x] of a closed line is not below its used width. *)
Record sum_inv (padding : Q) (ws0 : list (Layout.Widget Q B)) (k : nat)
      (st : uhs_state Q B) : Prop := {
    sum_now :
      let d := SpacerFacts.used_state padding (range (uhs_line_begin st) k ws0) in
      (fst d <= uhs_x st)%Q /\ (snd d <= uhs_pad_fix st)%Q;
    sum_done : forall b e x,
        (b, e, x) ∈ uhs_lines st ->
        (SpacerFacts.used_width padding (range b e ws0) <= x)%Q;
  }.

Lemma sum_inv_step (k_horz_space padding : Q) (ws0 : list (Layout.Widget Q B))
      (k : nat) (st : uhs_state Q B) :
    (0 <= padding)%Q ->
    SpacerFacts.uhs_inv k_horz_space padding ws0 k st ->
    sum_inv padding ws0 k st ->
    sum_inv padding ws0 (S k) (uhs_step k_horz_space padding st k).
Proof.
    intros Hp Hinv [Hnow Hdone]. cbn zeta in Hnow. unfold uhs_step.
    pose proof (SpacerFacts.inv_begin _ _ _ _ _ Hinv) as Hbeg.
    rewrite (SpacerFacts.inv_rest _ _ _ _ _ Hinv k Hbeg).
    destruct (ws0 !! k) as [w |] eqn:Hk.
    2: { split; [| exact Hdone]. cbn zeta.
         assert (Hlen : length ws0 <= k) by now apply lookup_ge_None.
         replace (range (uhs_line_begin st) (S k) ws0)
           with (range (uhs_line_begin st) k ws0); [exact Hnow |].
         unfold range. rewrite !take_ge; try reflexivity; rewrite length_drop; lia. }
    set (d := SpacerFacts.used_state padding (range (uhs_line_begin st) k ws0)) in *.
    assert (Hnext : SpacerFacts.used_state padding
                      (range (uhs_line_begin st) (S k) ws0)
                    = SpacerFacts.used_step padding d w).
    { now rewrite (SpacerFacts.range_snoc _ _ _ _ Hbeg Hk),
        SpacerFacts.used_state_snoc. }
    assert (Hopen : SpacerFacts.used_state padding (range k (S k) ws0)
                    = SpacerFacts.used_step padding (f0, f0) w).
    { rewrite (SpacerFacts.range_snoc _ _ _ _ (Nat.le_refl k) Hk).
      unfold range. now rewrite Nat.sub_diag, take_0. }
    destruct Hnow as [Hx Hfix].
    destruct (is_horizontal_spacer w) eqn:Hsp.
    { split; cbn [uhs_x uhs_pad_fix uhs_line_begin uhs_lines]; [| exact Hdone].
      cbn zeta. rewrite Hnext. unfold SpacerFacts.used_step. rewrite Hsp.
      cbn [fst snd fadd exactQ]. rewrite !Qred_correct.
      split; [lra | apply Qle_refl]. }
    assert (Hclose : sum_inv padding ws0 (S k)
              (mkUhs (f0 +! get_widget_advance padding w) f0 k
                 (set_horz_spacer_widths (uhs_line_begin st) k
                    (fmax (k_horz_space -! uhs_x st) f0) padding (uhs_widgets st))
                 (uhs_lines st ++ [(uhs_line_begin st, k, uhs_x st)]))).
    { split; cbn [uhs_x uhs_pad_fix uhs_line_begin uhs_lines].
      - cbn zeta. rewrite Hopen. unfold SpacerFacts.used_step. rewrite Hsp.
        cbn [fst snd]. split; [apply Qle_refl |].
        destruct (is_line_seperator w); [apply Qle_refl |].
        cbn [fopp exactQ]. rewrite Qred_correct. change (f0 : Q) with 0%Q. lra.
      - intros b e x Hin.
        apply elem_of_app in Hin as [Hin | Hin]; [now apply Hdone |].
        apply list_elem_of_singleton in Hin. injection Hin as -> -> ->.
        exact Hx. }
    destruct (k_horz_space <! uhs_x st +! get_widget_advance padding w);
      [exact Hclose |].
    destruct (is_line_seperator w) eqn:Hsep; cbn [orb]; [exact Hclose |].
    split; cbn [uhs_x uhs_pad_fix uhs_line_begin uhs_lines]; [| exact Hdone].
    cbn zeta. rewrite Hnext. unfold SpacerFacts.used_step. rewrite Hsp, Hsep.
    cbn [fst snd fadd exactQ]. rewrite !Qred_correct.
    split; [lra | apply Qle_refl].
Qed.

Lemma sum_inv_loop (k_horz_space padding : Q) (ws0 : list (Layout.Widget Q B))
      (n k : nat) (st : uhs_state Q B) :
    (0 <= padding)%Q ->
    SpacerFacts.uhs_inv k_horz_space padding ws0 k st ->
    sum_inv padding ws0 k st ->
    sum_inv padding ws0 (k + n)
      (fold_left (uhs_step k_horz_space padding) (seq k n) st).
Proof.
    intros Hp. revert k st. induction n as [| n IH]; intros k st Hinv Hsum.
    - now rewrite Nat.add_0_r.
    - cbn [seq fold_left]. rewrite <- Nat.add_succ_comm.
      apply IH; [now apply SpacerFacts.uhs_inv_step | now apply sum_inv_step].
Qed.

Lemma pass_sums_the_used_width_or_more (fr : Layout.Frame Q B) (b e : nat) (x : Q) :
    (0 <= m_padding fr)%Q ->
    (b, e, x) ∈ uhs_lines (uhs_run fr) ->
    (SpacerFacts.used_width (m_padding fr) (range b e (m_widgets fr)) <= x)%Q.
Proof.
    intros Hp. unfold uhs_run, uhs_loop.
    set (k_horz_space := width_available_for_widgets (m_border fr)).
    pose proof (SpacerFacts.uhs_inv_loop k_horz_space (m_padding fr) (m_widgets fr)
                  (length (m_widgets fr)) 0 _
                  (SpacerFacts.uhs_inv_start k_horz_space (m_padding fr)
                     (m_widgets fr))) as Hinv.
    assert (Hstart : sum_inv (m_padding fr) (m_widgets fr) 0
                       (mkUhs f0 f0 0 (m_widgets fr) [])).
    { split; cbn [uhs_x uhs_pad_fix uhs_line_begin uhs_lines].
      - cbn zeta. unfold range. rewrite Nat.sub_diag, take_0. cbn.
        split; apply Qle_refl.
      - intros b' e' x' Hin. now apply not_elem_of_nil in Hin. }
    pose proof (sum_inv_loop k_horz_space (m_padding fr) (m_widgets fr)
                  (length (m_widgets fr)) 0 _ Hp
                  (SpacerFacts.uhs_inv_start k_horz_space (m_padding fr)
                     (m_widgets fr)) Hstart) as [Hnow Hdone].
    cbn [Nat.add] in Hinv, Hnow, Hdone. cbn zeta in Hnow.
    set (st := fold_left _ _ _) in *.
    unfold uhs_finish. rewrite (SpacerFacts.inv_length _ _ _ _ _ Hinv).
    destruct (Nat.eqb_spec (uhs_line_begin st) (length (m_widgets fr)))
      as [Hend | Hmore]; [apply Hdone |].
    cbn [uhs_lines]. intros Hin.
    apply elem_of_app in Hin as [Hin | Hin]; [now apply Hdone |].
    apply list_elem_of_singleton in Hin. injection Hin as -> -> ->.
    apply Hnow.
Qed.

  (** X27.  In exact arithmetic, for a padding that is not negative, the spacers
      of a line never take more than the line's leftover: each has a width
      of zero or more, and the widths of the [n] spacers of a line, all the
      same, add up to at most [max(interior_width - used_width, 0)], the
      used width being the sum of the advances of the line's widgets less
      one padding for each spacer directly after a widget. *)
Theorem spacers_share_the_leftover (fr : Layout.Frame Q B) (i : nat)
      (s' : HorizontalSpacer Q) :
    (0 <= m_padding fr)%Q ->
    m_widgets (update_horizontal_spacers fr) !! i = Some (Spacer s') ->
    exists b e x,
      (b, e, x) ∈ uhs_lines (uhs_run fr) /\ b <= i < e
      /\ let n := horz_spacer_count b e (m_widgets fr) in
         let used_width :=
           SpacerFacts.used_width (m_padding fr) (range b e (m_widgets fr)) in
         1 <= n
         /\ (0 <= hs_width s')%Q
         /\ (inject_Z (Z.of_nat n) * hs_width s'
             <= Qmax (width_available_for_widgets (m_border fr) - used_width) 0)%Q.
Proof.
    intros Hp Hi.
    destruct (spacers_are_set fr i s' Hi)
      as (b & e & x & s & Hin & Hbe & Hn & _ & ->).
    exists b, e, x. split; [exact Hin |]. split; [exact Hbe |].
    cbn zeta. cbn [set_width hs_width].
    set (leftover := fmax (width_available_for_widgets (m_border fr) -! x) f0).
    assert (Hleft : (leftover
                     == Qmax (width_available_for_widgets (m_border fr) - x) 0)%Q).
    { subst leftover. rewrite fmax_Q. cbn [fsub exactQ].
      change (f0 : Q) with 0%Q. now rewrite Qred_correct. }
    assert (Hl : (0 <= leftover)%Q) by (rewrite Hleft; apply Q.le_max_r).
    destruct (width_per_spacer_shares leftover (m_padding fr) _ Hl Hp Hn)
      as [Hpos Hsum].
    pose proof (pass_sums_the_used_width_or_more fr b e x Hp Hin) as Hused.
    repeat split; try assumption.
    eapply Qle_trans; [exact Hsum |]. rewrite Hleft.
    apply Q.max_le_compat_r. lra.
Qed.
End SpacerWidthsExact.

  (** A frame of 200 by 100 at (10, 20) with padding 5: a widget, a nested
      frame of 100 by 50 that holds a spacer, a line separator and a widget
      of width 300, too wide for any line. *)
Definition sized_frame : Layout.Frame spec_float (SampleBorder.t spec_float) :=
    mkFrame PlaceFacts.roomy_border (b32 5 0)
      [PlaceFacts.b32_leaf 30 10;
       SubFrame (mkFrame SpacerFacts.wide_border (b32 2 0) [SpacerFacts.a_spacer]);
       LineSep; PlaceFacts.b32_leaf 300 10].

Lemma issue_auto_resize_leaves_sized_frames_witness :
    issue_auto_resize sized_frame = sized_frame.
Proof.
    apply issue_auto_resize_leaves_sized_frames.
    repeat split; vm_compute; reflexivity.
Defined.

  (** The widget of width 300 starts the third line, at [x = 19]. *)
Lemma placed_widgets_fit_or_start_a_line_witness :
    exists x y,
      fst (place_run sized_frame) !! 3
      = Some (widget_set_location x y (PlaceFacts.b32_leaf 300 10))
      /\ (x = b32 19 0 \/ (b32 210 0 <! x +! b32 305 0) = false)
      /\ y = b32 105 0.
Proof.
    destruct (placed_widgets_fit_or_start_a_line sized_frame 3
                (PlaceFacts.b32_leaf 300 10)
                (widget_set_location (b32 19 0) (b32 105 0)
                                     (PlaceFacts.b32_leaf 300 10)))
      as (x & y & Heq & Hfit); try (vm_compute; reflexivity).
    exists x, y. rewrite <- Heq.
    split; [vm_compute; reflexivity |]. split; [exact Hfit |].
    cbn in Heq. now injection Heq.
Defined.

Lemma finalize_widgets_keeps_the_shape_witness :
    match finalize_widgets 2 sized_frame with
    | Some r => shape r = shape sized_frame
    | None => False
    end.
Proof.
    destruct (finalize_widgets 2 sized_frame) as [r |] eqn:Hrun.
    - now apply (finalize_widgets_keeps_the_shape 2).
    - vm_compute in Hrun. discriminate.
Defined.

Lemma spacer_widths_are_never_negative_witness :
    exists s,
      m_widgets (update_horizontal_spacers
                   (mkFrame SpacerFacts.wide_border (b32 5 0)
                            [SpacerFacts.a_spacer])) !! 0 = Some (Spacer s)
      /\ hs_width s = b32 95 0
      /\ hs_width s <> S754_nan /\ (hs_width s <! f0) = false.
Proof.
    eexists. split; [vm_compute; reflexivity |].
    split; [vm_compute; reflexivity |].
    eapply (spacer_widths_are_never_negative
              (mkFrame SpacerFacts.wide_border (b32 5 0) [SpacerFacts.a_spacer]) 0).
    vm_compute. reflexivity.
Defined.

  (** The frame of the finalize example after its auto-resize: the spacer
      of the first line, at position 2, has the width 110 and is alone on
      its line, whose leftover is 115. *)
Lemma spacers_share_the_leftover_witness :
    exists s b e x,
      m_widgets (update_horizontal_spacers
                   (issue_auto_resize FinalizeFacts.outer_frame)) !! 2
      = Some (Spacer s)
      /\ hs_width s = 110%Q
      /\ (b, e, x) ∈ uhs_lines (uhs_run (issue_auto_resize FinalizeFacts.outer_frame))
      /\ b <= 2 < e
      /\ (0 <= hs_width s)%Q.
Proof.
    eexists. 
    destruct (spacers_share_the_leftover
                (issue_auto_resize FinalizeFacts.outer_frame) 2
                (mkSpacer (mkVectorF 0%Q 0%Q) 110%Q))
      as (b & e & x & Hin & Hbe & _ & Hpos & _);
      try (vm_compute; (reflexivity || discriminate)).
    exists b, e, x. split; [vm_compute; reflexivity |].
    split; [reflexivity |]. repeat split; try assumption; lia.
Defined.
End LayoutFacts.

(* ===================================================================== *)
(** * The positioning loop in exact arithmetic: lines do not overlap *)
(* ===================================================================== *)

Module LineFacts.
Import Layout.
Section LineFacts.
Context {B : Type} `{FrameBorderOps Q B}.
Abbreviation Widget := (Layout.Widget Q B).
Variables start_x k_right_limit padding : Q.
Hypothesis padding_nonneg : (0 <= padding)%Q.

  (** The point one turn of the loop hands to [set_location], if it places
      the widget, and the locals the turn leaves. *)
Definition step_at (st : place_state Q) (w : Widget)
      : option (Q * Q) * place_state Q :=
    if is_line_seperator w then
      (None, advance_locals_to_next_line start_x padding st)
    else
      let st1 :=
        if k_right_limit <! pl_x st +! get_widget_advance padding w
        then advance_locals_to_next_line start_x padding st else st in
      let x := if is_horizontal_spacer w
               then pl_x st1 +! pl_pad_fix st1 else pl_x st1 in
      (Some (x, pl_y st1),
       snd (place_step start_x k_right_limit padding st w)).

Definition put (at_ : option (Q * Q)) (w : Widget) : Widget :=
    match at_ with
    | Some (x, y) => widget_set_location x y w
    | None => w
    end.

Lemma place_step_at (st : place_state Q) (w : Widget) :
    place_step start_x k_right_limit padding st w
    = (put (fst (step_at st w)) w, snd (step_at st w)).
Proof.
    unfold step_at, place_step.
    destruct (is_line_seperator w); reflexivity.
Qed.

  (** The points of a whole run of the loop, widget by widget. *)
Fixpoint trace (st : place_state Q) (ws : list Widget) : list (option (Q * Q)) :=
    match ws with
    | [] => []
    | w :: rest => fst (step_at st w) :: trace (snd (step_at st w)) rest
    end.

Lemma place_loop_trace (ws : list Widget) :
    forall st,
      fst (place_loop start_x k_right_limit padding st ws)
      = zip_with put (trace st ws) ws.
Proof.
    induction ws as [| w ws IH]; intros st; [reflexivity |].
    cbn [place_loop trace zip_with]. rewrite place_step_at.
    specialize (IH (snd (step_at st w))).
    destruct (place_loop start_x k_right_limit padding (snd (step_at st w)) ws)
      as [rest' st2].
    cbn [fst] in IH |- *. now rewrite IH.
Qed.

  (** A widget placed at height [y] with the height [h], seen from the
      locals [st]: it is on the line being filled and the line is at least
      as high as it is, or it ends one padding or more above that line. *)
Definition settled_above (st : place_state Q) (e : Q * Q) : Prop :=
    (fst e = pl_y st /\ (snd e <= pl_line_height st)%Q)
    \/ (fst e + snd e + padding <= pl_y st)%Q.

Definition line_inv (st : place_state Q) (prev : list (Q * Q)) : Prop :=
    (0 <= pl_line_height st)%Q /\ Forall (settled_above st) prev.

Lemma line_inv_advance (st : place_state Q) (prev : list (Q * Q)) :
    line_inv st prev ->
    line_inv (advance_locals_to_next_line start_x padding st) prev.
Proof.
    intros [Hlh Hprev]. split; [apply Qle_refl |].
    eapply Forall_impl; [exact Hprev |].
    unfold settled_above. intros [y h] Hset. right. cbn [fst snd] in *.
    cbn [advance_locals_to_next_line pl_y fadd exactQ].
    rewrite !Qred_correct.
    destruct Hset as [[-> Hh] | Hlow]; lra.
Qed.

Lemma fmax_ge (a b : Q) : (a <= fmax a b)%Q /\ (b <= fmax a b)%Q.
Proof.
    rewrite LayoutFacts.fmax_Q. split; [apply Q.le_max_l | apply Q.le_max_r].
Qed.

  (** One turn of the loop keeps the invariant, the widget it places
      joining the widgets placed before. *)
Lemma line_inv_step (st : place_state Q) (prev : list (Q * Q)) (w : Widget) :
    line_inv st prev ->
    line_inv (snd (step_at st w))
      (match fst (step_at st w) with
       | Some (x, y) => (y, widget_height (widget_set_location x y w)) :: prev
       | None => prev
       end)
    /\ match fst (step_at st w) with
       | Some (x, y) =>
           Forall (fun e => fst e = y \/ (fst e + snd e + padding <= y)%Q) prev
       | None => True
       end.
Proof.
    intros Hinv. unfold step_at.
    destruct (is_line_seperator w) eqn:Hsep.
    { cbn [fst snd]. split; [now apply line_inv_advance | exact I]. }
    unfold place_step. rewrite Hsep. cbn [fst snd].
    set (st1 := if k_right_limit <! pl_x st +! get_widget_advance padding w
                then advance_locals_to_next_line start_x padding st else st).
    assert (Hinv1 : line_inv st1 prev).
    { subst st1. destruct (k_right_limit <! _); [| exact Hinv].
      now apply line_inv_advance. }
    set (x := if is_horizontal_spacer w
              then pl_x st1 +! pl_pad_fix st1 else pl_x st1).
    destruct Hinv1 as [Hlh Hprev].
    set (placed := widget_set_location x (pl_y st1) w).
    destruct (fmax_ge (widget_height placed) (pl_line_height st1)) as [Hh Hl].
    split.
    - split; [cbn [pl_line_height]; lra |].
      constructor.
      + left. cbn [fst snd pl_y pl_line_height]. split; [reflexivity | exact Hh].
      + eapply Forall_impl; [exact Hprev |].
        unfold settled_above.
        intros [y h] [[Hy Hle] | Hlow]; cbn [fst snd] in *.
        * left. cbn [fst snd pl_y pl_line_height]. split; [exact Hy | lra].
        * right. exact Hlow.
    - eapply Forall_impl; [exact Hprev |]. unfold settled_above.
      intros [y h] [[Hy _] | Hlow]; cbn [fst snd] in *; [now left | now right].
Qed.

Lemma trace_ordered (ws : list Widget) :
    forall st prev, line_inv st prev ->
    forall j xj yj, trace st ws !! j = Some (Some (xj, yj)) ->
      Forall (fun e => fst e = yj \/ (fst e + snd e + padding <= yj)%Q) prev
      /\ forall i xi yi wi,
           i < j -> trace st ws !! i = Some (Some (xi, yi)) ->
           ws !! i = Some wi ->
           yi = yj
           \/ (yi + widget_height (widget_set_location xi yi wi) + padding
               <= yj)%Q.
Proof.
    induction ws as [| w ws IH]; intros st prev Hinv j xj yj Hj;
      [discriminate |].
    destruct (line_inv_step st prev w Hinv) as [Hinv' Hnow].
    destruct j as [| j]; cbn [trace] in Hj |- *.
    - cbn in Hj. injection Hj as Hj. rewrite Hj in Hnow.
      split; [exact Hnow |]. intros i xi yi wi Hlt. lia.
    - cbn in Hj.
      destruct (IH _ _ Hinv' j xj yj Hj) as [Hprev' Hpairs].
      split.
      + destruct (fst (step_at st w)) as [[x y] |]; [| exact Hprev'].
        now apply Forall_cons in Hprev' as [_ Hprev'].
      + intros i xi yi wi Hlt Hi Hwi. destruct i as [| i].
        * cbn in Hi, Hwi. injection Hi as Hi. injection Hwi as <-.
          rewrite Hi in Hprev'.
          now apply Forall_cons in Hprev' as [Hhead _].
        * cbn in Hi, Hwi. apply (Hpairs i xi yi wi); [lia | exact Hi | exact Hwi].
Qed.
End LineFacts.

  (** X28.  In exact arithmetic and for a padding that is not negative, the
      positioning loop never lets lines overlap: of two widgets it places,
      the later one is put either at the height of the earlier one, or
      below the lower edge of the earlier one by one padding or more. *)
Theorem lines_do_not_overlap {B : Type} `{FrameBorderOps Q B}
      (fr : Layout.Frame Q B) (i j : nat) (wi wj : Layout.Widget Q B) :
    (0 <= m_padding fr)%Q -> i < j ->
    m_widgets fr !! i = Some wi -> m_widgets fr !! j = Some wj ->
    is_line_seperator wi = false -> is_line_seperator wj = false ->
    exists xi yi xj yj,
      fst (place_run fr) !! i = Some (widget_set_location xi yi wi)
      /\ fst (place_run fr) !! j = Some (widget_set_location xj yj wj)
      /\ (yi = yj
          \/ (yi + widget_height (widget_set_location xi yi wi) + m_padding fr
              <= yj)%Q).
Proof.
    intros Hp Hij Hi Hj Hsi Hsj. unfold place_run.
    set (start_x := vx (widget_start (m_border fr)) +! m_padding fr).
    set (k_right_limit := vx (location fr) +! width fr).
    rewrite (place_loop_trace start_x k_right_limit (m_padding fr)).
    assert (Hat : forall k w, m_widgets fr !! k = Some w ->
                    is_line_seperator w = false ->
                    exists x y,
                      trace start_x k_right_limit (m_padding fr) (place_start fr)
                            (m_widgets fr) !! k = Some (Some (x, y))).
    { generalize (place_start fr). generalize (m_widgets fr).
      induction l as [| w0 l IH]; intros st k w Hk Hsep; [discriminate |].
      destruct k as [| k]; cbn [trace].
      - cbn in Hk. injection Hk as ->. cbn. unfold step_at. rewrite Hsep.
        cbn [fst]. eauto.
      - cbn in Hk |- *. now apply (IH _ k w). }
    destruct (Hat i wi Hi Hsi) as (xi & yi & Hti).
    destruct (Hat j wj Hj Hsj) as (xj & yj & Htj).
    exists xi, yi, xj, yj.
    rewrite !lookup_zip_with, Hti, Htj, Hi, Hj. cbn.
    split; [reflexivity |]. split; [reflexivity |].
    assert (Hinv : line_inv (m_padding fr) (place_start fr) []).
    { split; [apply Qle_refl | constructor]. }
    destruct (trace_ordered start_x k_right_limit (m_padding fr) Hp
                (m_widgets fr) (place_start fr) [] Hinv j xj yj Htj)
      as [_ Hpairs].
    exact (Hpairs i xi yi wi Hij Hti Hi).
Qed.

Section SameLine.
Context {B : Type} `{FrameBorderOps Q B}.
Variables start_x k_right_limit padding : Q.
Hypothesis padding_nonneg : (0 <= padding)%Q.

  (** No spacer comes directly after a spacer; [after_spacer] tells whether
      the list follows one. *)
Fixpoint no_spacer_pairs (after_spacer : bool) (ws : list (Layout.Widget Q B))
      : Prop :=
    match ws with
    | [] => True
    | w :: rest =>
        after_spacer && is_horizontal_spacer w = false
        /\ no_spacer_pairs (is_horizontal_spacer w) rest
    end.

  (** A placed widget as its corner [(x, y)] and its size [(w, h)]. *)
Definition box : Type := Q * Q * (Q * Q).
Definition box_of (x y : Q) (w : Layout.Widget Q B) : box :=
    (x, y, (widget_width (widget_set_location x y w),
            widget_height (widget_set_location x y w))).

  (** The least [x] the next widget of the line can be given. *)
Definition next_x (st : place_state Q) (after_spacer : bool) : Q :=
    if after_spacer then pl_x st else (pl_x st + pl_pad_fix st)%Q.

Definition clear_of (st : place_state Q) (after_spacer : bool) (e : box) : Prop :=
    let '(x, y, (w, h)) := e in
    (y = pl_y st /\ (h <= pl_line_height st)%Q
     /\ (x + w <= next_x st after_spacer)%Q)
    \/ (y + h + padding <= pl_y st)%Q.

Definition box_inv (st : place_state Q) (after_spacer : bool) (prev : list box)
      : Prop :=
    (0 <= pl_line_height st)%Q /\ (pl_pad_fix st <= 0)%Q
    /\ Forall (clear_of st after_spacer) prev.

Lemma box_inv_advance (st : place_state Q) (after_spacer : bool)
      (prev : list box) :
    box_inv st after_spacer prev ->
    box_inv (advance_locals_to_next_line start_x padding st) false prev.
Proof.
    intros (Hlh & Hpf & Hprev).
    split; [apply Qle_refl |]. split; [apply Qle_refl |].
    eapply Forall_impl; [exact Hprev |].
    intros [[x y] [w h]] Hclear. right.
    cbn [advance_locals_to_next_line pl_y fadd exactQ].
    rewrite !Qred_correct.
    destruct Hclear as [(-> & Hh & _) | Hlow]; lra.
Qed.

Definition before (x y : Q) (e : box) : Prop :=
    let '(xe, ye, (we, he)) := e in
    (ye = y /\ (xe + we <= x)%Q) \/ (ye + he + padding <= y)%Q.

Lemma box_inv_step (st : place_state Q) (after_spacer : bool)
      (prev : list box) (w : Layout.Widget Q B) :
    box_inv st after_spacer prev ->
    after_spacer && is_horizontal_spacer w = false ->
    (forall x y, (0 <= widget_width (widget_set_location x y w))%Q) ->
    box_inv (snd (step_at start_x k_right_limit padding st w))
            (is_horizontal_spacer w)
            (match fst (step_at start_x k_right_limit padding st w) with
             | Some (x, y) => box_of x y w :: prev
             | None => prev
             end)
    /\ match fst (step_at start_x k_right_limit padding st w) with
       | Some (x, y) => Forall (before x y) prev
       | None => True
       end.
Proof.
    intros Hinv Hpair Hwidth. unfold step_at.
    destruct (is_line_seperator w) eqn:Hsep.
    { cbn [fst snd]. split; [| exact I].
      assert (is_horizontal_spacer w = false) as -> by now destruct w.
      now apply box_inv_advance with after_spacer. }
    unfold place_step. rewrite Hsep. cbn [fst snd].
    set (over := k_right_limit <! pl_x st +! get_widget_advance padding w).
    set (st1 := if over then advance_locals_to_next_line start_x padding st
                else st).
    set (flag1 := if over then false else after_spacer).
    assert (Hinv1 : box_inv st1 flag1 prev).
    { subst st1 flag1. destruct over; [| exact Hinv].
      now apply box_inv_advance with after_spacer. }
    assert (Hflag1 : flag1 && is_horizontal_spacer w = false).
    { subst flag1. now destruct over. }
    clearbody st1 flag1. clear Hinv Hpair over.
    destruct Hinv1 as (Hlh & Hpf & Hprev).
    set (x := if is_horizontal_spacer w
              then pl_x st1 +! pl_pad_fix st1 else pl_x st1).
    set (placed := widget_set_location x (pl_y st1) w).
    pose proof (Hwidth x (pl_y st1)) as Hwd. fold placed in Hwd.
    destruct (fmax_ge (widget_height placed) (pl_line_height st1)) as [Hh Hl].
    assert (Hnext : (next_x st1 flag1 <= x)%Q).
    { subst x. unfold next_x. destruct (is_horizontal_spacer w).
      - rewrite andb_true_r in Hflag1. subst flag1.
        cbn [fadd exactQ].
        pose proof (Qred_correct (pl_x st1 + pl_pad_fix st1)) as Hred. lra.
      - destruct flag1; lra. }
    assert (Hadv : (get_widget_advance padding placed
                    == widget_width placed
                       + (if is_horizontal_spacer w then 0 else padding))%Q).
    { unfold get_widget_advance. subst placed.
      rewrite FinalizeFacts.is_line_seperator_set_location, Hsep.
      rewrite FinalizeFacts.is_horizontal_spacer_set_location.
      cbn [orb fadd exactQ]. rewrite Qred_correct.
      now destruct (is_horizontal_spacer w). }
    split.
    - split; [cbn [pl_line_height]; lra |].
      split; [cbn [pl_pad_fix fopp exactQ]; rewrite Qred_correct; lra |].
      assert (Hedge : (x + widget_width placed
                       <= next_x (mkPlace (x +! get_widget_advance padding placed)
                                          (pl_y st1)
                                          (fmax (widget_height placed)
                                                (pl_line_height st1))
                                          (fopp padding) (pl_line st1))
                                 (is_horizontal_spacer w))%Q).
      { unfold next_x. cbn [pl_x pl_pad_fix fadd fopp exactQ].
        destruct (is_horizontal_spacer w); rewrite !Qred_correct, Hadv; lra. }
      constructor.
      + left. split; [reflexivity |]. split; [exact Hh | exact Hedge].
      + eapply Forall_impl; [exact Hprev |].
        intros [[xe ye] [we he]] [(Hy & Hhe & Hxe) | Hlow].
        * left. split; [exact Hy |]. cbn [pl_line_height].
          split; [lra |]. lra.
        * right. exact Hlow.
    - eapply Forall_impl; [exact Hprev |].
      intros [[xe ye] [we he]] [(Hy & _ & Hxe) | Hlow].
      + left. split; [exact Hy | lra].
      + right. exact Hlow.
Qed.

Definition never_narrow (w : Layout.Widget Q B) : Prop :=
    forall x y, (0 <= widget_width (widget_set_location x y w))%Q.

Lemma trace_boxes (ws : list (Layout.Widget Q B)) :
    forall st after_spacer prev,
      box_inv st after_spacer prev ->
      no_spacer_pairs after_spacer ws -> Forall never_narrow ws ->
      forall j xj yj,
        trace start_x k_right_limit padding st ws !! j = Some (Some (xj, yj)) ->
        Forall (before xj yj) prev
        /\ forall i xi yi wi,
             i < j ->
             trace start_x k_right_limit padding st ws !! i
             = Some (Some (xi, yi)) ->
             ws !! i = Some wi -> before xj yj (box_of xi yi wi).
Proof.
    induction ws as [| w ws IH];
      intros st after_spacer prev Hinv Hpairs Hwide j xj yj Hj;
      [discriminate |].
    cbn [no_spacer_pairs] in Hpairs. destruct Hpairs as [Hpair Hpairs].
    apply Forall_cons in Hwide as [Hw Hwide].
    destruct (box_inv_step st after_spacer prev w Hinv Hpair Hw)
      as [Hinv' Hnow].
    destruct j as [| j]; cbn [trace] in Hj |- *.
    - cbn in Hj. injection Hj as Hj. rewrite Hj in Hnow.
      split; [exact Hnow |]. intros i xi yi wi Hlt. lia.
    - cbn in Hj.
      destruct (IH _ _ _ Hinv' Hpairs Hwide j xj yj Hj) as [Hprev' Hrest].
      split.
      + destruct (fst (step_at start_x k_right_limit padding st w))
          as [[x y] |]; [| exact Hprev'].
        now apply Forall_cons in Hprev' as [_ Hprev'].
      + intros i xi yi wi Hlt Hi Hwi. destruct i as [| i].
        * cbn in Hi, Hwi. injection Hi as Hi. injection Hwi as <-.
          rewrite Hi in Hprev'.
          now apply Forall_cons in Hprev' as [Hhead _].
        * cbn in Hi, Hwi. apply (Hrest i xi yi wi); [lia | exact Hi | exact Hwi].
Qed.
End SameLine.

  (** X29.  In exact arithmetic the positioning loop lets no two widgets overlap,
      for a padding that is not negative, widgets of widths that are not
      negative and a list in which no spacer comes directly after a spacer:
      of two widgets it places, the later one either is at the height of
      the earlier one and starts at or after its right edge, or starts
      below its lower edge by one padding or more. *)
Theorem placed_widgets_do_not_overlap {B : Type} `{FrameBorderOps Q B}
      (fr : Layout.Frame Q B) (i j : nat) (wi wj : Layout.Widget Q B) :
    (0 <= m_padding fr)%Q ->
    no_spacer_pairs false (m_widgets fr) ->
    Forall never_narrow (m_widgets fr) ->
    i < j ->
    m_widgets fr !! i = Some wi -> m_widgets fr !! j = Some wj ->
    is_line_seperator wi = false -> is_line_seperator wj = false ->
    exists xi yi xj yj,
      fst (place_run fr) !! i = Some (widget_set_location xi yi wi)
      /\ fst (place_run fr) !! j = Some (widget_set_location xj yj wj)
      /\ ((yi = yj
           /\ (xi + widget_width (widget_set_location xi yi wi) <= xj)%Q)
          \/ (yi + widget_height (widget_set_location xi yi wi) + m_padding fr
              <= yj)%Q).
Proof.
    intros Hp Hpairs Hwide Hij Hi Hj Hsi Hsj. unfold place_run.
    set (start_x := vx (widget_start (m_border fr)) +! m_padding fr).
    set (k_right_limit := vx (location fr) +! width fr).
    rewrite (place_loop_trace start_x k_right_limit (m_padding fr)).
    assert (Hat : forall k w, m_widgets fr !! k = Some w ->
                    is_line_seperator w = false ->
                    exists x y,
                      trace start_x k_right_limit (m_padding fr) (place_start fr)
                            (m_widgets fr) !! k = Some (Some (x, y))).
    { generalize (place_start fr). generalize (m_widgets fr).
      induction l as [| w0 l IH]; intros st k w Hk Hsep; [discriminate |].
      destruct k as [| k]; cbn [trace].
      - cbn in Hk. injection Hk as ->. cbn. unfold step_at. rewrite Hsep.
        cbn [fst]. eauto.
      - cbn in Hk |- *. now apply (IH _ k w). }
    destruct (Hat i wi Hi Hsi) as (xi & yi & Hti).
    destruct (Hat j wj Hj Hsj) as (xj & yj & Htj).
    exists xi, yi, xj, yj.
    rewrite !lookup_zip_with, Hti, Htj, Hi, Hj. cbn.
    split; [reflexivity |]. split; [reflexivity |].
    assert (Hinv : box_inv (m_padding fr) (place_start fr) false []).
    { split; [apply Qle_refl |]. split; [apply Qle_refl | constructor]. }
    destruct (trace_boxes start_x k_right_limit (m_padding fr) Hp
                (m_widgets fr) (place_start fr) false [] Hinv Hpairs Hwide
                j xj yj Htj) as [_ Hrest].
    exact (Hrest i xi yi wi Hij Hti Hi).
Qed.

  (** A widget, a spacer of width 7 and a widget, with padding 5. *)
Lemma placed_widgets_do_not_overlap_witness :
    exists xi yi xj yj,
      fst (place_run (mkFrame PlaceFacts.exact_border 5%Q PlaceFacts.exact_widgets))
        !! 0
      = Some (widget_set_location xi yi
                (Leaf (mkLeaf (mkVectorF 0%Q 0%Q) 30%Q 10%Q)))
      /\ fst (place_run (mkFrame PlaceFacts.exact_border 5%Q
                                 PlaceFacts.exact_widgets)) !! 1
         = Some (widget_set_location xj yj
                   (Spacer (mkSpacer (mkVectorF 0%Q 0%Q) 7%Q)))
      /\ ((yi = yj /\ (xi + 30 <= xj)%Q) \/ (yi + 10 + 5 <= yj)%Q).
Proof.
    refine (placed_widgets_do_not_overlap
              (mkFrame PlaceFacts.exact_border 5%Q PlaceFacts.exact_widgets)
              0 1 (Leaf (mkLeaf (mkVectorF 0%Q 0%Q) 30%Q 10%Q))
              (Spacer (mkSpacer (mkVectorF 0%Q 0%Q) 7%Q)) _ _ _ _ _ _ _ _);
      try reflexivity.
    - vm_compute. discriminate.
    - repeat split.
    - repeat constructor; intros x y; vm_compute; discriminate.
    - lia.
Defined.

  (** Why the list must not hold two spacers in a row: each spacer after
      the first of a line steps back by one padding, so two spacers of
      width zero behind a widget leave the next widget one padding inside
      it.  Here the first widget spans 19 to 49 and the second starts at
      44. *)
Lemma adjacent_spacers_pull_back :
    map widget_location
        (fst (place_run
                (mkFrame PlaceFacts.exact_border 5%Q
                   [Leaf (mkLeaf (mkVectorF 0%Q 0%Q) 30%Q 10%Q);
                    Spacer (mkSpacer (mkVectorF 0%Q 0%Q) 0%Q);
                    Spacer (mkSpacer (mkVectorF 0%Q 0%Q) 0%Q);
                    Leaf (mkLeaf (mkVectorF 0%Q 0%Q) 30%Q 10%Q)])))
    = [Some (mkVectorF 19%Q 45%Q); Some (mkVectorF 49%Q 45%Q);
       Some (mkVectorF 44%Q 45%Q); Some (mkVectorF 44%Q 45%Q)].
Proof. vm_compute. reflexivity. Qed.

Lemma lines_do_not_overlap_witness :
    exists xi yi xj yj,
      fst (place_run (issue_auto_resize FinalizeFacts.outer_frame)) !! 1
      = Some (widget_set_location xi yi
                (SubFrame (issue_auto_resize FinalizeFacts.inner_frame)))
      /\ fst (place_run (issue_auto_resize FinalizeFacts.outer_frame)) !! 5
         = Some (widget_set_location xj yj (FinalizeFacts.exact_leaf 200 10))
      /\ (yi = yj
          \/ (yi + widget_height
                     (widget_set_location xi yi
                        (SubFrame (issue_auto_resize FinalizeFacts.inner_frame)))
              + 5 <= yj)%Q).
Proof.
    refine (lines_do_not_overlap (issue_auto_resize FinalizeFacts.outer_frame)
              1 5 (SubFrame (issue_auto_resize FinalizeFacts.inner_frame))
              (FinalizeFacts.exact_leaf 200 10) _ _ _ _ _ _);
      try reflexivity.
    - vm_compute. discriminate.
    - lia.
Defined.
End LineFacts.

(* ===================================================================== *)
(** * Button: the inner rectangle *)
(* ===================================================================== *)

Module ButtonGeometryFacts.
Import Button.

Lemma Qle_bool_false (a b : Q) : (b < a)%Q -> Qle_bool a b = false.
Proof.
    intros Hlt. destruct (Qle_bool a b) eqn:Hle; [| reflexivity].
    apply Qle_bool_iff in Hle. lra.
Qed.

  (** X30.  In exact arithmetic, for a padding that is not negative and a size of
      at least two paddings each way: once a button has been given its size
      and its location, in either order, the inner rectangle lies inside
      the outer one with a margin of exactly one padding on each of the
      four sides, and the two orders give the same button. *)
Theorem inner_rectangle_has_even_margins (x y w h : Q) (b : Button.t Q) :
    (0 <= m_padding b)%Q -> (0 < w)%Q -> (0 < h)%Q ->
    (m_padding b * 2 <= w)%Q -> (m_padding b * 2 <= h)%Q ->
    let b' := snd (set_size w h (set_location x y b)) in
    let outer := m_outer b' in
    let inner := m_inner b' in
    set_size w h (set_location x y b) = (inr tt, b')
    /\ b' = set_location x y (snd (set_size w h b))
    /\ (DrawRectangle.x inner - DrawRectangle.x outer == m_padding b)%Q
    /\ (DrawRectangle.y inner - DrawRectangle.y outer == m_padding b)%Q
    /\ ((DrawRectangle.x outer + DrawRectangle.width outer)
        - (DrawRectangle.x inner + DrawRectangle.width inner) == m_padding b)%Q
    /\ ((DrawRectangle.y outer + DrawRectangle.height outer)
        - (DrawRectangle.y inner + DrawRectangle.height inner) == m_padding b)%Q.
Proof.
    intros Hp Hw Hh Hwp Hhp. cbn zeta.
    assert (Hok : forall b0 : Button.t Q,
               set_size w h b0
               = (inr tt, on_size_changed (width b0) (height b0)
                            (set_size_back w h (set_button_frame_size w h b0)))).
    { intros b0. unfold set_size. cbn [fleb exactQ].
      change (f0 : Q) with 0%Q.
      now rewrite (Qle_bool_false w 0 Hw), (Qle_bool_false h 0 Hh). }
    rewrite !Hok. cbn [snd].
    split; [reflexivity |]. split; [reflexivity |].
    cbn [on_size_changed set_size_back set_button_frame_size set_location
         on_location_changed m_outer m_inner m_padding
         DrawRectangle.set_size DrawRectangle.set_position
         DrawRectangle.x DrawRectangle.y DrawRectangle.width
         DrawRectangle.height].
    pose proof (LayoutFacts.fmax_Q (w -! m_padding b *! f2) f0) as Hmw.
    pose proof (LayoutFacts.fmax_Q (h -! m_padding b *! f2) f0) as Hmh.
    cbn [fadd fsub fmul exactQ] in *. change (f2 : Q) with 2%Q in *.
    change (f0 : Q) with 0%Q in *.
    rewrite Hmw, Hmh, !Qred_correct.
    rewrite (Q.max_l (w - m_padding b * 2) 0) by lra.
    rewrite (Q.max_l (h - m_padding b * 2) 0) by lra.
    repeat split; ring.
Qed.

Lemma inner_rectangle_has_even_margins_witness :
    m_inner (snd (set_size 80%Q 30%Q
                    (set_location 10%Q 10%Q
                       (ButtonEvents.body ButtonEventFacts.red_button))))
    = DrawRectangle.mk 12%Q 12%Q 76%Q 26%Q
    /\ (12 - 10 == 2)%Q.
Proof.
    destruct (inner_rectangle_has_even_margins 10%Q 10%Q 80%Q 30%Q
                (ButtonEvents.body ButtonEventFacts.red_button))
      as (_ & _ & Hleft & _); try (vm_compute; (reflexivity || discriminate)).
    split; [reflexivity | exact Hleft].
Defined.
End ButtonGeometryFacts.
